(** * ModBaseCallerNode: batching, scheduling and result aggregation

    A shallow embedding of [dorado/read_pipeline/ModBaseCallerNode.cpp]
    together with the bounded channel exercised by [tests/AsyncQueueTest.cpp],
    and of the pure parts of three neighbours of the node:
    [read_pipeline/ScalerNode.cpp],
    [read_pipeline/BaseSpaceDuplexCallerNode.cpp] and
    [utils/metal_utils.cpp].

    - Part I    outcomes of C++ evaluation (value, exception, undefined)
    - Part II   binary32 scores and the byte quantisation of the aggregator
    - Part III  the bounded channel [AsyncQueue]
    - Part IV   model metadata: [get_modbase_info_and_maybe_init]
    - Part V    reads, chunks and the per-read operations of the three
                worker kinds
    - Part VI   the node as a transition system on its shared state, one
                transition per critical section of a worker thread
    - Part VII  machine arithmetic of the other stages: [int], binary32
    - Part VIII the scaler: [normalisation] and [ScalerNode::trim]
    - Part IX   the base-space duplex caller:
                [compute_basespace_consensus]
    - Part X    the rest of [ModBaseCallerNode.cpp]: [init_modbase_info]
                and the slots a caller fills
    - Part XI   the GPU core count of [metal_utils.cpp]
    - Part XII  theorems. *)

From Stdlib Require Import ZArith QArith Qround Ascii String.
From stdpp Require Import base tactics option list gmap.

Local Open Scope nat_scope.

(* ===================================================================== *)
(** * Part I: outcomes *)
(* ===================================================================== *)

(** What evaluating a piece of C++ can do: return a value, throw a
    [std::runtime_error] carrying a message, or leave the language
    (out-of-range [operator[]], dereferencing an expired pointer,
    converting an unrepresentable float). *)
Inductive outcome (A : Type) : Type :=
  | Ok (a : A)
  | Throw (msg : string)
  | Undefined.
Arguments Ok {A} a.
Arguments Throw {A} msg.
Arguments Undefined {A}.

#[global] Instance outcome_ret : MRet outcome := fun A a => Ok a.

#[global] Instance outcome_bind : MBind outcome := fun A B k m =>
  match m with
  | Ok a => k a
  | Throw msg => Throw msg
  | Undefined => Undefined
  end.

Definition of_option {A} (o : option A) : outcome A :=
  match o with
  | Some a => Ok a
  | None => Undefined
  end.

(** [v[i] = x] on a [std::vector]: defined only inside the vector. *)
Definition vec_store {A} (v : list A) (i : nat) (x : A) : outcome (list A) :=
  if decide (i < length v) then Ok (<[i := x]> v) else Undefined.

(** [v.resize(n, x)]: keeps the first [n] elements, pads with [x]. *)
Definition vec_resize {A} (v : list A) (n : nat) (x : A) : list A :=
  take n v ++ replicate (n - length v) x.

(* ===================================================================== *)
(** * Part II: scores and their quantisation *)
(* ===================================================================== *)

(** A binary32 value is a rational, an infinity or a NaN.  Every finite
    binary32 is a rational, so a statement over all [FFinite q] covers
    every finite float. *)
Inductive float32 : Type :=
  | FFinite (q : Q)
  | FPosInf
  | FNegInf
  | FNaN.

(** Largest finite binary32: (2^24 - 1) * 2^104. *)
Definition FLT_MAX : Q := inject_Z ((2 ^ 24 - 1) * 2 ^ 104).

(** [x * 256] in binary32.  Scaling by a power of two is exact unless it
    overflows, and then it rounds to the infinity of the same sign. *)
Definition fmul256 (x : float32) : float32 :=
  match x with
  | FFinite q =>
      let p := (q * 256)%Q in
      if Qle_bool p FLT_MAX then
        if Qle_bool (- FLT_MAX) p then FFinite p else FNegInf
      else FPosInf
  | other => other
  end.

(** [std::floor] *)
Definition ffloor (x : float32) : float32 :=
  match x with
  | FFinite q => FFinite (inject_Z (Qfloor q))
  | other => other
  end.

(** [b < a] on floats; any comparison with a NaN is false. *)
Definition flt (b a : float32) : bool :=
  match b, a with
  | FNaN, _ | _, FNaN => false
  | FFinite x, FFinite y => negb (Qle_bool y x)
  | FFinite _, FPosInf => true
  | FFinite _, FNegInf => false
  | FPosInf, _ => false
  | FNegInf, FNegInf => false
  | FNegInf, _ => true
  end.

(** [std::min(a, b)] is [(b < a) ? b : a]. *)
Definition fmin (a b : float32) : float32 := if flt b a then b else a.

(** [uint8_t(x)]: truncation toward zero, defined only when the truncated
    value is representable in eight bits. *)
Definition to_uint8 (x : float32) : outcome Z :=
  match x with
  | FFinite q =>
      let t := if Qle_bool 0 q then Qfloor q else Qceiling q in
      if decide (0 <= t < 256)%Z then Ok t else Undefined
  | _ => Undefined
  end.

(** The expression of [output_worker_thread]:
    [uint8_t(std::min(std::floor(score * 256), 255.0f))]. *)
Definition quantize (score : float32) : outcome Z :=
  to_uint8 (fmin (ffloor (fmul256 score)) (FFinite 255)).

(** The assignment [base_mod_probs[...] = 1.0f] of [runner_worker_thread].
    The buffer is the one [output_worker_thread] fills with [uint8_t]
    values, so the float 1.0 is converted to the byte 1. *)
Definition canonical_init_value : outcome Z := to_uint8 (FFinite 1).

(* ===================================================================== *)
(** * Part III: the bounded channel *)
(* ===================================================================== *)

Module AsyncQueue.

(** Modelled from the spec: [utils/AsyncQueue.h] is not among the sources
    (only its test is), so the channel follows section 4.1 of the
    specification: a fixed capacity, a buffer in arrival order and a
    termination flag. *)
Record t (A : Type) : Type := mk {
  items : list A;
  capacity : nat;
  terminated : bool
}.
Arguments mk {A} items capacity terminated.
Arguments items {A} _.
Arguments capacity {A} _.
Arguments terminated {A} _.

(** Modelled from the spec: the constructor [AsyncQueue<T> queue(n)] of the
    test gives an empty, live channel of capacity [n]. *)
Definition create {A} (n : nat) : t A := mk [] n false.

(** Modelled from the spec: "[try_push(item) -> bool] fails (returns false,
    item not enqueued) if the channel has been terminated or is full". *)
Definition try_push {A} (x : A) (q : t A) : bool * t A :=
  if terminated q then (false, q)
  else if decide (length (items q) < capacity q)
       then (true, mk (items q ++ [x]) (capacity q) false)
       else (false, q).

(** What a call of [try_pop] does. *)
Inductive pop_result (A : Type) : Type :=
  | Popped (x : A) (q : t A)   (* returns true, [x] stored in the argument *)
  | PopFailed                  (* returns false *)
  | PopBlocked.                (* the caller stays suspended *)
Arguments Popped {A} x q.
Arguments PopFailed {A}.
Arguments PopBlocked {A}.

(** Modelled from the spec: "[try_pop] blocks until an item is available or
    termination occurs; returns nothing and unblocks immediately if
    termination is signaled and no items remain". *)
Definition try_pop {A} (q : t A) : pop_result A :=
  match items q with
  | x :: rest => Popped x (mk rest (capacity q) (terminated q))
  | [] => if terminated q then PopFailed else PopBlocked
  end.

(** Modelled from the spec: [terminate()] raises the termination flag and
    touches nothing else. *)
Definition terminate {A} (q : t A) : t A := mk (items q) (capacity q) true.

(** The calls a client can make, what each of them reports, and a
    client making a sequence of calls on a channel nobody else uses.  The
    run is [None] when a call would never return. *)
Inductive op (A : Type) : Type :=
  | OpPush (x : A)
  | OpPop
  | OpTerminate.
Arguments OpPush {A} x.
Arguments OpPop {A}.
Arguments OpTerminate {A}.

Inductive event (A : Type) : Type :=
  | EvPush (ok : bool)
  | EvPop (got : option A)
  | EvTerminate.
Arguments EvPush {A} ok.
Arguments EvPop {A} got.
Arguments EvTerminate {A}.

Fixpoint run {A} (ops : list (op A)) (q : t A)
  : option (list (event A) * t A) :=
  match ops with
  | [] => Some ([], q)
  | OpPush x :: ops' =>
      let '(ok, q1) := try_push x q in
      '(evs, q2) ← run ops' q1; Some (EvPush ok :: evs, q2)
  | OpPop :: ops' =>
      match try_pop q with
      | Popped x q1 => '(evs, q2) ← run ops' q1; Some (EvPop (Some x) :: evs, q2)
      | PopFailed => '(evs, q2) ← run ops' q; Some (EvPop None :: evs, q2)
      | PopBlocked => None
      end
  | OpTerminate :: ops' =>
      '(evs, q2) ← run ops' (terminate q); Some (EvTerminate :: evs, q2)
  end.

(** The flags returned by the pushes of a run, and the results of its
    pops, both in call order. *)
Definition push_flags {A} (evs : list (event A)) : list bool :=
  omap (fun e => match e with EvPush ok => Some ok | _ => None end) evs.

Definition pop_results {A} (evs : list (event A)) : list (option A) :=
  omap (fun e => match e with EvPop got => Some got | _ => None end) evs.

(** How many pops a sequence of calls holds. *)
Definition pops_in {A} (ops : list (op A)) : nat :=
  length (omap (fun o => match o with OpPop => Some () | _ => None end) ops).

End AsyncQueue.

(* ===================================================================== *)
(** * Part IV: model metadata *)
(* ===================================================================== *)

(** Modelled from the spec: the table [RemoraUtils::BASE_IDS] lives in
    [modbase/remora_utils.h], which is not among the sources.  The alphabet
    is A, C, G, T in this order ([allowed_bases] of
    [get_modbase_info_and_maybe_init]); every other symbol has a negative
    id, which is what [runner_worker_thread] tests for. *)
Definition BASE_IDS (c : ascii) : Z :=
  if decide (c = "A"%char) then 0
  else if decide (c = "C"%char) then 1
  else if decide (c = "G"%char) then 2
  else if decide (c = "T"%char) then 3
  else (-1).

Definition allowed_bases : list ascii := ["A"; "C"; "G"; "T"]%char.

(** [s[i]] on a [std::string] with an [int] index: the character inside the
    string, the terminating zero at [i = size], undefined elsewhere. *)
Definition string_at (s : list ascii) (i : Z) : outcome ascii :=
  if decide (0 <= i)%Z then
    match s !! Z.to_nat i with
    | Some c => Ok c
    | None => if decide (Z.to_nat i = length s) then Ok zero else Undefined
    end
  else Undefined.

(** The fields of [BaseModParams] the node reads. *)
Record BaseModParams : Type := mkBaseModParams {
  motif : list ascii;
  motif_offset : Z;
  mod_bases : list ascii;
  mod_long_names : list string;
  base_mod_count : nat
}.

(** The local struct [ModelInfo]. *)
Record ModelInfo : Type := mkModelInfo {
  mi_long_names : list string;
  mi_alphabet : list ascii;
  mi_motif : list ascii;
  mi_motif_offset : Z;
  base_counts : nat
}.

(** The part of the node written by the initialisation. *)
Record NodeInfo : Type := mkNodeInfo {
  m_num_states : nat;
  m_base_prob_offsets : list nat;
  (* the arguments handed to [context_handler.set_context], in call order *)
  m_contexts : list (list ascii * nat)
}.

(** The offsets of the four canonical bases all lie inside one position's
    block of [m_num_states] entries. *)
Definition wf_info (ni : NodeInfo) : Prop :=
  ∀ b, b < 4 ->
    ∃ off, m_base_prob_offsets ni !! b = Some off ∧ off < m_num_states ni.

(** The returned [Info]. *)
Record Info : Type := mkInfo {
  info_long_names : string;
  info_alphabet : list ascii
}.

(** [model_info] after the first loop: one entry per canonical base, its
    alphabet holding that base, [base_counts] at its default 1.  The
    uninitialised [motif_offset] is read only once a motif has been set. *)
Definition initial_model_info : list ModelInfo :=
  (fun b => mkModelInfo [] [b] [] 0 1) <$> allowed_bases.

(** One iteration of the loop over [base_mod_params].  [node] is [None]
    for the null pointer. *)
Definition load_params (params : BaseModParams)
    (acc : list ModelInfo * option NodeInfo)
  : outcome (list ModelInfo * option NodeInfo) :=
  let '(model_info, node) := acc in
  base ← string_at (motif params) (motif_offset params);
  if decide (base ∈ allowed_bases) then
    let b := Z.to_nat (BASE_IDS base) in
    map_entry ← of_option (model_info !! b);
    let e1 := mkModelInfo (mod_long_names params)
                (mi_alphabet map_entry ++ mod_bases params)
                (mi_motif map_entry) (mi_motif_offset map_entry)
                (base_counts map_entry) in
    match node with
    | Some n =>
        let e2 := mkModelInfo (mi_long_names e1) (mi_alphabet e1)
                    (motif params) (motif_offset params)
                    (base_mod_count params + 1) in
        Ok (<[b := e2]> model_info,
            Some (mkNodeInfo (m_num_states n + base_mod_count params)
                    (m_base_prob_offsets n) (m_contexts n)))
    | None => Ok (<[b := e1]> model_info, None)
    end
  else Throw "Invalid base in remora model metadata.".

Fixpoint load_all_params (ps : list BaseModParams)
    (acc : list ModelInfo * option NodeInfo)
  : outcome (list ModelInfo * option NodeInfo) :=
  match ps with
  | [] => Ok acc
  | p :: ps' => acc' ← load_params p acc; load_all_params ps' acc'
  end.

(** The second loop: names joined by single spaces, alphabets
    concatenated, contexts registered for the entries that have a motif. *)
Definition join_names (names : list string) (acc : string) : string :=
  foldl (fun r name =>
           ((if decide (r = EmptyString) then r else r ++ " ") ++ name)%string)
        acc names.

Definition collect_info (model_info : list ModelInfo) (with_node : bool)
  : Info * list (list ascii * nat) :=
  foldl (fun '(result, ctx) info =>
           (mkInfo (join_names (mi_long_names info) (info_long_names result))
                   (info_alphabet result ++ mi_alphabet info),
            if with_node && negb (bool_decide (mi_motif info = []))
            then ctx ++ [(mi_motif info, Z.to_nat (mi_motif_offset info))]
            else ctx))
        (mkInfo EmptyString [], []) model_info.

Definition count_of (model_info : list ModelInfo) (b : nat) : nat :=
  default 0 (base_counts <$> model_info !! b).

(** [get_modbase_info_and_maybe_init]: the returned [Info] and the node as
    it is left ([None] when called without a node).  The model table is
    returned as well so that theorems can speak about the class counts. *)
Definition get_modbase_info_and_maybe_init
    (base_mod_params : list BaseModParams) (node : option NodeInfo)
  : outcome (Info * option NodeInfo * list ModelInfo) :=
  '(model_info, node1) ← load_all_params base_mod_params
                            (initial_model_info, node);
  let '(result, ctx) := collect_info model_info (bool_decide (is_Some node1)) in
  let node2 :=
    (fun n =>
       let o1 := count_of model_info 0 in
       let o2 := o1 + count_of model_info 1 in
       let o3 := o2 + count_of model_info 2 in
       mkNodeInfo (m_num_states n) [0; o1; o2; o3] ctx) <$> node1 in
  Ok (result, node2, model_info).

(** What the loop over the model parameters maintains: four entries, each
    counting at least the canonical class, and together no more classes
    than the node has states. *)
Definition load_inv (acc : list ModelInfo * option NodeInfo) : Prop :=
  length acc.1 = 4
  ∧ Forall (fun e => 1 <= base_counts e) acc.1
  ∧ ∀ n, acc.2 = Some n ->
      count_of acc.1 0 + count_of acc.1 1 + count_of acc.1 2 + count_of acc.1 3
      <= m_num_states n.

(** The index [params.motif_offset] lies inside [params.motif] or on its
    terminating zero, so that [params.motif[params.motif_offset]] is
    defined. *)
Definition indexable (p : BaseModParams) : Prop :=
  (0 <= motif_offset p <= Z.of_nat (length (motif p)))%Z.

(** The context base of a model is not a canonical base. *)
Definition bad_context_base (p : BaseModParams) : Prop :=
  ∃ c, string_at (motif p) (motif_offset p) = Ok c ∧ c ∉ allowed_bases.

(* ===================================================================== *)
(** * Part V: reads, chunks and the work of the three worker kinds *)
(* ===================================================================== *)

(** The fields of [Read] the node touches.  Reads are shared objects
    ([std::shared_ptr<Read>]): the node keeps them in a store and every
    queue, chunk and list below holds the store key of its read. *)
Record Read : Type := mkRead {
  seq : list ascii;
  base_mod_probs : list Z;              (* bytes, [uint8_t] *)
  num_modbase_chunks : nat;
  num_modbase_chunks_called : nat
}.

(** [RemoraChunk].  [source_read] is the weak pointer back to the read;
    the signal window and the encoded k-mers are inputs of the inference
    engine only and are left out. *)
Record RemoraChunk : Type := mkChunk {
  source_read : nat;
  context_hit : nat;
  scores : list float32
}.

(** A contiguous two-dimensional float tensor: what [call_chunks] returns
    after [to(torch::kFloat32)], addressed through its raw data pointer. *)
Record Tensor : Type := mkTensor {
  row_size : nat;                       (* [results.size(1)] *)
  tensor_data : list float32
}.

(** ** The expander: [runner_worker_thread] *)

(** The loop that writes the canonical entry of every position.  Returns
    the buffer as the loop leaves it and how the loop ended. *)
Fixpoint init_loop (ni : NodeInfo) (rest : list ascii) (i : nat)
    (probs : list Z) : list Z * outcome () :=
  match rest with
  | [] => (probs, Ok ())
  | c :: rest' =>
      let base_id := BASE_IDS c in
      if decide (base_id < 0)%Z
      then (probs, Throw "Invalid character in sequence.")
      else
        match
          off ← of_option (m_base_prob_offsets ni !! Z.to_nat base_id);
          v ← canonical_init_value;
          vec_store probs (i * m_num_states ni + off) v
        with
        | Ok probs' => init_loop ni rest' (S i) probs'
        | Throw msg => (probs, Throw msg)
        | Undefined => (probs, Undefined)
        end
  end.

(** The block [base_mod_probs_init]. *)
Definition init_base_mod_probs (ni : NodeInfo) (r : Read)
  : Read * outcome () :=
  let probs0 :=
    vec_resize (base_mod_probs r) (length (seq r) * m_num_states ni) 0%Z in
  let '(probs, res) := init_loop ni (seq r) 0 probs0 in
  (mkRead (seq r) probs (num_modbase_chunks r) (num_modbase_chunks_called r),
   res).

(** [num_modbase_chunks = 0; num_modbase_chunks_called = 0]. *)
Definition reset_counters (r : Read) : Read :=
  mkRead (seq r) (base_mod_probs r) 0 0.

(** The chunks built from the motif hits of one model. *)
Definition make_chunks (id : nat) (context_hits : list nat)
  : list RemoraChunk :=
  (fun hit => mkChunk id hit []) <$> context_hits.

(** [++read->num_modbase_chunks], once per chunk built. *)
Definition count_chunks (n : nat) (r : Read) : Read :=
  mkRead (seq r) (base_mod_probs r) (num_modbase_chunks r + n)
         (num_modbase_chunks_called r).

(** ** The dispatcher: [caller_worker_thread] and [call_current_batch] *)

(** The loop [push_chunks]: move chunks from the front of the request
    queue to the batch until the batch has [batch_size] chunks or the
    queue is empty. *)
Fixpoint push_chunks (batch_size : nat) (batched queue : list RemoraChunk)
  : list RemoraChunk * list RemoraChunk :=
  match queue with
  | [] => (batched, [])
  | chunk :: queue' =>
      if decide (length batched = batch_size) then (batched, queue)
      else push_chunks batch_size (batched ++ [chunk]) queue'
  end.

(** [memcpy(chunk->scores.data(), &results_f32_ptr[i * row_size], ...)]:
    defined only when the source range lies inside the tensor. *)
Definition result_row (results : Tensor) (i : nat) : outcome (list float32) :=
  if decide ((i + 1) * row_size results <= length (tensor_data results))
  then Ok (take (row_size results)
             (drop (i * row_size results) (tensor_data results)))
  else Undefined.

(** The loop "Put results into chunk": chunk [i] receives row [i]. *)
Fixpoint score_chunks (results : Tensor) (i : nat) (batch : list RemoraChunk)
  : outcome (list RemoraChunk) :=
  match batch with
  | [] => Ok []
  | chunk :: batch' =>
      row ← result_row results i;
      scored ← score_chunks results (S i) batch';
      Ok (mkChunk (source_read chunk) (context_hit chunk) row :: scored)
  end.

(** ** The aggregator: [output_worker_thread] *)

(** The inner loop over [chunk->scores]. *)
Fixpoint store_scores (probs : list Z) (first : nat) (i : nat)
    (chunk_scores : list float32) : outcome (list Z) :=
  match chunk_scores with
  | [] => Ok probs
  | s :: rest =>
      v ← quantize s;
      probs' ← vec_store probs (first + i) v;
      store_scores probs' first (S i) rest
  end.

(** First index written for position [result_pos]:
    [m_num_states * result_pos + offset]. *)
Definition chunk_offset (ni : NodeInfo) (read_seq : list ascii)
    (result_pos : nat) : outcome nat :=
  base ← string_at read_seq (Z.of_nat result_pos);
  let base_id := BASE_IDS base in
  if decide (0 <= base_id)%Z
  then of_option (m_base_prob_offsets ni !! Z.to_nat base_id)
  else Undefined.

(** The body of the loop over [m_processed_chunks]. *)
Definition apply_chunk (ni : NodeInfo) (reads : gmap nat Read)
    (chunk : RemoraChunk) : outcome (gmap nat Read) :=
  r ← of_option (reads !! source_read chunk);
  let result_pos := context_hit chunk in
  offset ← chunk_offset ni (seq r) result_pos;
  probs ← store_scores (base_mod_probs r)
            (m_num_states ni * result_pos + offset) 0 (scores chunk);
  Ok (<[source_read chunk :=
          mkRead (seq r) probs (num_modbase_chunks r)
                 (num_modbase_chunks_called r + 1)]> reads).

Fixpoint apply_chunks (ni : NodeInfo) (reads : gmap nat Read)
    (chunks : list RemoraChunk) : outcome (gmap nat Read) :=
  match chunks with
  | [] => Ok reads
  | chunk :: rest => reads' ← apply_chunk ni reads chunk;
                     apply_chunks ni reads' rest
  end.

(** The scan of [m_working_reads]: the reads pushed to the sink, in scan
    order, and the reads kept. *)
Fixpoint scan_working_reads (reads : gmap nat Read) (working : list nat)
  : outcome (list nat * list nat) :=
  match working with
  | [] => Ok ([], [])
  | id :: rest =>
      r ← of_option (reads !! id);
      '(sent, kept) ← scan_working_reads reads rest;
      if decide (num_modbase_chunks_called r = num_modbase_chunks r)
      then Ok (id :: sent, kept)
      else Ok (sent, id :: kept)
  end.

(** ** The stores of a chunk, one by one *)

(** The stores of the inner loop of the aggregator for a chunk whose
    scores quantise to [bytes]: index and value, in program order. *)
Definition writes_of (first : nat) (bytes : list Z) : list (nat * Z) :=
  imap (fun j b => (first + j, b)) bytes.

(** Carrying out stores in a given order. *)
Definition do_writes (ws : list (nat * Z)) (probs : list Z) : list Z :=
  foldl (fun buf w => <[w.1 := w.2]> buf) probs ws.

(** [interleave l1 l2 l]: [l] runs the stores of [l1] and of [l2], each in
    its own order, interleaved in any way; the schedules two threads
    writing at the same time can produce. *)
Inductive interleave {A : Type} : list A -> list A -> list A -> Prop :=
  | interleave_nil : interleave [] [] []
  | interleave_left x l1 l2 l :
      interleave l1 l2 l -> interleave (x :: l1) l2 (x :: l)
  | interleave_right x l1 l2 l :
      interleave l1 l2 l -> interleave l1 (x :: l2) (x :: l).

(** ** Small instances used in examples *)

(** The node's metadata when no model is loaded: four states, one per
    canonical base. *)
Definition plain_info : NodeInfo := mkNodeInfo 4 [0; 1; 2; 3] [].

(** A 5mC model in CG context. *)
Definition params_5mC : BaseModParams :=
  mkBaseModParams ["C"; "G"]%char 0 ["m"]%char ["5mC"%string] 1.

(** The node's metadata with the 5mC model loaded: five states, the two
    classes of C at offsets 1 and 2. *)
Definition info_5mC : NodeInfo :=
  mkNodeInfo 5 [0; 1; 3; 4] [(["C"; "G"]%char, 0)].

(* ===================================================================== *)
(** * Part VI: the node as a transition system *)
(* ===================================================================== *)

(** Construction parameters of the node and the one capability of a
    model caller that drives the control flow. *)
Record Config : Type := mkConfig {
  m_batch_size : nat;
  num_callers : nat;                    (* [m_callers.size()] *)
  m_num_devices : nat;
  num_runners : nat;                    (* [remora_threads * num_devices] *)
  max_reads : nat;
  info : NodeInfo;                      (* as left by [init_modbase_info] *)
  get_motif_hits : nat -> list ascii -> list nat
}.

(** [m_callers.size() / m_num_devices] *)
Definition num_models (cfg : Config) : nat :=
  num_callers cfg / m_num_devices cfg.

(** [const size_t max_chunks_in = m_batch_size * 5] *)
Definition max_chunks_in (cfg : Config) : nat := m_batch_size cfg * 5.

(** [constexpr auto FORCE_TIMEOUT = 100ms] *)
Definition FORCE_TIMEOUT : Z := 100.

(** Control points of [runner_worker_thread]. *)
Inductive runner_pc : Type :=
  | RPop                                (* at [m_work_queue.try_pop] *)
  | RHold (id : nat)                    (* at [m_chunk_queues_cv.wait] *)
  | RGen (id : nat) (caller_id : nat)   (* at the head of the model loop *)
  | RExit.                              (* returned *)

(** Control points of [caller_worker_thread]. *)
Inductive caller_pc : Type :=
  | CWait                               (* at [m_chunks_added_cv.wait_until] *)
  | CIdle                               (* timed out, lock released *)
  | CDrain                              (* saw termination, lock released *)
  | CDec                                (* before [--m_num_active_model_callers] *)
  | CTaken                              (* chunks taken, lock released *)
  | CExit.                              (* returned *)

(** Control points of [output_worker_thread]. *)
Inductive output_pc : Type :=
  | OWait                               (* at [m_processed_chunks_cv.wait] *)
  | OScan                               (* before the scan of the working reads *)
  | OExit.                              (* returned *)

#[global] Instance runner_pc_eq_dec : EqDecision runner_pc.
Proof. solve_decision. Defined.
#[global] Instance caller_pc_eq_dec : EqDecision caller_pc.
Proof. solve_decision. Defined.
#[global] Instance output_pc_eq_dec : EqDecision output_pc.
Proof. solve_decision. Defined.

(** A caller thread: its control point and its local
    [last_chunk_reserve_time]. *)
Record Caller : Type := mkCaller {
  c_pc : caller_pc;
  last_chunk_reserve_time : Z
}.

(** The state shared by the worker threads, the sink as the node sees it,
    the clock, and the control points of the threads. *)
Record Node : Type := mkNode {
  reads : gmap nat Read;   (* the shared [Read] objects *)
  m_work_queue : AsyncQueue.t nat;   (* input channel of the node *)
  m_chunk_queues : list (list RemoraChunk);   (* one request queue per model *)
  m_batched_chunks : list (list RemoraChunk);   (* one batch per caller *)
  m_processed_chunks : list RemoraChunk;   (* scored chunks awaiting the aggregator *)
  m_working_reads : list nat;   (* reads with chunks outstanding *)
  sink_messages : list nat;   (* arguments of [m_sink.push_message], in call order *)
  sink_terminated : bool;   (* [m_sink.terminate()] has been called *)
  m_num_active_model_runners : Z;
  m_num_active_model_callers : Z;
  m_terminate_callers : bool;
  m_terminate_output : bool;
  now : Z;   (* [std::chrono::system_clock::now()], in milliseconds *)
  runners : list runner_pc;   (* where each [runner_worker_thread] stands *)
  callers : list Caller;   (* where each [caller_worker_thread] stands *)
  output : output_pc   (* where [output_worker_thread] stands *)
}.

Definition set_reads (v : gmap nat Read) (st : Node) : Node :=
  mkNode v (m_work_queue st) (m_chunk_queues st) (m_batched_chunks st)
    (m_processed_chunks st) (m_working_reads st) (sink_messages st)
    (sink_terminated st) (m_num_active_model_runners st)
    (m_num_active_model_callers st) (m_terminate_callers st)
    (m_terminate_output st) (now st) (runners st) (callers st) (output st).

Definition set_m_work_queue (v : AsyncQueue.t nat) (st : Node) : Node :=
  mkNode (reads st) v (m_chunk_queues st) (m_batched_chunks st)
    (m_processed_chunks st) (m_working_reads st) (sink_messages st)
    (sink_terminated st) (m_num_active_model_runners st)
    (m_num_active_model_callers st) (m_terminate_callers st)
    (m_terminate_output st) (now st) (runners st) (callers st) (output st).

Definition set_m_chunk_queues (v : list (list RemoraChunk)) (st : Node) : Node :=
  mkNode (reads st) (m_work_queue st) v (m_batched_chunks st)
    (m_processed_chunks st) (m_working_reads st) (sink_messages st)
    (sink_terminated st) (m_num_active_model_runners st)
    (m_num_active_model_callers st) (m_terminate_callers st)
    (m_terminate_output st) (now st) (runners st) (callers st) (output st).

Definition set_m_batched_chunks (v : list (list RemoraChunk)) (st : Node) : Node :=
  mkNode (reads st) (m_work_queue st) (m_chunk_queues st) v
    (m_processed_chunks st) (m_working_reads st) (sink_messages st)
    (sink_terminated st) (m_num_active_model_runners st)
    (m_num_active_model_callers st) (m_terminate_callers st)
    (m_terminate_output st) (now st) (runners st) (callers st) (output st).

Definition set_m_processed_chunks (v : list RemoraChunk) (st : Node) : Node :=
  mkNode (reads st) (m_work_queue st) (m_chunk_queues st)
    (m_batched_chunks st) v (m_working_reads st) (sink_messages st)
    (sink_terminated st) (m_num_active_model_runners st)
    (m_num_active_model_callers st) (m_terminate_callers st)
    (m_terminate_output st) (now st) (runners st) (callers st) (output st).

Definition set_m_working_reads (v : list nat) (st : Node) : Node :=
  mkNode (reads st) (m_work_queue st) (m_chunk_queues st)
    (m_batched_chunks st) (m_processed_chunks st) v (sink_messages st)
    (sink_terminated st) (m_num_active_model_runners st)
    (m_num_active_model_callers st) (m_terminate_callers st)
    (m_terminate_output st) (now st) (runners st) (callers st) (output st).

Definition set_sink_messages (v : list nat) (st : Node) : Node :=
  mkNode (reads st) (m_work_queue st) (m_chunk_queues st)
    (m_batched_chunks st) (m_processed_chunks st) (m_working_reads st) v
    (sink_terminated st) (m_num_active_model_runners st)
    (m_num_active_model_callers st) (m_terminate_callers st)
    (m_terminate_output st) (now st) (runners st) (callers st) (output st).

Definition set_sink_terminated (v : bool) (st : Node) : Node :=
  mkNode (reads st) (m_work_queue st) (m_chunk_queues st)
    (m_batched_chunks st) (m_processed_chunks st) (m_working_reads st)
    (sink_messages st) v (m_num_active_model_runners st)
    (m_num_active_model_callers st) (m_terminate_callers st)
    (m_terminate_output st) (now st) (runners st) (callers st) (output st).

Definition set_m_num_active_model_runners (v : Z) (st : Node) : Node :=
  mkNode (reads st) (m_work_queue st) (m_chunk_queues st)
    (m_batched_chunks st) (m_processed_chunks st) (m_working_reads st)
    (sink_messages st) (sink_terminated st) v
    (m_num_active_model_callers st) (m_terminate_callers st)
    (m_terminate_output st) (now st) (runners st) (callers st) (output st).

Definition set_m_num_active_model_callers (v : Z) (st : Node) : Node :=
  mkNode (reads st) (m_work_queue st) (m_chunk_queues st)
    (m_batched_chunks st) (m_processed_chunks st) (m_working_reads st)
    (sink_messages st) (sink_terminated st) (m_num_active_model_runners st)
    v (m_terminate_callers st) (m_terminate_output st) (now st) (runners st)
    (callers st) (output st).

Definition set_m_terminate_callers (v : bool) (st : Node) : Node :=
  mkNode (reads st) (m_work_queue st) (m_chunk_queues st)
    (m_batched_chunks st) (m_processed_chunks st) (m_working_reads st)
    (sink_messages st) (sink_terminated st) (m_num_active_model_runners st)
    (m_num_active_model_callers st) v (m_terminate_output st) (now st)
    (runners st) (callers st) (output st).

Definition set_m_terminate_output (v : bool) (st : Node) : Node :=
  mkNode (reads st) (m_work_queue st) (m_chunk_queues st)
    (m_batched_chunks st) (m_processed_chunks st) (m_working_reads st)
    (sink_messages st) (sink_terminated st) (m_num_active_model_runners st)
    (m_num_active_model_callers st) (m_terminate_callers st) v (now st)
    (runners st) (callers st) (output st).

Definition set_now (v : Z) (st : Node) : Node :=
  mkNode (reads st) (m_work_queue st) (m_chunk_queues st)
    (m_batched_chunks st) (m_processed_chunks st) (m_working_reads st)
    (sink_messages st) (sink_terminated st) (m_num_active_model_runners st)
    (m_num_active_model_callers st) (m_terminate_callers st)
    (m_terminate_output st) v (runners st) (callers st) (output st).

Definition set_runners (v : list runner_pc) (st : Node) : Node :=
  mkNode (reads st) (m_work_queue st) (m_chunk_queues st)
    (m_batched_chunks st) (m_processed_chunks st) (m_working_reads st)
    (sink_messages st) (sink_terminated st) (m_num_active_model_runners st)
    (m_num_active_model_callers st) (m_terminate_callers st)
    (m_terminate_output st) (now st) v (callers st) (output st).

Definition set_callers (v : list Caller) (st : Node) : Node :=
  mkNode (reads st) (m_work_queue st) (m_chunk_queues st)
    (m_batched_chunks st) (m_processed_chunks st) (m_working_reads st)
    (sink_messages st) (sink_terminated st) (m_num_active_model_runners st)
    (m_num_active_model_callers st) (m_terminate_callers st)
    (m_terminate_output st) (now st) (runners st) v (output st).

Definition set_output (v : output_pc) (st : Node) : Node :=
  mkNode (reads st) (m_work_queue st) (m_chunk_queues st)
    (m_batched_chunks st) (m_processed_chunks st) (m_working_reads st)
    (sink_messages st) (sink_terminated st) (m_num_active_model_runners st)
    (m_num_active_model_callers st) (m_terminate_callers st)
    (m_terminate_output st) (now st) (runners st) (callers st) v.

(** The node once its constructor has returned: every queue empty, every
    thread started and counted. *)
Definition initial (cfg : Config) : Node :=
  mkNode ∅ (AsyncQueue.create (max_reads cfg))
    (replicate (num_models cfg) []) (replicate (num_callers cfg) [])
    [] [] [] false
    (Z.of_nat (num_runners cfg)) (Z.of_nat (num_callers cfg)) false false
    0%Z
    (replicate (num_runners cfg) RPop)
    (replicate (num_callers cfg) (mkCaller CWait 0))
    OWait.

(** ** Transitions of a runner *)

(** [chunk_queues_available]: every request queue is below
    [max_chunks_in]. *)
Definition chunk_queues_available (cfg : Config) (st : Node) : bool :=
  forallb (fun queue => bool_decide (length queue < max_chunks_in cfg))
          (m_chunk_queues st).

(** From the return of the wait on [m_chunk_queues_cv] to the head of the
    model loop: the buffer is initialised and both counters are cleared.
    All of it is local to the read, which no other thread can reach yet.
    The state is returned also when the initialisation throws. *)
Definition runner_begin (cfg : Config) (id : nat) (st : Node)
  : Node * outcome () :=
  match reads st !! id with
  | None => (st, Undefined)
  | Some r =>
      let '(r1, res) := init_base_mod_probs (info cfg) r in
      match res with
      | Ok _ => (set_reads (<[id := reset_counters r1]> (reads st)) st, Ok ())
      | _ => (set_reads (<[id := r1]> (reads st)) st, res)
      end
  end.

(** One pass of the model loop: build the chunks of model [caller_id],
    count them, append them to that model's request queue. *)
Definition runner_enqueue (cfg : Config) (id caller_id : nat) (st : Node)
  : outcome Node :=
  r ← of_option (reads st !! id);
  chunk_queue ← of_option (m_chunk_queues st !! caller_id);
  let reads_to_enqueue :=
    make_chunks id (get_motif_hits cfg caller_id (seq r)) in
  Ok (set_m_chunk_queues
        (<[caller_id := chunk_queue ++ reads_to_enqueue]> (m_chunk_queues st))
        (set_reads
           (<[id := count_chunks (length reads_to_enqueue) r]> (reads st))
           st)).

(** After the model loop: into the working list, or straight to the
    sink when no chunk was built. *)
Definition runner_finish (id : nat) (st : Node) : outcome Node :=
  r ← of_option (reads st !! id);
  if decide (num_modbase_chunks r ≠ 0)
  then Ok (set_m_working_reads (m_working_reads st ++ [id]) st)
  else Ok (set_sink_messages (sink_messages st ++ [id]) st).

(** After the outer loop: [--m_num_active_model_runners] and, for the
    last runner, [m_terminate_callers = true]. *)
Definition runner_leave (st : Node) : Node :=
  let num_remaining_runners := (m_num_active_model_runners st - 1)%Z in
  let st1 := set_m_num_active_model_runners num_remaining_runners st in
  if decide (num_remaining_runners = 0%Z)
  then set_m_terminate_callers true st1
  else st1.

(** The model loop in one piece. *)
Fixpoint runner_enqueue_from (cfg : Config) (id : nat) (fuel caller_id : nat)
    (st : Node) : outcome Node :=
  match fuel with
  | 0 => Ok st
  | S fuel' =>
      st1 ← runner_enqueue cfg id caller_id st;
      runner_enqueue_from cfg id fuel' (S caller_id) st1
  end.

(** Everything [runner_worker_thread] does with one read once the request
    queues have room: the state it leaves and how it ended. *)
Definition runner_handle_read (cfg : Config) (id : nat) (st : Node)
  : Node * outcome () :=
  let '(st1, res) := runner_begin cfg id st in
  match res with
  | Ok _ =>
      match
        st2 ← runner_enqueue_from cfg id (num_models cfg) 0 st1;
        runner_finish id st2
      with
      | Ok st3 => (st3, Ok ())
      | Throw msg => (st1, Throw msg)
      | Undefined => (st1, Undefined)
      end
  | _ => (st1, res)
  end.

(** ** Transitions of a caller *)

(** [call_current_batch], given the tensor returned by [call_chunks]. *)
Definition call_current_batch (results : Tensor) (caller_id : nat)
    (st : Node) : outcome Node :=
  batch ← of_option (m_batched_chunks st !! caller_id);
  scored ← score_chunks results 0 batch;
  Ok (set_m_batched_chunks (<[caller_id := []]> (m_batched_chunks st))
        (set_m_processed_chunks (m_processed_chunks st ++ scored) st)).

(** [--m_num_active_model_callers] and, for the last caller,
    [m_terminate_output = true]. *)
Definition caller_leave (st : Node) : Node :=
  let num_remaining_callers := (m_num_active_model_callers st - 1)%Z in
  let st1 := set_m_num_active_model_callers num_remaining_callers st in
  if decide (num_remaining_callers = 0%Z)
  then set_m_terminate_output true st1
  else st1.

(** The request queue a caller serves:
    [m_chunk_queues[caller_id % num_models]]. *)
Definition queue_of (cfg : Config) (caller_id : nat) : nat :=
  caller_id `mod` num_models cfg.

(** The critical section that fills the batch.  [last_chunk_reserve_time]
    is assigned once per chunk taken, so it ends at the time of the last
    one and keeps its value when none is taken. *)
Definition caller_take (cfg : Config) (caller_id : nat) (st : Node)
  : outcome Node :=
  c ← of_option (callers st !! caller_id);
  chunk_queue ← of_option
    (m_chunk_queues st !! queue_of cfg caller_id);
  batched_chunks ← of_option (m_batched_chunks st !! caller_id);
  let '(batched', queue') :=
    push_chunks (m_batch_size cfg) batched_chunks chunk_queue in
  let last :=
    if decide (length batched' = length batched_chunks)
    then last_chunk_reserve_time c else now st in
  Ok (set_callers (<[caller_id := mkCaller CTaken last]> (callers st))
        (set_m_batched_chunks (<[caller_id := batched']> (m_batched_chunks st))
           (set_m_chunk_queues
              (<[queue_of cfg caller_id := queue']> (m_chunk_queues st))
              st))).

(** Move a caller to another control point. *)
Definition caller_goto (caller_id : nat) (pc : caller_pc) (st : Node) : Node :=
  set_callers
    (alter (fun c => mkCaller pc (last_chunk_reserve_time c)) caller_id
           (callers st))
    st.

(** The predicate of the timed wait:
    [!chunk_queue.empty() || m_terminate_callers]. *)
Definition caller_wake (chunk_queue : list RemoraChunk) (st : Node) : bool :=
  negb (bool_decide (length chunk_queue = 0)) || m_terminate_callers st.

(** ** Transitions of the aggregator *)

Definition output_apply (cfg : Config) (st : Node) : outcome Node :=
  reads' ← apply_chunks (info cfg) (reads st) (m_processed_chunks st);
  Ok (set_output OScan (set_m_processed_chunks [] (set_reads reads' st))).

Definition output_scan (st : Node) : outcome Node :=
  '(sent, kept) ← scan_working_reads (reads st) (m_working_reads st);
  Ok (set_output OWait
        (set_m_working_reads kept
           (set_sink_messages (sink_messages st ++ sent) st))).

Definition output_terminate (st : Node) : Node :=
  set_output OExit (set_sink_terminated true st).

(** ** The transition relation

    One transition per critical section or thread-local stretch of a
    worker, plus the moves of the environment: the upstream stage pushing
    a read or terminating the input channel, and time passing.  A call
    whose outcome is [Undefined] has no transition. *)
Inductive step (cfg : Config) (st : Node) : Node -> Prop :=
  (* upstream: [push_message] of a read not yet known to the node *)
  | env_push id r q' :
      reads st !! id = None ->
      AsyncQueue.try_push id (m_work_queue st) = (true, q') ->
      step cfg st (set_m_work_queue q' (set_reads (<[id := r]> (reads st)) st))
  (* upstream: [terminate()] *)
  | env_terminate :
      step cfg st
        (set_m_work_queue (AsyncQueue.terminate (m_work_queue st)) st)
  (* the clock advances *)
  | env_tick t :
      (now st <= t)%Z ->
      step cfg st (set_now t st)
  (* runner: [m_work_queue.try_pop(message)] returns true *)
  | r_pop i id q' :
      runners st !! i = Some RPop ->
      AsyncQueue.try_pop (m_work_queue st) = AsyncQueue.Popped id q' ->
      step cfg st
        (set_runners (<[i := RHold id]> (runners st)) (set_m_work_queue q' st))
  (* runner: [try_pop] returns false, the thread leaves *)
  | r_leave i :
      runners st !! i = Some RPop ->
      AsyncQueue.try_pop (m_work_queue st) = AsyncQueue.PopFailed ->
      step cfg st (set_runners (<[i := RExit]> (runners st)) (runner_leave st))
  (* runner: the wait for room returns, the read is initialised *)
  | r_begin i id st1 :
      runners st !! i = Some (RHold id) ->
      chunk_queues_available cfg st = true ->
      runner_begin cfg id st = (st1, Ok ()) ->
      step cfg st (set_runners (<[i := RGen id 0]> (runners st)) st1)
  (* runner: one pass of the model loop *)
  | r_enqueue i id k st1 :
      runners st !! i = Some (RGen id k) ->
      k < num_models cfg ->
      runner_enqueue cfg id k st = Ok st1 ->
      step cfg st (set_runners (<[i := RGen id (S k)]> (runners st)) st1)
  (* runner: the model loop is over *)
  | r_finish i id k st1 :
      runners st !! i = Some (RGen id k) ->
      ¬ k < num_models cfg ->
      runner_finish id st = Ok st1 ->
      step cfg st (set_runners (<[i := RPop]> (runners st)) st1)
  (* caller: [wait_until] returns false *)
  | c_timeout i c chunk_queue :
      callers st !! i = Some c -> c_pc c = CWait ->
      m_chunk_queues st !! queue_of cfg i = Some chunk_queue ->
      caller_wake chunk_queue st = false ->
      (last_chunk_reserve_time c + FORCE_TIMEOUT <= now st)%Z ->
      step cfg st (caller_goto i CIdle st)
  (* caller: woken, [chunk_queue.empty() && m_terminate_callers] *)
  | c_drain i c chunk_queue :
      callers st !! i = Some c -> c_pc c = CWait ->
      m_chunk_queues st !! queue_of cfg i = Some chunk_queue ->
      caller_wake chunk_queue st = true ->
      chunk_queue = [] ∧ m_terminate_callers st = true ->
      step cfg st (caller_goto i CDrain st)
  (* caller: woken, chunks are moved into the batch *)
  | c_take i c chunk_queue st1 :
      callers st !! i = Some c -> c_pc c = CWait ->
      m_chunk_queues st !! queue_of cfg i = Some chunk_queue ->
      caller_wake chunk_queue st = true ->
      ¬ (chunk_queue = [] ∧ m_terminate_callers st = true) ->
      caller_take cfg i st = Ok st1 ->
      step cfg st st1
  (* caller: after a timeout, a held batch is scored *)
  | c_idle_flush i c batch results st1 :
      callers st !! i = Some c -> c_pc c = CIdle ->
      m_batched_chunks st !! i = Some batch -> batch ≠ [] ->
      call_current_batch results i st = Ok st1 ->
      step cfg st (caller_goto i CWait st1)
  | c_idle_skip i c :
      callers st !! i = Some c -> c_pc c = CIdle ->
      m_batched_chunks st !! i = Some [] ->
      step cfg st (caller_goto i CWait st)
  (* caller: told to terminate, a held batch is scored *)
  | c_drain_flush i c batch results st1 :
      callers st !! i = Some c -> c_pc c = CDrain ->
      m_batched_chunks st !! i = Some batch -> batch ≠ [] ->
      call_current_batch results i st = Ok st1 ->
      step cfg st (caller_goto i CDec st1)
  | c_drain_skip i c :
      callers st !! i = Some c -> c_pc c = CDrain ->
      m_batched_chunks st !! i = Some [] ->
      step cfg st (caller_goto i CDec st)
  (* caller: the active count is decremented, the thread leaves *)
  | c_leave i c :
      callers st !! i = Some c -> c_pc c = CDec ->
      step cfg st (caller_goto i CExit (caller_leave st))
  (* caller: the batch is full and is scored *)
  | c_full i c batch results st1 :
      callers st !! i = Some c -> c_pc c = CTaken ->
      m_batched_chunks st !! i = Some batch ->
      length batch = m_batch_size cfg ->
      call_current_batch results i st = Ok st1 ->
      step cfg st (caller_goto i CWait st1)
  | c_not_full i c batch :
      callers st !! i = Some c -> c_pc c = CTaken ->
      m_batched_chunks st !! i = Some batch ->
      length batch ≠ m_batch_size cfg ->
      step cfg st (caller_goto i CWait st)
  (* aggregator: scored chunks are written into their reads *)
  | o_apply st1 :
      output st = OWait ->
      m_processed_chunks st ≠ [] ->
      output_apply cfg st = Ok st1 ->
      step cfg st st1
  (* aggregator: nothing pending and every caller gone *)
  | o_terminate :
      output st = OWait ->
      m_terminate_output st = true ->
      m_processed_chunks st = [] ->
      step cfg st (output_terminate st)
  (* aggregator: completed reads are moved to the sink *)
  | o_scan st1 :
      output st = OScan ->
      output_scan st = Ok st1 ->
      step cfg st st1.

(** The states the node can be in. *)
Inductive reachable (cfg : Config) : Node -> Prop :=
  | reach_initial : reachable cfg (initial cfg)
  | reach_step st st' :
      reachable cfg st -> step cfg st st' -> reachable cfg st'.

(** Every worker thread of the node has returned. *)
Definition stopped (st : Node) : Prop :=
  Forall (fun pc => pc = RExit) (runners st)
  ∧ Forall (fun c => c_pc c = CExit) (callers st)
  ∧ output st = OExit.

(** ** Invariants of the shutdown cascade *)

(** How many elements of a list satisfy a test. *)
Fixpoint count_where {A} (f : A -> bool) (l : list A) : nat :=
  match l with
  | [] => 0
  | x :: l' => (if f x then 1 else 0) + count_where f l'
  end.

Definition runner_active (pc : runner_pc) : bool :=
  negb (bool_decide (pc = RExit)).

Definition caller_active (c : Caller) : bool :=
  negb (bool_decide (c_pc c = CExit)).

(** The caller has seen the termination flag with its queue empty. *)
Definition draining (pc : caller_pc) : Prop :=
  pc = CDrain ∨ pc = CDec ∨ pc = CExit.

(** The caller is past the flush of its last batch. *)
Definition flushed (pc : caller_pc) : Prop :=
  pc = CDec ∨ pc = CExit.

Definition shutdown_inv (cfg : Config) (st : Node) : Prop :=
  m_num_active_model_runners st
  = Z.of_nat (count_where runner_active (runners st))
  ∧ m_num_active_model_callers st
    = Z.of_nat (count_where caller_active (callers st))
  ∧ (m_terminate_callers st = true -> m_num_active_model_runners st = 0%Z)
  ∧ (m_terminate_output st = true -> m_num_active_model_callers st = 0%Z)
  ∧ (∀ i c, callers st !! i = Some c -> draining (c_pc c) ->
       m_terminate_callers st = true
       ∧ m_chunk_queues st !! queue_of cfg i = Some [])
  ∧ (∀ i c, callers st !! i = Some c -> flushed (c_pc c) ->
       m_batched_chunks st !! i = Some [])
  ∧ (sink_terminated st = true ->
       output st = OExit ∧ m_terminate_output st = true
       ∧ m_processed_chunks st = [])
  ∧ length (callers st) = num_callers cfg
  ∧ length (m_batched_chunks st) = num_callers cfg
  ∧ length (m_chunk_queues st) = num_models cfg.

(** ** Invariants of the backpressure *)

(** The runner has been let past the wait for room and has not yet
    appended its chunks to request queue [k]. *)
Definition runner_pending (k : nat) (pc : runner_pc) : bool :=
  match pc with
  | RGen _ caller_id => bool_decide (caller_id <= k)
  | _ => false
  end.

(** No read known to the node yields more than [H] chunks for one
    model. *)
Definition hits_bounded (cfg : Config) (H : nat) (st : Node) : Prop :=
  ∀ id r k, reads st !! id = Some r ->
            length (get_motif_hits cfg k (seq r)) <= H.

Definition backpressure_inv (cfg : Config) (H : nat) (st : Node) : Prop :=
  length (runners st) = num_runners cfg
  ∧ length (m_chunk_queues st) = num_models cfg
  ∧ ∀ k chunk_queue,
      m_chunk_queues st !! k = Some chunk_queue ->
      length chunk_queue + H * count_where (runner_pending k) (runners st)
      <= Nat.pred (max_chunks_in cfg) + H * num_runners cfg.

(** ** Invariants of read ownership *)

(** The read a runner is working on. *)
Definition held_read (pc : runner_pc) : option nat :=
  match pc with
  | RHold id | RGen id _ => Some id
  | _ => None
  end.

(** Where the node keeps pointers to reads: the input channel, the
    runners, the working list and what it has handed to the sink. *)
Definition owned (st : Node) : list nat :=
  AsyncQueue.items (m_work_queue st)
  ++ omap held_read (runners st)
  ++ m_working_reads st
  ++ sink_messages st.

(** The chunks a read with sequence [s] yields for the models below
    [k], and for all models. *)
Fixpoint issued_upto (cfg : Config) (k : nat) (s : list ascii) : nat :=
  match k with
  | 0 => 0
  | S k' => issued_upto cfg k' s + length (get_motif_hits cfg k' s)
  end.

Definition total_chunks (cfg : Config) (s : list ascii) : nat :=
  issued_upto cfg (num_models cfg) s.

Definition ownership_inv (cfg : Config) (st : Node) : Prop :=
  NoDup (owned st)
  ∧ (∀ id, id ∈ owned st -> is_Some (reads st !! id))
  ∧ (∀ i id k r,
       runners st !! i = Some (RGen id k) -> reads st !! id = Some r ->
       k <= num_models cfg
       ∧ num_modbase_chunks r = issued_upto cfg k (seq r))
  ∧ (∀ id r,
       id ∈ m_working_reads st -> reads st !! id = Some r ->
       num_modbase_chunks r ≠ 0
       ∧ num_modbase_chunks r = total_chunks cfg (seq r)).

(** ** Invariants of chunk accounting *)

(** Every chunk that has been built and not yet applied: on a request
    queue, in a batch, or scored and awaiting the aggregator. *)
Definition in_flight (st : Node) : list RemoraChunk :=
  concat (m_chunk_queues st) ++ concat (m_batched_chunks st)
  ++ m_processed_chunks st.

(** How many chunks of a list belong to read [id]. *)
Definition chunks_of (id : nat) (l : list RemoraChunk) : nat :=
  count_where (fun c => bool_decide (source_read c = id)) l.

(** The read has had its counters cleared by a runner: it is in the
    model loop of a runner, on the working list, or with the sink. *)
Definition begun (st : Node) (id : nat) : Prop :=
  (∃ i k, runners st !! i = Some (RGen id k))
  ∨ id ∈ m_working_reads st
  ∨ id ∈ sink_messages st.

Definition accounting_inv (cfg : Config) (st : Node) : Prop :=
  (∀ id r, begun st id -> reads st !! id = Some r ->
     num_modbase_chunks_called r + chunks_of id (in_flight st)
     = num_modbase_chunks r)
  ∧ (∀ id, ¬ begun st id -> chunks_of id (in_flight st) = 0)
  ∧ (∀ id r, id ∈ sink_messages st -> reads st !! id = Some r ->
       num_modbase_chunks_called r = num_modbase_chunks r
       ∧ num_modbase_chunks r = total_chunks cfg (seq r)).

(** ** Running a schedule

    A schedule names the transitions to take, in order; [exec] takes one
    of them when its guard holds, so that concrete runs of the node can be
    computed. *)
Inductive label : Type :=
  | EnvPush (id : nat) (r : Read)
  | EnvTerminate
  | EnvTick (t : Z)
  | RPopL (i : nat)
  | RLeave (i : nat)
  | RBegin (i : nat)
  | REnqueue (i : nat)
  | RFinish (i : nat)
  | CTimeout (i : nat)
  | CDrainL (i : nat)
  | CTake (i : nat)
  | CIdleFlush (i : nat) (results : Tensor)
  | CIdleSkip (i : nat)
  | CDrainFlush (i : nat) (results : Tensor)
  | CDrainSkip (i : nat)
  | CLeave (i : nat)
  | CFull (i : nat) (results : Tensor)
  | CNotFull (i : nat)
  | OApply
  | OTerminate
  | OScanL.

Definition guard (b : bool) (st : Node) : option Node :=
  if b then Some st else None.

Definition to_option {A} (m : outcome A) : option A :=
  match m with
  | Ok a => Some a
  | _ => None
  end.

Definition is_nil {A} (l : list A) : bool :=
  match l with
  | [] => true
  | _ => false
  end.

(** The caller [i] when it stands at [pc], with the request queue it
    serves and the batch it holds. *)
Definition caller_at (cfg : Config) (i : nat) (pc : caller_pc) (st : Node)
  : option (Caller * list RemoraChunk * list RemoraChunk) :=
  c ← callers st !! i;
  chunk_queue ← m_chunk_queues st !! queue_of cfg i;
  batch ← m_batched_chunks st !! i;
  if decide (c_pc c = pc) then Some (c, chunk_queue, batch) else None.

Definition exec (cfg : Config) (l : label) (st : Node) : option Node :=
  match l with
  | EnvPush id r =>
      match reads st !! id, AsyncQueue.try_push id (m_work_queue st) with
      | None, (true, q') =>
          Some (set_m_work_queue q' (set_reads (<[id := r]> (reads st)) st))
      | _, _ => None
      end
  | EnvTerminate =>
      Some (set_m_work_queue (AsyncQueue.terminate (m_work_queue st)) st)
  | EnvTick t =>
      guard (bool_decide (now st <= t)%Z) (set_now t st)
  | RPopL i =>
      match runners st !! i, AsyncQueue.try_pop (m_work_queue st) with
      | Some RPop, AsyncQueue.Popped id q' =>
          Some (set_runners (<[i := RHold id]> (runners st))
                  (set_m_work_queue q' st))
      | _, _ => None
      end
  | RLeave i =>
      match runners st !! i, AsyncQueue.try_pop (m_work_queue st) with
      | Some RPop, AsyncQueue.PopFailed =>
          Some (set_runners (<[i := RExit]> (runners st)) (runner_leave st))
      | _, _ => None
      end
  | RBegin i =>
      match runners st !! i with
      | Some (RHold id) =>
          match chunk_queues_available cfg st, runner_begin cfg id st with
          | true, (st1, Ok _) =>
              Some (set_runners (<[i := RGen id 0]> (runners st)) st1)
          | _, _ => None
          end
      | _ => None
      end
  | REnqueue i =>
      match runners st !! i with
      | Some (RGen id k) =>
          if decide (k < num_models cfg) then
            st1 ← to_option (runner_enqueue cfg id k st);
            Some (set_runners (<[i := RGen id (S k)]> (runners st)) st1)
          else None
      | _ => None
      end
  | RFinish i =>
      match runners st !! i with
      | Some (RGen id k) =>
          if decide (k < num_models cfg) then None
          else
            st1 ← to_option (runner_finish id st);
            Some (set_runners (<[i := RPop]> (runners st)) st1)
      | _ => None
      end
  | CTimeout i =>
      '(c, chunk_queue, _) ← caller_at cfg i CWait st;
      guard (negb (caller_wake chunk_queue st)
             && bool_decide (last_chunk_reserve_time c + FORCE_TIMEOUT
                             <= now st)%Z)
            (caller_goto i CIdle st)
  | CDrainL i =>
      '(c, chunk_queue, _) ← caller_at cfg i CWait st;
      guard (caller_wake chunk_queue st
             && (is_nil chunk_queue && m_terminate_callers st))
            (caller_goto i CDrain st)
  | CTake i =>
      '(c, chunk_queue, _) ← caller_at cfg i CWait st;
      if caller_wake chunk_queue st
         && negb (is_nil chunk_queue && m_terminate_callers st)
      then to_option (caller_take cfg i st)
      else None
  | CIdleFlush i results =>
      '(c, _, batch) ← caller_at cfg i CIdle st;
      if is_nil batch then None
      else st1 ← to_option (call_current_batch results i st);
           Some (caller_goto i CWait st1)
  | CIdleSkip i =>
      '(c, _, batch) ← caller_at cfg i CIdle st;
      guard (is_nil batch) (caller_goto i CWait st)
  | CDrainFlush i results =>
      '(c, _, batch) ← caller_at cfg i CDrain st;
      if is_nil batch then None
      else st1 ← to_option (call_current_batch results i st);
           Some (caller_goto i CDec st1)
  | CDrainSkip i =>
      '(c, _, batch) ← caller_at cfg i CDrain st;
      guard (is_nil batch) (caller_goto i CDec st)
  | CLeave i =>
      '(c, _, _) ← caller_at cfg i CDec st;
      Some (caller_goto i CExit (caller_leave st))
  | CFull i results =>
      '(c, _, batch) ← caller_at cfg i CTaken st;
      if decide (length batch = m_batch_size cfg) then
        st1 ← to_option (call_current_batch results i st);
        Some (caller_goto i CWait st1)
      else None
  | CNotFull i =>
      '(c, _, batch) ← caller_at cfg i CTaken st;
      if decide (length batch = m_batch_size cfg) then None
      else Some (caller_goto i CWait st)
  | OApply =>
      match output st, m_processed_chunks st with
      | OWait, _ :: _ => to_option (output_apply cfg st)
      | _, _ => None
      end
  | OTerminate =>
      match output st, m_processed_chunks st with
      | OWait, [] => guard (m_terminate_output st) (output_terminate st)
      | _, _ => None
      end
  | OScanL =>
      match output st with
      | OScan => to_option (output_scan st)
      | _ => None
      end
  end.

(** A whole schedule, from left to right. *)
Fixpoint exec_all (cfg : Config) (ls : list label) (st : Node) : option Node :=
  match ls with
  | [] => Some st
  | l :: ls' => st1 ← exec cfg l st; exec_all cfg ls' st1
  end.

(** ** A small node used in examples *)

(** The positions of a C followed by a G, counted from [i]: the motif
    search of the 5mC model. *)
Fixpoint cpg_hits (i : nat) (s : list ascii) : list nat :=
  match s with
  | [] => []
  | c :: rest =>
      if bool_decide (c = "C"%char) && bool_decide (head rest = Some "G"%char)
      then i :: cpg_hits (S i) rest
      else cpg_hits (S i) rest
  end.

(** One device, one runner, one 5mC caller, batches of [batch_size]
    chunks, room for four reads on the input. *)
Definition small_node (batch_size : nat) : Config :=
  mkConfig batch_size 1 1 1 4 info_5mC (fun _ s => cpg_hits 0 s).

(** A read as it arrives from upstream. *)
Definition fresh_read (s : list ascii) : Read := mkRead s [] 0 0.

(** A schedule of [small_node 1] in which the only read, "CG", is
    completed by the aggregator before the runner has put it on the
    working list, and the input is terminated right afterwards. *)
Definition lost_read_schedule : list label :=
  [ EnvPush 0 (fresh_read ["C"; "G"]%char);
    RPopL 0; RBegin 0; REnqueue 0;
    CTake 0; CFull 0 (mkTensor 2 [FFinite (1 # 4); FFinite (3 # 4)]);
    OApply; OScanL;
    RFinish 0;
    EnvTerminate;
    RLeave 0;
    CDrainL 0; CDrainSkip 0; CLeave 0;
    OTerminate ].

(** The same node and read with the runner finishing first: the read is
    on the working list when its chunk comes back, and the input is
    terminated afterwards. *)
Definition orderly_schedule : list label :=
  [ EnvPush 0 (fresh_read ["C"; "G"]%char);
    RPopL 0; RBegin 0; REnqueue 0; RFinish 0;
    CTake 0; CFull 0 (mkTensor 2 [FFinite (1 # 4); FFinite (3 # 4)]);
    OApply; OScanL;
    EnvTerminate;
    RLeave 0;
    CDrainL 0; CDrainSkip 0; CLeave 0;
    OTerminate ].

(** A read with six CG sites, and a schedule of [small_node 1] that takes
    it up to the point where its chunks are on the request queue. *)
Definition six_hit_read : Read :=
  fresh_read ["C"; "G"; "C"; "G"; "C"; "G"; "C"; "G"; "C"; "G"; "C"; "G"]%char.

Definition overfull_schedule : list label :=
  [ EnvPush 0 six_hit_read; RPopL 0; RBegin 0; REnqueue 0 ].

(** A schedule of [small_node 2] that leaves the caller waiting with one
    chunk in a batch of capacity two and nothing on its queue. *)
Definition partial_batch_schedule : list label :=
  [ EnvPush 0 (fresh_read ["C"; "G"]%char);
    RPopL 0; RBegin 0; REnqueue 0; RFinish 0;
    CTake 0; CNotFull 0 ].

(** A read of eight bases with CG sites at positions 2 and 5, and a
    schedule of [small_node 4] that takes it through the node: both
    chunks go into one batch, which is not full and is scored when the
    caller times out. *)
Definition two_hit_read : Read :=
  fresh_read ["A"; "A"; "C"; "G"; "A"; "C"; "G"; "A"]%char.

Definition two_hit_schedule : list label :=
  [ EnvPush 0 two_hit_read;
    RPopL 0; RBegin 0; REnqueue 0; RFinish 0;
    CTake 0; CNotFull 0;
    EnvTick 100; CTimeout 0;
    CIdleFlush 0 (mkTensor 2 [FFinite (1 # 4); FFinite (3 # 4);
                              FFinite (1 # 2); FFinite (1 # 2)]);
    OApply; OScanL ].


(** ** Runs in which the callers are served promptly

    [step] lets the clock advance at any moment: a thread of a C++
    program can be kept from running for any length of time.  How long a
    batch is held is therefore a matter of the runs in which the caller
    holding it is served without delay: its [wait_until] returns no
    later than the deadline it was given, whether the caller was woken
    or not, and once past the wait the caller finishes its stretch
    before the clock moves.  So in those runs the clock advances only
    while every caller with a batch in hand is at its [wait_until], and
    not beyond the deadline of that wait.  Nothing else is constrained:
    every transition of every thread can be taken as before, in any
    order.  Callers with an empty batch are left out, because once their
    deadline is in the past their wait times out at every turn of the
    loop. *)

(** Caller [i] has chunks in its batch. *)
Definition holds_batch (st : Node) (i : nat) : bool :=
  match m_batched_chunks st !! i with
  | Some (_ :: _) => true
  | _ => false
  end.

(** The caller can still be in its timed wait at time [t]: it is at the
    wait, and [t] is not past the deadline
    [last_chunk_reserve_time + FORCE_TIMEOUT]. *)
Definition waits_until (t : Z) (c : Caller) : bool :=
  bool_decide (c_pc c = CWait)
  && bool_decide (t <= last_chunk_reserve_time c + FORCE_TIMEOUT)%Z.

(** A test on every caller, with its index. *)
Fixpoint all_callers (f : nat -> Caller -> bool) (i : nat)
    (cs : list Caller) : bool :=
  match cs with
  | [] => true
  | c :: cs' => f i c && all_callers f (S i) cs'
  end.

(** The transition from [st] to [st'] delays no caller that holds a
    batch: the clock has not moved, or every such caller is at its wait
    and the new time is not past its deadline. *)
Definition served_promptly (st st' : Node) : bool :=
  bool_decide (now st' = now st)
  || all_callers
       (fun i c => negb (holds_batch st i) || waits_until (now st') c)
       0 (callers st).



(** A schedule run with prompt service: a transition that delays a
    caller with a batch is refused. *)
Definition prompt_exec (cfg : Config) (l : label) (st : Node) : option Node :=
  st' ← exec cfg l st;
  guard (served_promptly st st') st'.

Fixpoint prompt_exec_all (cfg : Config) (ls : list label) (st : Node)
  : option Node :=
  match ls with
  | [] => Some st
  | l :: ls' => st1 ← prompt_exec cfg l st; prompt_exec_all cfg ls' st1
  end.





(* ===================================================================== *)
(** * Part VII: machine arithmetic of the other stages *)
(* ===================================================================== *)

(** ** The type [int] *)

Definition INT_MIN : Z := (- 2 ^ 31)%Z.
Definition INT_MAX : Z := (2 ^ 31 - 1)%Z.

(** The result of [+], [-], [*] or [/] on [int]: overflow is undefined. *)
Definition int_arith (r : Z) : outcome Z :=
  if decide (INT_MIN <= r <= INT_MAX)%Z then Ok r else Undefined.

(** [a / b] on [int]: truncation toward zero. *)
Definition int_div (a b : Z) : outcome Z :=
  if decide (b = 0)%Z then Undefined else int_arith (Z.quot a b).

(** [(int)x] for a wider integer [x]: the low 32 bits. *)
Definition to_int (x : Z) : Z := ((x + 2 ^ 31) `mod` 2 ^ 32 - 2 ^ 31)%Z.

(** An [int] converted to [size_t] for a comparison with a size. *)
Definition to_size_t (x : Z) : Z := (x `mod` 2 ^ 64)%Z.

(** ** Binary32 arithmetic *)

(** Rounding to the nearest integer, ties to even. *)
Definition round_half_even (m : Q) : Z :=
  let f := Qfloor m in
  match (m - inject_Z f ?= 1 # 2)%Q with
  | Lt => f
  | Gt => (f + 1)%Z
  | Eq => if Z.even f then f else (f + 1)%Z
  end.

(** [floor (log2 a)] for a positive rational. *)
Definition Qlog2_floor (a : Q) : Z :=
  let e := (Z.log2 (Qnum a) - Z.log2 (Zpos (Qden a)))%Z in
  if Qle_bool (Qpower 2 e) a then e else (e - 1)%Z.

(** The binary32 nearest to a rational, ties to even: 24 significant
    bits, least exponent -149, overflow to the infinity of the sign.  The
    sign of a zero is not kept; no operation below tells the zeros
    apart. *)
Definition round32 (q : Q) : float32 :=
  if Qeq_bool q 0 then FFinite 0
  else
    let a := (if Qle_bool 0 q then q else - q)%Q in
    let u := Z.max (Qlog2_floor a - 23) (-149) in
    let v := (inject_Z (round_half_even (a / Qpower 2 u)) * Qpower 2 u)%Q in
    if Qle_bool v FLT_MAX
    then FFinite (Qred (if Qle_bool 0 q then v else - v))
    else if Qle_bool 0 q then FPosInf else FNegInf.

Definition fneg (x : float32) : float32 :=
  match x with
  | FFinite q => FFinite (- q)
  | FPosInf => FNegInf
  | FNegInf => FPosInf
  | FNaN => FNaN
  end.

(** [x + y] in binary32. *)
Definition fadd (x y : float32) : float32 :=
  match x, y with
  | FNaN, _ | _, FNaN => FNaN
  | FFinite a, FFinite b => round32 (a + b)
  | FPosInf, FNegInf | FNegInf, FPosInf => FNaN
  | FPosInf, _ | _, FPosInf => FPosInf
  | FNegInf, _ | _, FNegInf => FNegInf
  end.

Definition fsub (x y : float32) : float32 := fadd x (fneg y).

(** The sign of a float that is not a NaN: -1, 0 or 1. *)
Definition fsign (x : float32) : Z :=
  match x with
  | FFinite q => Z.sgn (Qnum q)
  | FPosInf => 1
  | FNegInf => -1
  | FNaN => 0
  end.

(** [x * y] in binary32. *)
Definition fmul (x y : float32) : float32 :=
  match x, y with
  | FNaN, _ | _, FNaN => FNaN
  | FFinite a, FFinite b => round32 (a * b)
  | _, _ =>
      match (fsign x * fsign y)%Z with
      | Z0 => FNaN
      | Zpos _ => FPosInf
      | Zneg _ => FNegInf
      end
  end.

(** [a <= b] on floats; any comparison with a NaN is false. *)
Definition fle (a b : float32) : bool :=
  match a, b with
  | FNaN, _ | _, FNaN => false
  | FFinite x, FFinite y => Qle_bool x y
  | FNegInf, _ => true
  | _, FPosInf => true
  | _, _ => false
  end.

(** [std::max(a, b)] is [(a < b) ? b : a]. *)
Definition fmax (a b : float32) : float32 := if flt a b then b else a.

(** An integer converted to [float]. *)
Definition float_of_Z (z : Z) : float32 := round32 (inject_Z z).

(* ===================================================================== *)
(** * Part VIII: the scaler, [read_pipeline/ScalerNode.cpp] *)
(* ===================================================================== *)

(** [normalisation], from the two quantiles on ([utils::quantile] is not
    part of this file): [0.51f] and [0.53f] are the binary32 nearest to
    the decimals. *)
Definition normalisation (q20 q90 : float32) : float32 * float32 :=
  let shift := fmax (FFinite 10) (fmul (round32 (51 # 100)) (fadd q20 q90)) in
  let scale := fmax (FFinite 1) (fmul (round32 (53 # 100)) (fsub q90 q20)) in
  (shift, scale).

(** [x.index({Slice(start, end)})] on a one-dimensional tensor.  libtorch
    counts a negative bound from the end and clamps both bounds to the
    tensor. *)
Definition tensor_slice {A} (x : list A) (start end_ : Z) : list A :=
  let n := Z.of_nat (length x) in
  let s0 := if decide (start < 0)%Z then (start + n)%Z else start in
  let e0 := if decide (end_ < 0)%Z then (end_ + n)%Z else end_ in
  let s := if decide (s0 < 0)%Z then 0%Z
           else if decide (s0 >= n)%Z then n else s0 in
  let e := if decide (e0 < s)%Z then s
           else if decide (e0 >= n)%Z then n else e0 in
  take (Z.to_nat (e - s)) (drop (Z.to_nat s) x).

(** What libtorch's exceptions carry; the texts are the library's. *)
Definition index_error : string := "c10::IndexError".
Definition conversion_error : string := "c10::Error".

(** [x[-1].item<float>()]: the last element; libtorch throws an index
    error on an empty tensor. *)
Definition tensor_last (x : list float32) : outcome float32 :=
  match last x with
  | Some v => Ok v
  | None => Throw index_error
  end.

(** [(window > threshold).sum()] *)
Definition count_above (threshold : float32) (window : list float32) : Z :=
  Z.of_nat (length (filter (fun v => flt threshold v = true) window)).

(** [.item<int>()] of a 64-bit count: a checked conversion. *)
Definition item_int (c : Z) : outcome Z :=
  if decide (INT_MIN <= c <= INT_MAX)%Z then Ok c
  else Throw conversion_error.

(** The loop of [ScalerNode::trim] with [n] windows to go. *)
Fixpoint trim_windows (signal : list float32) (window_size : Z)
    (threshold : float32) (min_elements : Z) (max_trim : float32)
    (num_samples : Z) (n : nat) (pos : Z) (seen_peak : bool) : outcome Z :=
  match n with
  | 0 => Ok 10%Z
  | S n' =>
      off ← int_arith (pos * window_size);
      start ← int_arith (off + 10);
      end_ ← int_arith (start + window_size);
      let window := tensor_slice signal start end_ in
      elements ← item_int (count_above threshold window);
      if bool_decide (elements > min_elements)%Z || seen_peak then
        last_sample ← tensor_last window;
        if flt threshold last_sample then
          trim_windows signal window_size threshold min_elements max_trim
            num_samples n' (pos + 1)%Z true
        else if bool_decide (end_ >= num_samples)%Z
                || fle (fmul max_trim
                          (float_of_Z (Z.of_nat (length signal))))
                       (float_of_Z end_)
        then Ok 10%Z
        else Ok end_
      else
        trim_windows signal window_size threshold min_elements max_trim
          num_samples n' (pos + 1)%Z seen_peak
  end.

(** [ScalerNode::trim]. *)
Definition trim (signal : list float32) (window_size : Z)
    (threshold : float32) (min_elements max_samples : Z)
    (max_trim : float32) : outcome Z :=
  let num_samples :=
    Z.min max_samples (to_int (Z.of_nat (length signal))) in
  num_windows ← int_div num_samples window_size;
  trim_windows signal window_size threshold min_elements max_trim
    num_samples (Z.to_nat num_windows) 0 false.

(** The window the loop looks at in round [pos]. *)
Definition trim_window (signal : list float32) (window_size pos : Z)
  : list float32 :=
  tensor_slice signal (pos * window_size + 10)
    (pos * window_size + 10 + window_size).

(** A signal of 55 samples for the examples: quiet, a stretch of 14
    samples at 9 from sample 12 on, quiet again. *)
Definition peak_signal : list float32 :=
  replicate 12 (FFinite 0) ++ replicate 14 (FFinite 9)
  ++ replicate 29 (FFinite 0).

(* ===================================================================== *)
(** * Part IX: the base-space duplex caller,
      [read_pipeline/BaseSpaceDuplexCallerNode.cpp] *)
(* ===================================================================== *)

(** What [std::out_of_range] carries; the text is the library's. *)
Definition out_of_range : string := "std::out_of_range".

(** [v.at(cursor)] on a [std::vector] or a [std::string_view] with an
    [int] cursor: the cursor is converted to [size_t] and checked. *)
Definition checked_at {A} (v : list A) (cursor : Z) : outcome A :=
  match v !! Z.to_nat (to_size_t cursor) with
  | Some a => Ok a
  | None => Throw out_of_range
  end.

(** [alignment[i]] through the raw pointer [unsigned char* alignment]. *)
Definition alignment_at (alignment : list Z) (i : Z) : outcome Z :=
  if decide (0 <= i)%Z then of_option (alignment !! Z.to_nat i)
  else Undefined.

(** [cursor < scores.size()] with an [int] cursor: the comparison is made
    in [size_t]. *)
Definition cursor_inside {A} (cursor : Z) (scores : list A) : bool :=
  bool_decide (to_size_t cursor < Z.of_nat (length scores))%Z.

(** The loop of [compute_basespace_consensus] with [n] rounds to go.  A
    column of the alignment is 0 for a match, 1 for an insertion to the
    target, 2 for an insertion to the query, 3 for a mismatch.  Quality
    scores are bytes; the [char] pushed to [quality_scores_phred] holds
    the same eight bits. *)
Fixpoint consensus_loop (n : nat) (i alignment_end_position : Z)
    (target_quality_scores : list Z) (target_cursor : Z)
    (query_quality_scores : list Z) (query_cursor : Z)
    (target_sequence query_sequence : list ascii) (alignment : list Z)
    (consensus : list ascii) (quality_scores_phred : list Z)
  : outcome (list ascii * list Z) :=
  match n with
  | 0 => Ok (consensus, quality_scores_phred)
  | S n' =>
      if bool_decide (i < alignment_end_position)%Z
         && cursor_inside target_cursor target_quality_scores
         && cursor_inside query_cursor query_quality_scores
      then
        tq ← checked_at target_quality_scores target_cursor;
        qq ← checked_at query_quality_scores query_cursor;
        a ← alignment_at alignment i;
        '(consensus', quality') ←
          (if bool_decide (tq >= qq)%Z then
             if bool_decide (a ≠ 2%Z) then
               base ← checked_at target_sequence target_cursor;
               Ok (consensus ++ [base], quality_scores_phred ++ [tq])
             else Ok (consensus, quality_scores_phred)
           else
             if bool_decide (a ≠ 1%Z) then
               base ← checked_at query_sequence query_cursor;
               Ok (consensus ++ [base], quality_scores_phred ++ [qq])
             else Ok (consensus, quality_scores_phred));
        target_cursor' ← (if bool_decide (a ≠ 2%Z)
                          then int_arith (target_cursor + 1)
                          else Ok target_cursor);
        query_cursor' ← (if bool_decide (a ≠ 1%Z)
                         then int_arith (query_cursor + 1)
                         else Ok query_cursor);
        i' ← int_arith (i + 1);
        consensus_loop n' i' alignment_end_position
          target_quality_scores target_cursor'
          query_quality_scores query_cursor'
          target_sequence query_sequence alignment consensus' quality'
      else Ok (consensus, quality_scores_phred)
  end.

(** [compute_basespace_consensus].  The loop makes at most
    [alignment_end_position - alignment_start_position] rounds. *)
Definition compute_basespace_consensus
    (alignment_start_position alignment_end_position : Z)
    (target_quality_scores : list Z) (target_cursor : Z)
    (query_quality_scores : list Z) (query_cursor : Z)
    (target_sequence query_sequence : list ascii) (alignment : list Z)
  : outcome (list ascii * list Z) :=
  consensus_loop
    (Z.to_nat (alignment_end_position - alignment_start_position))
    alignment_start_position alignment_end_position
    target_quality_scores target_cursor query_quality_scores query_cursor
    target_sequence query_sequence alignment [] [].

(* ===================================================================== *)
(** * Part X: the rest of [ModBaseCallerNode.cpp] *)
(* ===================================================================== *)

(** [params.motif[params.motif_offset]], the base a model looks at. *)
Definition context_base (params : BaseModParams) : outcome ascii :=
  string_at (motif params) (motif_offset params).

(** [init_modbase_info]: the parameters of the first
    [m_callers.size() / m_num_devices] callers are handed to
    [get_modbase_info_and_maybe_init] together with the node.  The
    division is one of [size_t] and undefined for no devices. *)
Definition init_modbase_info (m_callers : list BaseModParams)
    (m_num_devices : nat) (node : NodeInfo) : outcome NodeInfo :=
  if decide (m_num_devices = 0) then Undefined
  else
    '(_, node', _) ←
      get_modbase_info_and_maybe_init
        (take (length m_callers / m_num_devices) m_callers) (Some node);
    of_option node'.

(** The calls [caller->accept_chunk(chunk_idx, ...)] of one pass of
    [caller_worker_thread], as pairs of slot and chunk: one call for
    every index from [previous_chunk_count] up to the end of the
    batch. *)
Definition accept_calls (previous_chunk_count : nat)
    (batched_chunks : list RemoraChunk) : list (nat * RemoraChunk) :=
  imap (fun k chunk => (previous_chunk_count + k, chunk))
       (drop previous_chunk_count batched_chunks).

(** One pass of [caller_worker_thread] that takes chunks: the batch is
    filled from the queue and the chunks just taken are handed to the
    model.  [accepted] lists the calls of [accept_chunk] since the batch
    was last scored. *)
Definition caller_pass (batch_size : nat)
    (state : list RemoraChunk * list (nat * RemoraChunk))
    (chunk_queue : list RemoraChunk)
  : list RemoraChunk * list (nat * RemoraChunk) * list RemoraChunk :=
  let '(batched_chunks, accepted) := state in
  let previous_chunk_count := length batched_chunks in
  let '(batched_chunks', chunk_queue') :=
    push_chunks batch_size batched_chunks chunk_queue in
  (batched_chunks',
   accepted ++ accept_calls previous_chunk_count batched_chunks',
   chunk_queue').

(** Passes over a succession of queue contents, none of them followed by
    a call of [call_current_batch]. *)
Definition caller_passes (batch_size : nat)
    (state : list RemoraChunk * list (nat * RemoraChunk))
    (queues : list (list RemoraChunk))
  : list RemoraChunk * list (nat * RemoraChunk) :=
  foldl (fun st queue => (caller_pass batch_size st queue).1) state queues.

(** A 6mA model for the examples. *)
Definition params_6mA : BaseModParams :=
  mkBaseModParams ["A"]%char 0 ["a"]%char ["6mA"%string] 1.

(** A second model on C, with two modifications. *)
Definition params_5mC_5hmC : BaseModParams :=
  mkBaseModParams ["C"; "G"]%char 0 ["h"; "m"]%char
    ["5hmC"%string; "5mC"%string] 2.

(* ===================================================================== *)
(** * Part XI: the GPU core count, [utils/metal_utils.cpp] *)
(* ===================================================================== *)

(** The estimate [get_mtl_device_core_count] makes from the name of the
    Metal device. *)
Definition estimate_core_count (name : string) : Z :=
  if decide (name = "Apple M1 Pro"%string) then 16
  else if decide (name = "Apple M1 Max"%string) then 32
  else if decide (name = "Apple M1 Ultra"%string) then 64
  else 8.

(** [get_mtl_device_core_count].  [gpu_core_count] is the function's
    static variable, -1 at first; [num_cores] is the value found under
    that key in the IO registry, [None] when [retrieve_ioreg_props] fails
    or the key is missing; [name] is the name of the Metal device.  The
    registry's 64-bit value is narrowed to [int].  Returned are the new
    value of the static variable and the result. *)
Definition get_mtl_device_core_count (gpu_core_count : Z)
    (num_cores : option Z) (name : string) : Z * Z :=
  if decide (gpu_core_count ≠ (-1)%Z) then (gpu_core_count, gpu_core_count)
  else
    match num_cores with
    | Some cores => (to_int cores, to_int cores)
    | None => (estimate_core_count name, estimate_core_count name)
    end.

(* ===================================================================== *)
(** * Part XII: theorems *)
(* ===================================================================== *)

(** Take apart a hypothesis [x ← m; k = Ok _] along the outcome of [m]. *)
Ltac outcome_inv H :=
  repeat match type of H with
  | mbind _ ?m = Ok _ =>
      let E := fresh "E" in
      destruct m eqn:E; simpl in H; try discriminate H
  | (match ?m with Ok _ => _ | Throw _ => _ | Undefined => _ end) = Ok _ =>
      let E := fresh "E" in
      destruct m eqn:E; simpl in H; try discriminate H
  | (if decide ?P then _ else _) = Ok _ =>
      destruct (decide P); try discriminate H
  end.

Lemma of_option_Ok {A} (o : option A) (a : A) : of_option o = Ok a -> o = Some a.
Proof. destruct o; simpl; congruence. Qed.

Lemma vec_store_Ok {A} (v v' : list A) (i : nat) (x : A) :
  vec_store v i x = Ok v' -> i < length v ∧ v' = <[i := x]> v.
Proof. unfold vec_store. case_decide; [|done]. intros [= <-]. done. Qed.

(** ** Schedules are runs of the transition system *)

Lemma caller_at_Some (cfg : Config) (i : nat) (pc : caller_pc) (st : Node)
    c chunk_queue batch :
  caller_at cfg i pc st = Some (c, chunk_queue, batch) ->
  callers st !! i = Some c ∧ c_pc c = pc
  ∧ m_chunk_queues st !! queue_of cfg i = Some chunk_queue
  ∧ m_batched_chunks st !! i = Some batch.
Proof.
  unfold caller_at. intros H.
  destruct (callers st !! i) as [c'|]; simpl in H; [|discriminate].
  destruct (m_chunk_queues st !! queue_of cfg i) as [q|]; simpl in H; [|discriminate].
  destruct (m_batched_chunks st !! i) as [b|]; simpl in H; [|discriminate].
  case_decide; [|discriminate]. by injection H as <- <- <-.
Qed.

Lemma to_option_Some {A} (m : outcome A) (a : A) :
  to_option m = Some a -> m = Ok a.
Proof. destruct m; simpl; congruence. Qed.

Lemma guard_Some (b : bool) (st st' : Node) :
  guard b st = Some st' -> b = true ∧ st' = st.
Proof. unfold guard. destruct b; [|discriminate]. by intros [= <-]. Qed.

Lemma is_nil_true {A} (l : list A) : is_nil l = true -> l = [].
Proof. by destruct l. Qed.

Lemma is_nil_false {A} (l : list A) : is_nil l = false -> l ≠ [].
Proof. by destruct l. Qed.

(** Take apart a successful [exec] of a caller transition. *)
Ltac caller_exec H :=
  match type of H with
  | mbind _ (caller_at ?cfg ?i ?pc ?st) = Some _ =>
      let E := fresh "E" in
      destruct (caller_at cfg i pc st) as [[[? ?] ?]|] eqn:E;
      simpl in H; [|discriminate H];
      apply caller_at_Some in E as (? & ? & ? & ?)
  end.

Lemma exec_step (cfg : Config) (l : label) (st st' : Node) :
  exec cfg l st = Some st' -> step cfg st st'.
Proof.
  destruct l; simpl; intros H.
  - destruct (reads st !! id) eqn:?; [discriminate|].
    destruct (AsyncQueue.try_push id (m_work_queue st)) as [[] q'] eqn:?;
      [|discriminate].
    injection H as <-. by constructor.
  - injection H as <-. constructor.
  - apply guard_Some in H as [Hg ->]. constructor. by apply bool_decide_eq_true in Hg.
  - destruct (runners st !! i) as [[]|] eqn:?; try discriminate.
    destruct (AsyncQueue.try_pop (m_work_queue st)) eqn:?; try discriminate.
    injection H as <-. by constructor.
  - destruct (runners st !! i) as [[]|] eqn:?; try discriminate.
    destruct (AsyncQueue.try_pop (m_work_queue st)) eqn:?; try discriminate.
    injection H as <-. by constructor.
  - destruct (runners st !! i) as [[]|] eqn:?; try discriminate.
    destruct (chunk_queues_available cfg st) eqn:?; [|discriminate].
    destruct (runner_begin cfg id st) as [st1 [[]| |]] eqn:?; try discriminate.
    injection H as <-. by eapply r_begin.
  - destruct (runners st !! i) as [[]|] eqn:?; try discriminate.
    case_decide; [|discriminate].
    destruct (runner_enqueue cfg id caller_id st) eqn:?; try discriminate.
    injection H as <-. by eapply r_enqueue.
  - destruct (runners st !! i) as [[]|] eqn:?; try discriminate.
    case_decide; [discriminate|].
    destruct (runner_finish id st) eqn:?; try discriminate.
    injection H as <-. by eapply r_finish.
  - caller_exec H. apply guard_Some in H as [Hg ->].
    apply andb_true_iff in Hg as [Hw Ht]. apply negb_true_iff in Hw.
    apply bool_decide_eq_true in Ht. by eapply c_timeout.
  - caller_exec H. apply guard_Some in H as [Hg ->].
    apply andb_true_iff in Hg as [Hw Ht]. apply andb_true_iff in Ht as [Hn Ht].
    apply is_nil_true in Hn. by eapply c_drain.
  - caller_exec H.
    destruct (caller_wake l st && negb (is_nil l && m_terminate_callers st))
      eqn:Hg; [|discriminate].
    apply andb_true_iff in Hg as [Hw Ht]. apply negb_true_iff in Ht.
    apply to_option_Some in H. eapply c_take; try done.
    intros [-> Hterm]. rewrite Hterm in Ht. done.
  - caller_exec H. destruct (is_nil l0) eqn:Hn; [discriminate|].
    apply is_nil_false in Hn.
    destruct (call_current_batch results i st) eqn:?; try discriminate.
    injection H as <-. by eapply c_idle_flush.
  - caller_exec H. apply guard_Some in H as [Hn ->].
    apply is_nil_true in Hn as ->. by eapply c_idle_skip.
  - caller_exec H. destruct (is_nil l0) eqn:Hn; [discriminate|].
    apply is_nil_false in Hn.
    destruct (call_current_batch results i st) eqn:?; try discriminate.
    injection H as <-. by eapply c_drain_flush.
  - caller_exec H. apply guard_Some in H as [Hn ->].
    apply is_nil_true in Hn as ->. by eapply c_drain_skip.
  - caller_exec H. injection H as <-. by eapply c_leave.
  - caller_exec H. case_decide; [|discriminate].
    destruct (call_current_batch results i st) eqn:?; try discriminate.
    injection H as <-. by eapply c_full.
  - caller_exec H. case_decide; [discriminate|].
    injection H as <-. by eapply c_not_full.
  - destruct (output st) eqn:?; try discriminate.
    destruct (m_processed_chunks st) eqn:Hp; [discriminate|].
    apply to_option_Some in H. apply o_apply; [done | by rewrite Hp | done].
  - destruct (output st) eqn:?; try discriminate.
    destruct (m_processed_chunks st) eqn:Hp; [|discriminate].
    apply guard_Some in H as [Hg ->]. by apply o_terminate.
  - destruct (output st) eqn:?; try discriminate.
    apply to_option_Some in H. by apply o_scan.
Qed.

Lemma exec_all_reachable (cfg : Config) (ls : list label) :
  ∀ st st', reachable cfg st -> exec_all cfg ls st = Some st' ->
            reachable cfg st'.
Proof.
  induction ls as [|l ls IH]; intros st st' Hr H; simpl in H.
  - by injection H as <-.
  - destruct (exec cfg l st) as [st1|] eqn:E; simpl in H; [|discriminate].
    eapply IH; [|done]. eapply reach_step; [done|]. by eapply exec_step.
Qed.

(** ** What each action changes *)

Lemma runner_begin_Ok (cfg : Config) (id : nat) (st st1 : Node) :
  runner_begin cfg id st = (st1, Ok ()) ->
  ∃ r r1,
    reads st !! id = Some r
    ∧ init_base_mod_probs (info cfg) r = (r1, Ok ())
    ∧ st1 = set_reads (<[id := reset_counters r1]> (reads st)) st.
Proof.
  unfold runner_begin. destruct (reads st !! id) as [r|]; [|discriminate].
  destruct (init_base_mod_probs (info cfg) r) as [r1 [[]| |]] eqn:E;
    intros [= <-]. by exists r, r1.
Qed.

Lemma runner_enqueue_Ok (cfg : Config) (id k : nat) (st st1 : Node) :
  runner_enqueue cfg id k st = Ok st1 ->
  ∃ r chunk_queue,
    reads st !! id = Some r
    ∧ m_chunk_queues st !! k = Some chunk_queue
    ∧ st1 = set_m_chunk_queues
              (<[k := chunk_queue
                      ++ make_chunks id (get_motif_hits cfg k (seq r))]>
                 (m_chunk_queues st))
              (set_reads
                 (<[id := count_chunks
                            (length (make_chunks id
                                       (get_motif_hits cfg k (seq r)))) r]>
                    (reads st))
                 st).
Proof.
  unfold runner_enqueue. intros H. outcome_inv H. injection H as <-.
  apply of_option_Ok in E, E0. by exists a, a0.
Qed.

Lemma runner_finish_Ok (id : nat) (st st1 : Node) :
  runner_finish id st = Ok st1 ->
  ∃ r, reads st !! id = Some r
       ∧ ((num_modbase_chunks r ≠ 0
           ∧ st1 = set_m_working_reads (m_working_reads st ++ [id]) st)
          ∨ (num_modbase_chunks r = 0
             ∧ st1 = set_sink_messages (sink_messages st ++ [id]) st)).
Proof.
  unfold runner_finish. intros H.
  destruct (reads st !! id) as [r|]; simpl in H; [|discriminate].
  exists r. split; [done|]. case_decide as Hn; injection H as <-.
  - by left.
  - right. split; [lia | done].
Qed.

Lemma caller_take_Ok (cfg : Config) (i : nat) (st st1 : Node) :
  caller_take cfg i st = Ok st1 ->
  ∃ c chunk_queue batch batch' queue',
    callers st !! i = Some c
    ∧ m_chunk_queues st !! queue_of cfg i = Some chunk_queue
    ∧ m_batched_chunks st !! i = Some batch
    ∧ push_chunks (m_batch_size cfg) batch chunk_queue = (batch', queue')
    ∧ st1 = set_callers
              (<[i := mkCaller CTaken
                        (if decide (length batch' = length batch)
                         then last_chunk_reserve_time c else now st)]>
                 (callers st))
              (set_m_batched_chunks (<[i := batch']> (m_batched_chunks st))
                 (set_m_chunk_queues
                    (<[queue_of cfg i := queue']> (m_chunk_queues st)) st)).
Proof.
  unfold caller_take. intros H. outcome_inv H.
  apply of_option_Ok in E, E0, E1.
  destruct (push_chunks (m_batch_size cfg) a1 a0) as [batch' queue'] eqn:Hp.
  injection H as <-. by exists a, a0, a1, batch', queue'.
Qed.

Lemma output_apply_Ok (cfg : Config) (st st1 : Node) :
  output_apply cfg st = Ok st1 ->
  ∃ reads',
    apply_chunks (info cfg) (reads st) (m_processed_chunks st) = Ok reads'
    ∧ st1 = set_output OScan (set_m_processed_chunks [] (set_reads reads' st)).
Proof.
  unfold output_apply. intros H. outcome_inv H. injection H as <-. by eexists.
Qed.

Lemma output_scan_Ok (st st1 : Node) :
  output_scan st = Ok st1 ->
  ∃ sent kept,
    scan_working_reads (reads st) (m_working_reads st) = Ok (sent, kept)
    ∧ st1 = set_output OWait
              (set_m_working_reads kept
                 (set_sink_messages (sink_messages st ++ sent) st)).
Proof.
  unfold output_scan. intros H.
  destruct (scan_working_reads (reads st) (m_working_reads st))
    as [[sent kept]| |]; simpl in H; try discriminate.
  injection H as <-. by exists sent, kept.
Qed.

Lemma call_current_batch_Ok (results : Tensor) (caller_id : nat)
    (st st' : Node) :
  call_current_batch results caller_id st = Ok st' ->
  ∃ batch scored,
    m_batched_chunks st !! caller_id = Some batch
    ∧ score_chunks results 0 batch = Ok scored
    ∧ st' = set_m_batched_chunks (<[caller_id := []]> (m_batched_chunks st))
              (set_m_processed_chunks (m_processed_chunks st ++ scored) st).
Proof.
  unfold call_current_batch. intros H. outcome_inv H. injection H as <-.
  apply of_option_Ok in E. by exists a, a0.
Qed.

(** Invert a transition and expose the successor state as updates of
    the predecessor. *)
Ltac step_inv H :=
  inversion H; subst; clear H;
  repeat match goal with
  | H1 : runner_begin _ _ _ = (_, Ok ()) |- _ =>
      apply runner_begin_Ok in H1 as (? & ? & ? & ? & ->)
  | H1 : runner_enqueue _ _ _ _ = Ok _ |- _ =>
      apply runner_enqueue_Ok in H1 as (? & ? & ? & ? & ->)
  | H1 : runner_finish _ _ = Ok _ |- _ =>
      apply runner_finish_Ok in H1 as (? & ? & [[? ->]|[? ->]])
  | H1 : caller_take _ _ _ = Ok _ |- _ =>
      apply caller_take_Ok in H1 as (? & ? & ? & ? & ? & ? & ? & ? & ? & ->)
  | H1 : call_current_batch _ _ _ = Ok _ |- _ =>
      apply call_current_batch_Ok in H1 as (? & ? & ? & ? & ->)
  | H1 : output_apply _ _ = Ok _ |- _ =>
      apply output_apply_Ok in H1 as (? & ? & ->)
  | H1 : output_scan _ = Ok _ |- _ =>
      apply output_scan_Ok in H1 as (? & ? & ? & ->)
  end.


(** ** Quantisation *)

Lemma Qle_bool_inject (a b : Z) : Qle_bool (inject_Z a) (inject_Z b) = bool_decide (a <= b)%Z.
Proof.
  destruct (Qle_bool (inject_Z a) (inject_Z b)) eqn:E.
  - apply Qle_bool_iff in E. rewrite <- Zle_Qle in E. symmetry. by apply bool_decide_eq_true.
  - symmetry. apply bool_decide_eq_false. intros H. rewrite Zle_Qle in H.
    apply Qle_bool_iff in H. congruence.
Qed.

Lemma to_uint8_inject (z : Z) :
  to_uint8 (FFinite (inject_Z z)) = if decide (0 <= z < 256)%Z then Ok z else Undefined.
Proof.
  unfold to_uint8. rewrite Qceiling_Z, Qfloor_Z. by destruct (Qle_bool 0 (inject_Z z)).
Qed.

Lemma fmin_255 (z : Z) :
  fmin (FFinite (inject_Z z)) (FFinite 255) = FFinite (inject_Z (Z.min z 255)).
Proof.
  unfold fmin, flt. change 255%Q with (inject_Z 255). rewrite Qle_bool_inject.
  case_bool_decide; cbn [negb].
  - by rewrite Z.min_l by lia.
  - by rewrite Z.min_r by lia.
Qed.

Lemma quantize_finite (q : Q) :
  quantize (FFinite q) =
    if Qle_bool (q * 256) FLT_MAX then
      if Qle_bool (- FLT_MAX) (q * 256) then
        let z := Z.min (Qfloor (q * 256)) 255 in
        if decide (0 <= z < 256)%Z then Ok z else Undefined
      else Undefined
    else Ok 255%Z.
Proof.
  unfold quantize, fmul256.
  destruct (Qle_bool (q * 256) FLT_MAX); [destruct (Qle_bool (- FLT_MAX) (q * 256))|]; simpl.
  - by rewrite fmin_255, to_uint8_inject.
  - done.
  - done.
Qed.

Lemma quantize_nonneg (q : Q) :
  (0 <= q)%Q -> quantize (FFinite q) = Ok (Z.min (Qfloor (q * 256)) 255).
Proof.
  intros Hq. rewrite quantize_finite.
  assert (H0 : (0 <= q * 256)%Q) by (apply Qmult_le_0_compat; [done | discriminate]).
  assert (Hf : (0 <= Qfloor (q * 256))%Z).
  { change 0%Z with (Qfloor 0). by apply Qfloor_resp_le. }
  destruct (Qle_bool (q * 256) FLT_MAX) eqn:E1.
  - destruct (Qle_bool (- FLT_MAX) (q * 256)) eqn:E2.
    + cbv zeta. rewrite decide_True by lia. done.
    + exfalso. assert (Qle_bool (- FLT_MAX) (q * 256) = true); [|congruence].
      apply Qle_bool_iff. eapply Qle_trans; [|exact H0]. discriminate.
  - f_equal. symmetry. apply Z.min_r.
    assert (Hlt : (FLT_MAX < q * 256)%Q).
    { apply Qnot_le_lt. intros H. apply Qle_bool_iff in H. congruence. }
    change 255%Z with (Qfloor 255).
    apply Qfloor_resp_le. apply Qlt_le_weak. eapply Qle_lt_trans; [|exact Hlt]. discriminate.
Qed.

Lemma to_uint8_range (x : float32) (b : Z) :
  to_uint8 x = Ok b -> (0 <= b <= 255)%Z.
Proof.
  destruct x; simpl; try discriminate.
  case_decide; [|discriminate]. intros [= <-]. lia.
Qed.

Lemma quantize_range (s : float32) (b : Z) :
  quantize s = Ok b -> (0 <= b <= 255)%Z.
Proof. apply to_uint8_range. Qed.

Lemma quantize_saturates (q : Q) :
  (255 # 256 <= q)%Q -> quantize (FFinite q) = Ok 255%Z.
Proof.
  intros Hq.
  assert (H0 : (0 <= q)%Q) by (eapply Qle_trans; [|exact Hq]; discriminate).
  rewrite quantize_nonneg by done. f_equal. apply Z.min_r.
  change 255%Z with (Qfloor 255). apply Qfloor_resp_le.
  apply Qle_trans with ((255 # 256) * 256)%Q; [discriminate|].
  apply Qmult_le_compat_r; [done | discriminate].
Qed.

Lemma quantize_monotone (q1 q2 : Q) :
  (0 <= q1)%Q -> (q1 <= q2)%Q ->
  (Z.min (Qfloor (q1 * 256)) 255 <= Z.min (Qfloor (q2 * 256)) 255)%Z.
Proof.
  intros H0 H12. apply Z.min_le_compat_r. apply Qfloor_resp_le.
  apply Qmult_le_compat_r; [done | discriminate].
Qed.

(** What the inner loop of the aggregator leaves in the buffer. *)
Lemma store_scores_spec (chunk_scores : list float32) :
  ∀ (probs : list Z) (first i : nat) (probs' : list Z),
    store_scores probs first i chunk_scores = Ok probs' ->
    length probs' = length probs
    ∧ (chunk_scores ≠ [] -> first + i + length chunk_scores <= length probs)
    ∧ (∀ j s, chunk_scores !! j = Some s ->
         ∃ b, quantize s = Ok b ∧ probs' !! (first + i + j) = Some b)
    ∧ (∀ k, k < first + i ∨ first + i + length chunk_scores <= k ->
         probs' !! k = probs !! k).
Proof.
  induction chunk_scores as [|s rest IH]; intros probs first i probs' H; simpl in H.
  - injection H as <-. split_and!; [done | done | | done].
    intros j s Hj. by rewrite lookup_nil in Hj.
  - outcome_inv H. apply vec_store_Ok in E0 as [Hlt ->].
    apply IH in H as (Hlen & Hfit & Hin & Hout).
    rewrite length_insert in Hlen, Hfit.
    split_and!.
    + done.
    + intros _. simpl. destruct rest as [|s' rest']; [simpl; lia|].
      specialize (Hfit ltac:(done)). simpl in *. lia.
    + intros [|j] s0 Hj; simpl in Hj.
      * injection Hj as <-. exists a. split; [done|].
        rewrite Hout by lia. rewrite Nat.add_0_r.
        by apply list_lookup_insert_eq.
      * destruct (Hin j s0 Hj) as (b & Hb & Hl). exists b. split; [done|].
        rewrite <- Hl. f_equal. lia.
    + intros k Hk. simpl in Hk. rewrite Hout by lia.
      apply list_lookup_insert_ne. lia.
Qed.

(** C10: every value the aggregator stores in a result buffer is the byte
    [uint8(min(floor(score * 256), 255))] of the chunk's score.  It never
    exceeds 255, a score of 255/256 or more is stored as 255, and on
    scores between 0 and 1 the conversion always yields a byte and is
    monotone. *)
Theorem quantize_is_byte_quantisation :
  (∀ probs first chunk_scores probs',
      store_scores probs first 0 chunk_scores = Ok probs' ->
      ∀ j s, chunk_scores !! j = Some s ->
        ∃ b, quantize s = Ok b ∧ probs' !! (first + j) = Some b
             ∧ (0 <= b <= 255)%Z)
  ∧ (∀ s b, quantize s = Ok b -> (0 <= b <= 255)%Z)
  ∧ (∀ q, (255 # 256 <= q)%Q -> quantize (FFinite q) = Ok 255%Z)
  ∧ (∀ q, (0 <= q)%Q -> (q <= 1)%Q ->
        quantize (FFinite q) = Ok (Z.min (Qfloor (q * 256)) 255))
  ∧ (∀ q1 q2, (0 <= q1)%Q -> (q1 <= q2)%Q -> (q2 <= 1)%Q ->
        ∃ b1 b2, quantize (FFinite q1) = Ok b1
                 ∧ quantize (FFinite q2) = Ok b2 ∧ (b1 <= b2)%Z).
Proof.
  split; [|split; [|split; [|split]]].
  - intros probs first chunk_scores probs' H j s Hj.
    apply store_scores_spec in H as (_ & _ & Hin & _).
    destruct (Hin j s Hj) as (b & Hb & Hl).
    exists b. rewrite Nat.add_0_r in Hl. eauto using quantize_range.
  - apply quantize_range.
  - apply quantize_saturates.
  - intros q H0 _. by apply quantize_nonneg.
  - intros q1 q2 H0 H12 _. eexists _, _.
    split; [by apply quantize_nonneg|].
    split; [apply quantize_nonneg; by eapply Qle_trans|].
    by apply quantize_monotone.
Qed.

(** The clauses of [quantize_is_byte_quantisation] at the scores 1/2 and
    1, stored behind position one of a two-class buffer. *)
Lemma quantize_is_byte_quantisation_witness :
  (∃ b, quantize (FFinite (1 # 2)) = Ok b
        ∧ [0; 0; 128; 255]%Z !! (2 + 0) = Some b ∧ (0 <= b <= 255)%Z)
  ∧ quantize (FFinite 1) = Ok 255%Z
  ∧ (∃ b1 b2, quantize (FFinite (1 # 2)) = Ok b1
              ∧ quantize (FFinite 1) = Ok b2 ∧ (b1 <= b2)%Z).
Proof.
  pose proof quantize_is_byte_quantisation as (Hst & _ & Hsat & _ & Hmono).
  split; [|split].
  - apply (Hst [0; 0; 0; 0]%Z 2 [FFinite (1 # 2); FFinite 1]); reflexivity.
  - apply Hsat. discriminate.
  - apply Hmono; discriminate.
Defined.


(** ** The bounded channel *)

Module AsyncQueueFacts.
Import AsyncQueue.

Lemma run_app {A} (ops1 ops2 : list (op A)) :
  ∀ q, run (ops1 ++ ops2) q =
       '(evs1, q1) ← run ops1 q; '(evs2, q2) ← run ops2 q1;
       Some (evs1 ++ evs2, q2).
Proof.
  induction ops1 as [|o ops1 IH]; intros q; simpl.
  - by destruct (run ops2 q) as [[evs q2]|].
  - destruct o; simpl.
    + destruct (try_push x q) as [ok q1]. rewrite IH.
      destruct (run ops1 q1) as [[e1 q1']|]; simpl; [|done].
      by destruct (run ops2 q1') as [[e2 q2]|].
    + destruct (try_pop q) as [x q1| |]; [| |done].
      * rewrite IH. destruct (run ops1 q1) as [[e1 q1']|]; simpl; [|done].
        by destruct (run ops2 q1') as [[e2 q2]|].
      * rewrite IH. destruct (run ops1 q) as [[e1 q1']|]; simpl; [|done].
        by destruct (run ops2 q1') as [[e2 q2]|].
    + rewrite IH. destruct (run ops1 (terminate q)) as [[e1 q1']|]; simpl; [|done].
      by destruct (run ops2 q1') as [[e2 q2]|].
Qed.

(** Pushes onto a live channel with enough room all succeed and line up
    behind what is buffered. *)
Lemma run_pushes {A} (xs : list A) :
  ∀ buf n, length buf + length xs <= n ->
    run (OpPush <$> xs) (mk buf n false)
    = Some (replicate (length xs) (EvPush true), mk (buf ++ xs) n false).
Proof.
  induction xs as [|x xs IH]; intros buf n Hn; simpl.
  - by rewrite app_nil_r.
  - simpl in Hn. unfold try_push; simpl. rewrite decide_True by lia.
    rewrite IH by (rewrite length_app; simpl; lia). simpl.
    by rewrite <- app_assoc.
Qed.

(** Popping as many times as there are buffered items returns them in
    buffer order, whether or not the channel has been terminated. *)
Lemma run_pops {A} (buf : list A) n b :
  run (replicate (length buf) OpPop) (mk buf n b)
  = Some (EvPop ∘ Some <$> buf, mk [] n b).
Proof.
  induction buf as [|x buf IH]; simpl; [done|].
  unfold try_pop; simpl. by rewrite IH.
Qed.

(** After termination nothing blocks, the flag stays up, every push is
    refused and leaves the buffer alone, and the pops hand out the buffer
    in order and then fail. *)
Lemma run_terminated {A} (ops : list (op A)) :
  ∀ buf n, ∃ evs,
    run ops (mk buf n true) = Some (evs, mk (drop (pops_in ops) buf) n true)
    ∧ Forall (fun ok => ok = false) (push_flags evs)
    ∧ pop_results evs
      = (Some <$> take (pops_in ops) buf)
        ++ replicate (pops_in ops - length buf) None.
Proof.
  induction ops as [|o ops IH]; intros buf n.
  - exists []. simpl. by rewrite drop_0.
  - destruct o as [x| |].
    + destruct (IH buf n) as (evs & Hrun & Hpush & Hpop).
      exists (EvPush false :: evs). simpl. unfold try_push; simpl.
      rewrite Hrun. simpl. split_and!; [done | by constructor | done].
    + destruct buf as [|y buf].
      * destruct (IH [] n) as (evs & Hrun & Hpush & Hpop).
        exists (EvPop None :: evs). simpl. unfold try_pop; simpl.
        rewrite Hrun. simpl. rewrite drop_nil in *.
        split_and!; [done | done |].
        unfold pop_results in *; simpl. rewrite Hpop.
        unfold pops_in; simpl. rewrite take_nil. simpl.
        by rewrite Nat.sub_0_r.
      * destruct (IH buf n) as (evs & Hrun & Hpush & Hpop).
        exists (EvPop (Some y) :: evs). simpl. unfold try_pop; simpl.
        rewrite Hrun. simpl. split_and!; [done | done |].
        unfold pop_results in *; simpl. by rewrite Hpop.
    + destruct (IH buf n) as (evs & Hrun & Hpush & Hpop).
      exists (EvTerminate :: evs). simpl. unfold terminate; simpl.
      rewrite Hrun. simpl. split_and!; done.
Qed.

(** Pushes onto a live channel are accepted while there is room and
    refused afterwards; the accepted ones line up in call order. *)
Lemma run_pushes_bounded {A} (xs : list A) :
  ∀ buf n,
    let room := n - length buf in
    run (OpPush <$> xs) (mk buf n false)
    = Some (replicate (length (take room xs)) (EvPush true)
              ++ replicate (length xs - room) (EvPush false),
            mk (buf ++ take room xs) n false).
Proof.
  induction xs as [|x xs IH]; intros buf n; simpl.
  - rewrite take_nil. simpl. by rewrite app_nil_r.
  - unfold try_push; simpl. case_decide as Hroom.
    + rewrite IH. rewrite length_app. simpl.
      replace (n - length buf) with (S (n - (length buf + 1))) by lia.
      simpl. rewrite <- app_assoc. done.
    + replace (n - length buf) with 0 by lia. rewrite take_0. simpl.
      specialize (IH buf n). cbv zeta in IH.
      replace (n - length buf) with 0 in IH by lia.
      rewrite take_0, app_nil_r, Nat.sub_0_r in IH. simpl in IH.
      change (list_fmap A (op A) OpPush xs) with (OpPush <$> xs).
      rewrite IH. simpl. by rewrite app_nil_r.
Qed.

End AsyncQueueFacts.

(** C3: on a channel nobody else uses, items pushed are popped in the
    order they were pushed (the pushes that found room, all of them when
    their number is within the capacity); [terminate] is idempotent; after
    [terminate] every later [try_push] returns false and enqueues nothing,
    while the later [try_pop]s hand out what was buffered, in order, and
    fail from then on. *)
Theorem channel_fifo_and_termination {A : Type} :
  (∀ (xs : list A) (n : nat),
      length xs <= n ->
      AsyncQueue.run ((AsyncQueue.OpPush <$> xs)
                        ++ replicate (length xs) AsyncQueue.OpPop)
                     (AsyncQueue.create n)
      = Some (replicate (length xs) (AsyncQueue.EvPush true)
                ++ (AsyncQueue.EvPop ∘ Some <$> xs),
              AsyncQueue.create n))
  ∧ (∀ (xs : list A) (n : nat),
      AsyncQueue.run ((AsyncQueue.OpPush <$> xs)
                        ++ replicate (length (take n xs)) AsyncQueue.OpPop)
                     (AsyncQueue.create n)
      = Some ((replicate (length (take n xs)) (AsyncQueue.EvPush true)
                 ++ replicate (length xs - n) (AsyncQueue.EvPush false))
                ++ (AsyncQueue.EvPop ∘ Some <$> take n xs),
              AsyncQueue.create n))
  ∧ (∀ q : AsyncQueue.t A,
      AsyncQueue.terminate (AsyncQueue.terminate q) = AsyncQueue.terminate q)
  ∧ (∀ (q : AsyncQueue.t A) (ops : list (AsyncQueue.op A)),
      ∃ evs,
        AsyncQueue.run ops (AsyncQueue.terminate q)
        = Some (evs,
                AsyncQueue.mk (drop (AsyncQueue.pops_in ops) (AsyncQueue.items q))
                              (AsyncQueue.capacity q) true)
        ∧ Forall (fun ok => ok = false) (AsyncQueue.push_flags evs)
        ∧ AsyncQueue.pop_results evs
          = (Some <$> take (AsyncQueue.pops_in ops) (AsyncQueue.items q))
            ++ replicate (AsyncQueue.pops_in ops - length (AsyncQueue.items q))
                         None).
Proof.
  split_and!.
  - intros xs n Hn. rewrite AsyncQueueFacts.run_app.
    unfold AsyncQueue.create.
    rewrite (AsyncQueueFacts.run_pushes xs [] n) by (simpl; lia). simpl.
    rewrite AsyncQueueFacts.run_pops. done.
  - intros xs n. rewrite AsyncQueueFacts.run_app.
    unfold AsyncQueue.create.
    pose proof (AsyncQueueFacts.run_pushes_bounded xs [] n) as H.
    simpl in H. rewrite Nat.sub_0_r in H. rewrite H. simpl.
    rewrite AsyncQueueFacts.run_pops. done.
  - done.
  - intros q ops. apply AsyncQueueFacts.run_terminated.
Qed.

(** The clauses of [channel_fifo_and_termination] on the ten integers of
    the test [InputsMatchOutputs], and on a terminated channel that still
    holds two items. *)
Lemma channel_fifo_and_termination_witness :
  AsyncQueue.run ((AsyncQueue.OpPush <$> List.seq 0 10)
                    ++ replicate 10 AsyncQueue.OpPop)
                 (AsyncQueue.create 10)
  = Some (replicate 10 (AsyncQueue.EvPush true)
            ++ (AsyncQueue.EvPop ∘ Some <$> List.seq 0 10),
          AsyncQueue.create 10)
  ∧ ∃ evs,
      AsyncQueue.run [AsyncQueue.OpPush 7; AsyncQueue.OpPop; AsyncQueue.OpPop;
                      AsyncQueue.OpPop; AsyncQueue.OpPush 8]
                     (AsyncQueue.terminate (AsyncQueue.mk [1; 2] 3 false))
      = Some (evs, AsyncQueue.mk [] 3 true)
      ∧ Forall (fun ok => ok = false) (AsyncQueue.push_flags evs)
      ∧ AsyncQueue.pop_results evs = [Some 1; Some 2; None].
Proof.
  pose proof (@channel_fifo_and_termination nat) as (Hfifo & _ & _ & Hterm).
  split.
  - apply (Hfifo (List.seq 0 10) 10). simpl. lia.
  - apply (Hterm (AsyncQueue.mk [1; 2] 3 false)
                 [AsyncQueue.OpPush 7; AsyncQueue.OpPop; AsyncQueue.OpPop;
                  AsyncQueue.OpPop; AsyncQueue.OpPush 8]).
Defined.


(** ** The expander on one read *)

Lemma BASE_IDS_allowed (c : ascii) :
  c ∈ allowed_bases -> (0 <= BASE_IDS c < 4)%Z.
Proof.
  unfold allowed_bases, BASE_IDS. rewrite !elem_of_cons, elem_of_nil.
  intros [->|[->|[->|[->|[]]]]]; simpl; lia.
Qed.

Lemma BASE_IDS_other (c : ascii) :
  c ∉ allowed_bases -> BASE_IDS c = (-1)%Z.
Proof.
  unfold allowed_bases, BASE_IDS. rewrite !elem_of_cons, elem_of_nil.
  intros H. repeat case_decide; try done; exfalso; apply H; tauto.
Qed.

Lemma BASE_IDS_neg (c : ascii) :
  (BASE_IDS c < 0)%Z <-> c ∉ allowed_bases.
Proof.
  split.
  - intros Hneg Hin. apply BASE_IDS_allowed in Hin. lia.
  - intros Hout. rewrite BASE_IDS_other by done. lia.
Qed.

Lemma length_vec_resize {A} (v : list A) n x : length (vec_resize v n x) = n.
Proof.
  unfold vec_resize. rewrite length_app, length_take, length_replicate. lia.
Qed.

Lemma canonical_init_value_1 : canonical_init_value = Ok 1%Z.
Proof. reflexivity. Qed.

(** The initialisation loop stops with an exception at the first symbol
    outside the alphabet. *)
Lemma init_loop_throws (ni : NodeInfo) (rest : list ascii) :
  wf_info ni ->
  ∀ i probs,
    (i + length rest) * m_num_states ni <= length probs ->
    ¬ Forall (fun c => c ∈ allowed_bases) rest ->
    ∃ probs', init_loop ni rest i probs
              = (probs', Throw "Invalid character in sequence.").
Proof.
  intros Hwf. induction rest as [|c rest IH]; intros i probs Hlen Hbad.
  - destruct Hbad. constructor.
  - simpl. case_decide as Hneg; [by eexists|].
    assert (Hc : c ∈ allowed_bases).
    { destruct (decide (c ∈ allowed_bases)) as [|Hn]; [done|].
      apply BASE_IDS_neg in Hn. lia. }
    apply BASE_IDS_allowed in Hc as Hrange.
    destruct (Hwf (Z.to_nat (BASE_IDS c)) ltac:(lia)) as (off & Hoff & Hlt).
    rewrite Hoff. simpl. unfold vec_store.
    simpl in Hlen. rewrite decide_True by nia. simpl.
    apply IH.
    + rewrite length_insert. lia.
    + intros Hall. apply Hbad. by constructor.
Qed.

(** When the loop completes, every symbol was in the alphabet, the
    canonical entry of every position holds the byte 1, and no other
    entry was touched. *)
Lemma init_loop_spec (ni : NodeInfo) (rest : list ascii) :
  ∀ i probs probs',
    init_loop ni rest i probs = (probs', Ok ()) ->
    length probs' = length probs
    ∧ Forall (fun c => c ∈ allowed_bases) rest
    ∧ (∀ k, probs !! k = Some 1%Z -> probs' !! k = Some 1%Z)
    ∧ (∀ p c, rest !! p = Some c ->
         ∃ off, m_base_prob_offsets ni !! Z.to_nat (BASE_IDS c) = Some off
                ∧ probs' !! ((i + p) * m_num_states ni + off) = Some 1%Z)
    ∧ (∀ k, (∀ p c off, rest !! p = Some c ->
                m_base_prob_offsets ni !! Z.to_nat (BASE_IDS c) = Some off ->
                k ≠ (i + p) * m_num_states ni + off) ->
            probs' !! k = probs !! k).
Proof.
  induction rest as [|c rest IH]; intros i probs probs' H; simpl in H.
  - injection H as <-. split_and!; done.
  - case_decide as Hneg; [discriminate|].
    destruct (m_base_prob_offsets ni !! Z.to_nat (BASE_IDS c)) as [off|] eqn:Hoff;
      simpl in H; [|discriminate].
    unfold vec_store in H. case_decide as Hlt; simpl in H; [|discriminate].
    apply IH in H as (Hlen & Hall & Hones & Hin & Hout).
    rewrite length_insert in Hlen.
    assert (Hc : c ∈ allowed_bases).
    { destruct (decide (c ∈ allowed_bases)) as [|Hn]; [done|].
      apply BASE_IDS_neg in Hn. lia. }
    split_and!.
    + done.
    + by constructor.
    + intros k Hk. apply Hones.
      destruct (decide (k = i * m_num_states ni + off)) as [->|Hne].
      * by apply list_lookup_insert_eq.
      * by rewrite list_lookup_insert_ne.
    + intros [|p] c' Hp; simpl in Hp.
      * injection Hp as <-. exists off. split; [done|].
        apply Hones. rewrite Nat.add_0_r. by apply list_lookup_insert_eq.
      * destruct (Hin p c' Hp) as (off' & Hoff' & Hl). exists off'.
        split; [done|]. rewrite <- Hl. f_equal. lia.
    + intros k Hk. rewrite Hout.
      * apply list_lookup_insert_ne. intros <-.
        apply (Hk 0 c off); [done | done | lia].
      * intros p c' off' Hp Hoff'.
        specialize (Hk (S p) c' off' Hp Hoff'). lia.
Qed.

Lemma init_base_mod_probs_throws (ni : NodeInfo) (r : Read) :
  wf_info ni ->
  ¬ Forall (fun c => c ∈ allowed_bases) (seq r) ->
  ∃ r', init_base_mod_probs ni r = (r', Throw "Invalid character in sequence.")
        ∧ seq r' = seq r.
Proof.
  intros Hwf Hbad. unfold init_base_mod_probs.
  destruct (init_loop_throws ni (seq r) Hwf 0
              (vec_resize (base_mod_probs r) (length (seq r) * m_num_states ni) 0%Z))
    as [probs' ->]; [by rewrite length_vec_resize | done |].
  by eexists.
Qed.

(** ** Model metadata *)

Lemma load_inv_initial (node : option NodeInfo) :
  (∀ n, node = Some n -> 4 <= m_num_states n) ->
  load_inv (initial_model_info, node).
Proof.
  intros Hn. split_and!; simpl.
  - done.
  - repeat constructor.
  - intros n ->. specialize (Hn n eq_refl). unfold count_of. simpl. lia.
Qed.

Lemma load_params_inv (p : BaseModParams) acc acc' :
  load_inv acc -> load_params p acc = Ok acc' -> load_inv acc'.
Proof.
  destruct acc as [mi node]. intros (Hlen & Hpos & Hsum) H. simpl in *.
  destruct (string_at (motif p) (motif_offset p)) as [base| |] eqn:Hbase;
    simpl in H; try discriminate.
  case_decide as Hin; [|discriminate].
  apply BASE_IDS_allowed in Hin.
  destruct (mi !! Z.to_nat (BASE_IDS base)) as [e|] eqn:He; simpl in H; [|discriminate].
  destruct mi as [|e0 [|e1 [|e2 [|e3 [|]]]]]; try discriminate Hlen.
  apply Forall_cons in Hpos as [H0 Hpos]. apply Forall_cons in Hpos as [H1 Hpos].
  apply Forall_cons in Hpos as [H2 Hpos]. apply Forall_cons in Hpos as [H3 _].
  destruct node as [n|]; injection H as <-.
  - specialize (Hsum n eq_refl). unfold count_of in Hsum; simpl in Hsum.
    assert (Hb : Z.to_nat (BASE_IDS base) < 4) by lia.
    destruct (Z.to_nat (BASE_IDS base)) as [|[|[|[|]]]]; try lia;
      simpl in He; injection He as <-;
      (split_and!; simpl;
       [ done
       | repeat constructor; simpl; lia
       | intros n' [= <-]; unfold count_of; simpl; lia ]).
  - assert (Hb : Z.to_nat (BASE_IDS base) < 4) by lia.
    destruct (Z.to_nat (BASE_IDS base)) as [|[|[|[|]]]]; try lia;
      simpl in He; injection He as <-;
      (split_and!; simpl; [ done | repeat constructor; simpl; lia | done ]).
Qed.

Lemma load_all_params_inv (ps : list BaseModParams) :
  ∀ acc acc', load_inv acc -> load_all_params ps acc = Ok acc' -> load_inv acc'.
Proof.
  induction ps as [|p ps IH]; intros acc acc' Hinv H; simpl in H.
  - by injection H as <-.
  - destruct (load_params p acc) as [acc1| |] eqn:E; simpl in H; try discriminate.
    eapply IH; [|done]. by eapply load_params_inv.
Qed.

Lemma string_at_defined (s : list ascii) (i : Z) :
  (0 <= i <= Z.of_nat (length s))%Z -> ∃ c, string_at s i = Ok c.
Proof.
  intros Hi. unfold string_at. rewrite decide_True by lia.
  destruct (s !! Z.to_nat i) eqn:E; [by eexists|].
  apply lookup_ge_None in E. rewrite decide_True by lia. by eexists.
Qed.

Lemma load_params_length (p : BaseModParams) acc acc' :
  load_params p acc = Ok acc' -> length acc'.1 = length acc.1.
Proof.
  destruct acc as [mi node]. intros H. simpl in *.
  destruct (string_at (motif p) (motif_offset p)); simpl in H; try discriminate.
  case_decide; [|discriminate].
  destruct (mi !! Z.to_nat (BASE_IDS a)); simpl in H; [|discriminate].
  destruct node; injection H as <-; simpl; by rewrite length_insert.
Qed.

Lemma load_params_total (p : BaseModParams) acc :
  length acc.1 = 4 -> indexable p ->
  (¬ bad_context_base p ∧ ∃ acc', load_params p acc = Ok acc')
  ∨ (bad_context_base p
     ∧ load_params p acc = Throw "Invalid base in remora model metadata.").
Proof.
  destruct acc as [mi node]. intros Hlen Hidx. simpl in Hlen.
  destruct (string_at_defined _ _ Hidx) as [c Hc].
  unfold load_params, bad_context_base. rewrite Hc. simpl.
  case_decide as Hin.
  - left. split; [intros (c' & [= <-] & Hout); done|].
    apply BASE_IDS_allowed in Hin.
    destruct (mi !! Z.to_nat (BASE_IDS c)) as [e|] eqn:He.
    + simpl. destruct node; by eexists.
    + apply lookup_ge_None in He. lia.
  - right. split; [by exists c | done].
Qed.

(** The loop throws as soon as one model's context base is not a
    canonical base. *)
Lemma load_all_params_throws (ps : list BaseModParams) :
  ∀ acc,
    length acc.1 = 4 -> Forall indexable ps -> Exists bad_context_base ps ->
    load_all_params ps acc = Throw "Invalid base in remora model metadata.".
Proof.
  induction ps as [|p ps IH]; intros acc Hlen Hidx Hbad.
  - by apply Exists_nil in Hbad.
  - apply Forall_cons in Hidx as [Hp Hidx]. simpl.
    destruct (load_params_total p acc Hlen Hp) as [(Hgood & acc' & Hl)|[_ ->]];
      [|done].
    rewrite Hl. simpl. apply IH; [|done|].
    + apply load_params_length in Hl. congruence.
    + apply Exists_cons in Hbad as [|]; done.
Qed.

(** C9: malformed input is reported, not skipped.  A read whose sequence
    holds a symbol outside A, C, G, T makes the expander throw; at the
    throw no chunk of it has been put on a request queue and it has
    reached neither the working list nor the sink, and the transition that
    would start its chunk generation does not exist.  Model metadata whose
    context base is outside A, C, G, T makes the initialisation throw
    instead of returning a loaded node. *)
Theorem malformed_input_fails_loudly :
  (∀ (cfg : Config) (id : nat) (st : Node) (r : Read),
      wf_info (info cfg) ->
      reads st !! id = Some r ->
      ¬ Forall (fun c => c ∈ allowed_bases) (seq r) ->
      (∃ st', runner_handle_read cfg id st
              = (st', Throw "Invalid character in sequence.")
              ∧ m_chunk_queues st' = m_chunk_queues st
              ∧ m_working_reads st' = m_working_reads st
              ∧ sink_messages st' = sink_messages st)
      ∧ ∀ st1, runner_begin cfg id st ≠ (st1, Ok ()))
  ∧ (∀ (base_mod_params : list BaseModParams) (node : option NodeInfo),
      Forall indexable base_mod_params ->
      Exists bad_context_base base_mod_params ->
      get_modbase_info_and_maybe_init base_mod_params node
      = Throw "Invalid base in remora model metadata.").
Proof.
  split.
  - intros cfg id st r Hwf Hr Hbad.
    destruct (init_base_mod_probs_throws (info cfg) r Hwf Hbad) as (r' & Hinit & _).
    unfold runner_handle_read, runner_begin. rewrite Hr, Hinit.
    split; [by eexists|]. intros st1. discriminate.
  - intros ps node Hidx Hbad. unfold get_modbase_info_and_maybe_init.
    by rewrite load_all_params_throws.
Qed.

(** [malformed_input_fails_loudly] on the read "AN" and on a model whose
    motif is "NG". *)
Lemma malformed_input_fails_loudly_witness :
  let cfg := mkConfig 1 1 1 1 1 plain_info (fun _ _ => [0]) in
  let r := mkRead ["A"; "N"]%char [] 0 0 in
  let st := set_reads {[ 0 := r ]} (initial cfg) in
  (∃ st', runner_handle_read cfg 0 st
          = (st', Throw "Invalid character in sequence.")
          ∧ m_chunk_queues st' = m_chunk_queues st
          ∧ m_working_reads st' = m_working_reads st
          ∧ sink_messages st' = sink_messages st)
  ∧ get_modbase_info_and_maybe_init
      [mkBaseModParams ["N"; "G"]%char 0 ["m"]%char ["5mC"%string] 1]
      (Some (mkNodeInfo 4 [] []))
    = Throw "Invalid base in remora model metadata.".
Proof.
  intros cfg r st.
  pose proof malformed_input_fails_loudly as [Hread Hmeta].
  split.
  - apply (Hread cfg 0 st r).
    + intros b Hb. destruct b as [|[|[|[|]]]]; try lia; eexists; split;
        try reflexivity; simpl; lia.
    + reflexivity.
    + intros H. apply Forall_cons in H as [_ H]. apply Forall_cons in H as [H _].
      apply BASE_IDS_allowed in H. vm_compute in H. destruct H as [H _]. by apply H.
  - apply Hmeta.
    + repeat constructor; vm_compute; discriminate.
    + apply Exists_cons_hd. exists "N"%char. split; [reflexivity|].
      intros H. apply BASE_IDS_allowed in H. vm_compute in H.
      destruct H as [H _]. by apply H.
Defined.


(** ** The initial contents of a result buffer *)

Lemma init_loop_completes (ni : NodeInfo) (rest : list ascii) :
  wf_info ni ->
  ∀ i probs,
    (i + length rest) * m_num_states ni <= length probs ->
    Forall (fun c => c ∈ allowed_bases) rest ->
    ∃ probs', init_loop ni rest i probs = (probs', Ok ()).
Proof.
  intros Hwf. induction rest as [|c rest IH]; intros i probs Hlen Hall.
  - by eexists.
  - apply Forall_cons in Hall as [Hc Hall]. simpl.
    apply BASE_IDS_allowed in Hc as Hrange.
    rewrite decide_False by lia.
    destruct (Hwf (Z.to_nat (BASE_IDS c)) ltac:(lia)) as (off & Hoff & Hlt).
    rewrite Hoff. simpl. unfold vec_store.
    simpl in Hlen. rewrite decide_True by nia. simpl.
    apply IH; [|done]. rewrite length_insert. lia.
Qed.

(** On a read that arrives with an empty buffer and a sequence over the
    alphabet, the initialisation leaves [sequence length * m_num_states]
    bytes: the byte 1 at the canonical class of every position and the
    byte 0 everywhere else. *)
Lemma init_base_mod_probs_fresh (ni : NodeInfo) (r : Read) :
  wf_info ni ->
  base_mod_probs r = [] ->
  Forall (fun c => c ∈ allowed_bases) (seq r) ->
  ∃ probs,
    init_base_mod_probs ni r
    = (mkRead (seq r) probs (num_modbase_chunks r) (num_modbase_chunks_called r),
       Ok ())
    ∧ length probs = length (seq r) * m_num_states ni
    ∧ ∀ p c, seq r !! p = Some c ->
        ∃ off, m_base_prob_offsets ni !! Z.to_nat (BASE_IDS c) = Some off
               ∧ ∀ j, j < m_num_states ni ->
                   probs !! (p * m_num_states ni + j)
                   = Some (if decide (j = off) then 1%Z else 0%Z).
Proof.
  intros Hwf Hfresh Hall. unfold init_base_mod_probs. rewrite Hfresh.
  set (probs0 := vec_resize [] (length (seq r) * m_num_states ni) 0%Z).
  assert (Hlen0 : length probs0 = length (seq r) * m_num_states ni)
    by apply length_vec_resize.
  assert (Hzero : ∀ k, k < length probs0 -> probs0 !! k = Some 0%Z).
  { intros k Hk. subst probs0. unfold vec_resize in *. rewrite take_nil in *.
    simpl in *. rewrite Nat.sub_0_r in *. apply lookup_replicate_2.
    by rewrite length_replicate in Hk. }
  destruct (init_loop_completes ni (seq r) Hwf 0 probs0) as [probs Hloop];
    [simpl; lia | done |].
  rewrite Hloop. exists probs.
  apply init_loop_spec in Hloop as (Hlen & _ & _ & Hin & Hout).
  split_and!; [done | congruence |].
  intros p c Hp. destruct (Hin p c Hp) as (off & Hoff & Hone).
  exists off. split; [done|]. intros j Hj. simpl in Hone.
  case_decide as Hjo; [by subst j|].
  apply lookup_lt_Some in Hp as Hplt.
  rewrite Hout.
  - apply Hzero. rewrite Hlen0. nia.
  - intros p' c' off' Hp' Hoff'. simpl.
    apply list_elem_of_lookup_2 in Hp' as Hc'.
    rewrite Forall_forall in Hall. apply Hall, BASE_IDS_allowed in Hc'.
    destruct (Hwf (Z.to_nat (BASE_IDS c')) ltac:(lia)) as (off'' & Hoff'' & Hlt).
    assert (off'' = off') by congruence. subst off''.
    destruct (decide (p' = p)) as [->|Hne].
    + assert (c' = c) by congruence. subst c'.
      assert (off' = off) by congruence. lia.
    + nia.
Qed.

(** C2, evaluated: for the read "A" of a node without models the
    expander leaves the buffer [1; 0; 0; 0].  The canonical class holds
    the byte 1, whereas the encoding the aggregator uses for chunk results
    stores probability one as the byte 255. *)
Theorem init_stores_one_not_255 :
  init_base_mod_probs plain_info (mkRead ["A"%char] [] 0 0)
  = (mkRead ["A"%char] [1; 0; 0; 0]%Z 0 0, Ok ())
  ∧ quantize (FFinite 1) = Ok 255%Z.
Proof. split; reflexivity. Qed.


(** ** Scoring a batch and applying its results *)

Lemma result_row_Ok (results : Tensor) (i : nat) (row : list float32) :
  result_row results i = Ok row ->
  row = take (row_size results) (drop (i * row_size results) (tensor_data results))
  ∧ length row = row_size results.
Proof.
  unfold result_row. case_decide as Hfit; [|discriminate]. intros [= <-].
  split; [done|]. rewrite length_take, length_drop. lia.
Qed.

Lemma score_chunks_spec (results : Tensor) (batch : list RemoraChunk) :
  ∀ i scored,
    score_chunks results i batch = Ok scored ->
    length scored = length batch
    ∧ ∀ k chunk, batch !! k = Some chunk ->
        ∃ row, result_row results (i + k) = Ok row
               ∧ scored !! k
                 = Some (mkChunk (source_read chunk) (context_hit chunk) row).
Proof.
  induction batch as [|c batch IH]; intros i scored H; simpl in H.
  - by injection H as <-.
  - outcome_inv H. injection H as <-.
    apply IH in E0 as [Hlen Hrows]. split; [simpl; lia|].
    intros [|k] chunk Hk; simpl in Hk.
    + injection Hk as <-. exists a. by rewrite Nat.add_0_r.
    + destruct (Hrows k chunk Hk) as (row & Hrow & Hs). exists row.
      split; [|done]. rewrite <- Hrow. f_equal. lia.
Qed.

Lemma score_chunks_total (results : Tensor) (batch : list RemoraChunk) :
  ∀ i,
    (i + length batch) * row_size results <= length (tensor_data results) ->
    ∃ scored, score_chunks results i batch = Ok scored.
Proof.
  induction batch as [|c batch IH]; intros i Hfit; simpl.
  - by eexists.
  - simpl in Hfit. unfold result_row. rewrite decide_True by nia. simpl.
    destruct (IH (S i)) as [scored ->]; [simpl; lia|]. by eexists.
Qed.

(** Scoring keeps the owner and the position of every chunk. *)
Lemma score_chunks_sources (results : Tensor) (batch : list RemoraChunk) :
  ∀ i scored,
    score_chunks results i batch = Ok scored ->
    source_read <$> scored = source_read <$> batch.
Proof.
  induction batch as [|c batch IH]; intros i scored H; simpl in H.
  - by injection H as <-.
  - outcome_inv H. injection H as <-. simpl. f_equal. by eapply IH.
Qed.

Lemma score_chunks_positions (results : Tensor) (batch : list RemoraChunk) :
  ∀ i scored,
    score_chunks results i batch = Ok scored ->
    context_hit <$> scored = context_hit <$> batch.
Proof.
  induction batch as [|c batch IH]; intros i scored H; simpl in H.
  - by injection H as <-.
  - outcome_inv H. injection H as <-. simpl. f_equal. by eapply IH.
Qed.

Lemma chunk_offset_Ok (ni : NodeInfo) (read_seq : list ascii) (pos off : nat) :
  chunk_offset ni read_seq pos = Ok off ->
  ∃ base, read_seq !! pos = Some base ∧ base ∈ allowed_bases
          ∧ m_base_prob_offsets ni !! Z.to_nat (BASE_IDS base) = Some off.
Proof.
  unfold chunk_offset, string_at. rewrite decide_True by lia.
  rewrite Nat2Z.id. destruct (read_seq !! pos) as [base|] eqn:Hb; simpl.
  - case_decide as Hid; [|discriminate]. intros H%of_option_Ok.
    exists base. split_and!; [done | | done].
    destruct (decide (base ∈ allowed_bases)) as [|Hn]; [done|].
    apply BASE_IDS_neg in Hn. lia.
  - case_decide; simpl; discriminate.
Qed.

(** What the aggregator does with one scored chunk. *)
Lemma apply_chunk_spec (ni : NodeInfo) (reads reads' : gmap nat Read)
    (chunk : RemoraChunk) :
  apply_chunk ni reads chunk = Ok reads' ->
  ∃ r base off probs,
    reads !! source_read chunk = Some r
    ∧ seq r !! context_hit chunk = Some base
    ∧ base ∈ allowed_bases
    ∧ m_base_prob_offsets ni !! Z.to_nat (BASE_IDS base) = Some off
    ∧ reads' = <[source_read chunk :=
                   mkRead (seq r) probs (num_modbase_chunks r)
                          (num_modbase_chunks_called r + 1)]> reads
    ∧ length probs = length (base_mod_probs r)
    ∧ (∀ j s, scores chunk !! j = Some s ->
         ∃ b, quantize s = Ok b
              ∧ probs !! (m_num_states ni * context_hit chunk + off + j)
                = Some b)
    ∧ (∀ k, k < m_num_states ni * context_hit chunk + off
            ∨ m_num_states ni * context_hit chunk + off
              + length (scores chunk) <= k ->
         probs !! k = base_mod_probs r !! k).
Proof.
  unfold apply_chunk. intros H. outcome_inv H. injection H as <-.
  apply of_option_Ok in E. apply chunk_offset_Ok in E0 as (base & Hb & Hin & Hoff).
  apply store_scores_spec in E1 as (Hlen & _ & Hw & Hout).
  exists a, base, a0, a1. split_and!; try done.
  - intros j s Hj. destruct (Hw j s Hj) as (b & Hq & Hl).
    exists b. split; [done|]. by rewrite Nat.add_0_r in Hl.
  - intros k Hk. apply Hout. lia.
Qed.

(** Applying a list of scored chunks changes nothing of a read but its
    buffer and its completed-chunk counter, which grows by one for every
    chunk of that read in the list. *)
Lemma apply_chunks_counts (ni : NodeInfo) (chunks : list RemoraChunk) :
  ∀ (reads reads' : gmap nat Read),
    apply_chunks ni reads chunks = Ok reads' ->
    ∀ id,
      match reads !! id, reads' !! id with
      | Some r, Some r' =>
          seq r' = seq r
          ∧ num_modbase_chunks r' = num_modbase_chunks r
          ∧ num_modbase_chunks_called r'
            = num_modbase_chunks_called r
              + length (filter (fun c => source_read c = id) chunks)
      | None, None => True
      | _, _ => False
      end.
Proof.
  induction chunks as [|c chunks IH]; intros reads reads' H id; simpl in H.
  - injection H as <-. destruct (reads !! id); [|done].
    split_and!; [done | done | simpl; lia].
  - destruct (apply_chunk ni reads c) as [reads1| |] eqn:E; simpl in H;
      try discriminate.
    apply apply_chunk_spec in E
      as (r & base & off & probs & Hr & _ & _ & _ & -> & _).
    specialize (IH _ _ H id).
    rewrite filter_cons.
    destruct (decide (source_read c = id)) as [<-|Hne].
    + rewrite lookup_insert_eq in IH. rewrite Hr.
      destruct (reads' !! source_read c); [|done]. simpl in *.
      destruct IH as (-> & -> & ->). split_and!; [done | done | lia].
    + rewrite lookup_insert_ne in IH by done. done.
Qed.

Lemma store_scores_total (chunk_scores : list float32) :
  ∀ (probs : list Z) (first i : nat),
    Forall (fun s => ∃ b, quantize s = Ok b) chunk_scores ->
    first + i + length chunk_scores <= length probs ->
    ∃ probs', store_scores probs first i chunk_scores = Ok probs'.
Proof.
  induction chunk_scores as [|s rest IH]; intros probs first i Hq Hfit; simpl.
  - by eexists.
  - apply Forall_cons in Hq as [[b ->] Hq]. simpl in *.
    unfold vec_store. rewrite decide_True by lia. simpl.
    apply IH; [done|]. rewrite length_insert. lia.
Qed.

Lemma chunk_offset_total (ni : NodeInfo) (read_seq : list ascii)
    (pos off : nat) (base : ascii) :
  read_seq !! pos = Some base -> base ∈ allowed_bases ->
  m_base_prob_offsets ni !! Z.to_nat (BASE_IDS base) = Some off ->
  chunk_offset ni read_seq pos = Ok off.
Proof.
  intros Hb Hin Hoff. unfold chunk_offset, string_at.
  rewrite decide_True by lia. rewrite Nat2Z.id, Hb. simpl.
  apply BASE_IDS_allowed in Hin. rewrite decide_True by lia. by rewrite Hoff.
Qed.

Lemma call_current_batch_spec (results : Tensor) (caller_id : nat)
    (st st' : Node) :
  call_current_batch results caller_id st = Ok st' ->
  ∃ batch scored,
    m_batched_chunks st !! caller_id = Some batch
    ∧ score_chunks results 0 batch = Ok scored
    ∧ st' = set_m_batched_chunks (<[caller_id := []]> (m_batched_chunks st))
              (set_m_processed_chunks (m_processed_chunks st ++ scored) st).
Proof.
  unfold call_current_batch. intros H. outcome_inv H. injection H as <-.
  apply of_option_Ok in E. by exists a, a0.
Qed.

(** The aggregator's step on one chunk is defined whenever the chunk
    points at a read of the store and at a canonical base of it, its
    scores quantise, and its target range lies inside the buffer. *)
Lemma apply_chunk_total (ni : NodeInfo) (reads : gmap nat Read)
    (chunk : RemoraChunk) (r : Read) (base : ascii) (off : nat) :
  reads !! source_read chunk = Some r ->
  seq r !! context_hit chunk = Some base ->
  base ∈ allowed_bases ->
  m_base_prob_offsets ni !! Z.to_nat (BASE_IDS base) = Some off ->
  Forall (fun s => ∃ b, quantize s = Ok b) (scores chunk) ->
  m_num_states ni * context_hit chunk + off + length (scores chunk)
  <= length (base_mod_probs r) ->
  ∃ probs,
    apply_chunk ni reads chunk
    = Ok (<[source_read chunk :=
              mkRead (seq r) probs (num_modbase_chunks r)
                     (num_modbase_chunks_called r + 1)]> reads)
    ∧ length probs = length (base_mod_probs r)
    ∧ (∀ j s, scores chunk !! j = Some s ->
         ∃ b, quantize s = Ok b
              ∧ probs !! (m_num_states ni * context_hit chunk + off + j)
                = Some b)
    ∧ (∀ k, k < m_num_states ni * context_hit chunk + off
            ∨ m_num_states ni * context_hit chunk + off
              + length (scores chunk) <= k ->
         probs !! k = base_mod_probs r !! k).
Proof.
  intros Hr Hb Hin Hoff Hq Hfit.
  destruct (store_scores_total (scores chunk) (base_mod_probs r)
              (m_num_states ni * context_hit chunk + off) 0 Hq)
    as [probs Hst]; [lia|].
  assert (Happ : apply_chunk ni reads chunk
                 = Ok (<[source_read chunk :=
                           mkRead (seq r) probs (num_modbase_chunks r)
                                  (num_modbase_chunks_called r + 1)]> reads)).
  { unfold apply_chunk. rewrite Hr. simpl.
    rewrite (chunk_offset_total ni (seq r) _ off base) by done. simpl.
    by rewrite Hst. }
  exists probs. split; [done|].
  apply store_scores_spec in Hst as (Hlen & _ & Hw & Hout).
  split_and!; [done | |].
  - intros j s Hj. destruct (Hw j s Hj) as (b & Hb' & Hl).
    exists b. split; [done|]. by rewrite Nat.add_0_r in Hl.
  - intros k Hk. apply Hout. lia.
Qed.

(** C5.  Dispatcher: scoring a batch writes row [i] of the result tensor
    into chunk [i], appends every chunk of the batch once, in batch order,
    to the chunks awaiting the aggregator, and leaves the batch empty.
    Aggregator: element [j] of a chunk's scores goes, quantised, to index
    [m_num_states * position + offset of the base at that position + j] of
    the owning read's buffer, nothing else in the buffer changes, and the
    read's completed-chunk counter grows by one per chunk applied. *)
Theorem scoring_and_scatter :
  (∀ (results : Tensor) (caller_id : nat) (st : Node) (batch : list RemoraChunk),
      m_batched_chunks st !! caller_id = Some batch ->
      length batch * row_size results <= length (tensor_data results) ->
      ∃ st' scored,
        call_current_batch results caller_id st = Ok st'
        ∧ m_processed_chunks st' = m_processed_chunks st ++ scored
        ∧ length scored = length batch
        ∧ (∀ i chunk, batch !! i = Some chunk ->
             scored !! i
             = Some (mkChunk (source_read chunk) (context_hit chunk)
                       (take (row_size results)
                          (drop (i * row_size results) (tensor_data results)))))
        ∧ m_batched_chunks st' = <[caller_id := []]> (m_batched_chunks st))
  ∧ (∀ (ni : NodeInfo) (reads : gmap nat Read) (chunk : RemoraChunk)
       (r : Read) (base : ascii) (off : nat),
      reads !! source_read chunk = Some r ->
      seq r !! context_hit chunk = Some base ->
      base ∈ allowed_bases ->
      m_base_prob_offsets ni !! Z.to_nat (BASE_IDS base) = Some off ->
      Forall (fun s => ∃ b, quantize s = Ok b) (scores chunk) ->
      m_num_states ni * context_hit chunk + off + length (scores chunk)
      <= length (base_mod_probs r) ->
      ∃ probs,
        apply_chunk ni reads chunk
        = Ok (<[source_read chunk :=
                  mkRead (seq r) probs (num_modbase_chunks r)
                         (num_modbase_chunks_called r + 1)]> reads)
        ∧ length probs = length (base_mod_probs r)
        ∧ (∀ j s, scores chunk !! j = Some s ->
             ∃ b, quantize s = Ok b
                  ∧ probs !! (m_num_states ni * context_hit chunk + off + j)
                    = Some b)
        ∧ (∀ k, k < m_num_states ni * context_hit chunk + off
                ∨ m_num_states ni * context_hit chunk + off
                  + length (scores chunk) <= k ->
             probs !! k = base_mod_probs r !! k))
  ∧ (∀ (ni : NodeInfo) (chunks : list RemoraChunk)
       (reads reads' : gmap nat Read) (id : nat) (r : Read),
      apply_chunks ni reads chunks = Ok reads' ->
      reads !! id = Some r ->
      ∃ r', reads' !! id = Some r'
            ∧ num_modbase_chunks r' = num_modbase_chunks r
            ∧ num_modbase_chunks_called r'
              = num_modbase_chunks_called r
                + length (filter (fun c => source_read c = id) chunks)).
Proof.
  split_and!.
  - intros results caller_id st batch Hb Hfit.
    destruct (score_chunks_total results batch 0) as [scored Hs]; [simpl; lia|].
    unfold call_current_batch. rewrite Hb. simpl. rewrite Hs. simpl.
    eexists _, scored. split; [done|].
    apply score_chunks_spec in Hs as [Hlen Hrows].
    split_and!; [done | done | | done].
    intros i chunk Hi. destruct (Hrows i chunk Hi) as (row & Hrow & ->).
    apply result_row_Ok in Hrow as [-> _]. done.
  - apply apply_chunk_total.
  - intros ni chunks reads reads' id r Happ Hr.
    pose proof (apply_chunks_counts ni chunks reads reads' Happ id) as H.
    rewrite Hr in H. destruct (reads' !! id) as [r'|]; [|done].
    exists r'. destruct H as (_ & Hnum & Hcalled). done.
Qed.

(** [scoring_and_scatter] on a batch of two chunks of the read "ACG":
    scored with a two-column tensor, then applied to position 1. *)
Lemma scoring_and_scatter_witness :
  (∃ st' scored,
      call_current_batch
        (mkTensor 2 [FFinite (1 # 4); FFinite (3 # 4); FFinite 0; FFinite 1]) 0
        (set_m_batched_chunks [[mkChunk 0 1 []; mkChunk 0 1 []]]
           (initial (mkConfig 2 1 1 1 1 info_5mC (fun _ _ => [1]))))
      = Ok st'
      ∧ m_processed_chunks st' = [] ++ scored
      ∧ scored !! 1 = Some (mkChunk 0 1 [FFinite 0; FFinite 1])
      ∧ m_batched_chunks st' = [[]])
  ∧ (∃ probs,
      apply_chunk info_5mC
        {[ 0 := mkRead ["A"; "C"; "G"]%char (replicate 15 0%Z) 1 0 ]}
        (mkChunk 0 1 [FFinite (1 # 4); FFinite (3 # 4)])
      = Ok {[ 0 := mkRead ["A"; "C"; "G"]%char probs 1 1 ]}
      ∧ probs !! (5 * 1 + 1 + 0) = Some 64%Z
      ∧ probs !! (5 * 1 + 1 + 1) = Some 192%Z).
Proof.
  pose proof scoring_and_scatter as (Hcall & Happly & _).
  split.
  - destruct (Hcall
        (mkTensor 2 [FFinite (1 # 4); FFinite (3 # 4); FFinite 0; FFinite 1]) 0
        (set_m_batched_chunks [[mkChunk 0 1 []; mkChunk 0 1 []]]
           (initial (mkConfig 2 1 1 1 1 info_5mC (fun _ _ => [1]))))
        [mkChunk 0 1 []; mkChunk 0 1 []] eq_refl)
      as (st' & scored & Hok & Hproc & _ & Hrows & Hbatch); [simpl; lia|].
    exists st', scored. split_and!; [done | done | | done].
    by apply (Hrows 1 (mkChunk 0 1 [])).
  - destruct (Happly info_5mC
        {[ 0 := mkRead ["A"; "C"; "G"]%char (replicate 15 0%Z) 1 0 ]}
        (mkChunk 0 1 [FFinite (1 # 4); FFinite (3 # 4)])
        (mkRead ["A"; "C"; "G"]%char (replicate 15 0%Z) 1 0) "C"%char 1)
      as (probs & Hok & _ & Hw & _).
    + reflexivity.
    + reflexivity.
    + unfold allowed_bases. rewrite !elem_of_cons. tauto.
    + reflexivity.
    + repeat constructor; eexists; reflexivity.
    + simpl. lia.
    + exists probs. simpl in Hok. rewrite insert_singleton_eq in Hok.
      split; [done|].
      destruct (Hw 0 (FFinite (1 # 4)) eq_refl) as (b0 & Hq0 & Hl0).
      destruct (Hw 1 (FFinite (3 # 4)) eq_refl) as (b1 & Hq1 & Hl1).
      injection Hq0 as <-. injection Hq1 as <-. done.
Defined.


(** ** The layout of a result buffer *)

(** After the initialisation the classes of every canonical base fit
    between its offset and the end of a position's block. *)
Lemma init_layout (base_mod_params : list BaseModParams) (n0 ni : NodeInfo)
    (result : Info) (model_info : list ModelInfo) :
  get_modbase_info_and_maybe_init base_mod_params (Some n0)
  = Ok (result, Some ni, model_info) ->
  4 <= m_num_states n0 ->
  ∀ b, b < 4 ->
    ∃ off, m_base_prob_offsets ni !! b = Some off
           ∧ 1 <= count_of model_info b
           ∧ off + count_of model_info b <= m_num_states ni.
Proof.
  unfold get_modbase_info_and_maybe_init. intros H Hn0.
  destruct (load_all_params base_mod_params (initial_model_info, Some n0))
    as [[mi node1]| |] eqn:Hload; simpl in H; try discriminate.
  apply load_all_params_inv in Hload as (Hlen & Hpos & Hsum);
    [|apply load_inv_initial; by intros n [= <-]].
  simpl in *.
  destruct (collect_info mi (bool_decide (is_Some node1))) as [res ctx].
  injection H as _ Hni <-.
  destruct node1 as [n1|]; [|discriminate]. injection Hni as <-. simpl.
  specialize (Hsum n1 eq_refl).
  destruct mi as [|e0 [|e1 [|e2 [|e3 [|]]]]]; try discriminate Hlen.
  apply Forall_cons in Hpos as [H0 Hpos]. apply Forall_cons in Hpos as [H1 Hpos].
  apply Forall_cons in Hpos as [H2 Hpos]. apply Forall_cons in Hpos as [H3 _].
  unfold count_of in *. simpl in *.
  intros b Hb. destruct b as [|[|[|[|]]]]; try lia; simpl;
    eexists; (split; [reflexivity|]); lia.
Qed.

Lemma init_wf_info (base_mod_params : list BaseModParams) (n0 ni : NodeInfo)
    (result : Info) (model_info : list ModelInfo) :
  get_modbase_info_and_maybe_init base_mod_params (Some n0)
  = Ok (result, Some ni, model_info) ->
  4 <= m_num_states n0 ->
  wf_info ni.
Proof.
  intros H Hn0 b Hb.
  destruct (init_layout _ _ _ _ _ H Hn0 b Hb) as (off & Hoff & Hpos & Hfit).
  exists off. split; [done | lia].
Qed.

(** ** Stores in any order *)

Lemma do_writes_app (ws1 ws2 : list (nat * Z)) (probs : list Z) :
  do_writes (ws1 ++ ws2) probs = do_writes ws2 (do_writes ws1 probs).
Proof. apply foldl_app. Qed.

Lemma do_writes_insert (ws : list (nat * Z)) :
  ∀ (probs : list Z) (k : nat) (b : Z),
    (∀ w, w ∈ ws -> w.1 ≠ k) ->
    do_writes ws (<[k := b]> probs) = <[k := b]> (do_writes ws probs).
Proof.
  induction ws as [|w ws IH]; intros probs k b Hk; [done|]. simpl.
  rewrite list_insert_insert_ne by (apply Hk; left).
  apply IH. intros w' Hw'. apply Hk. by right.
Qed.

(** Stores to disjoint indices: every interleaving gives what running
    the first list and then the second gives. *)
Lemma do_writes_interleave (ws1 ws2 l : list (nat * Z)) :
  interleave ws1 ws2 l ->
  (∀ w1 w2, w1 ∈ ws1 -> w2 ∈ ws2 -> w1.1 ≠ w2.1) ->
  ∀ probs, do_writes l probs = do_writes (ws1 ++ ws2) probs.
Proof.
  induction 1 as [|x l1 l2 l Hi IH|x l1 l2 l Hi IH]; intros Hdis probs.
  - done.
  - simpl. apply IH. intros w1 w2 H1 H2. apply Hdis; [by right | done].
  - simpl. rewrite IH by (intros w1 w2 H1 H2; apply Hdis; [done | by right]).
    rewrite !do_writes_app. simpl. f_equal.
    apply do_writes_insert. intros w Hw. apply Hdis; [done | left].
Qed.

Lemma elem_of_writes_of (first : nat) (bytes : list Z) (w : nat * Z) :
  w ∈ writes_of first bytes -> first <= w.1 < first + length bytes.
Proof.
  unfold writes_of. intros (j & b & -> & Hj)%elem_of_lookup_imap.
  apply lookup_lt_Some in Hj. simpl. lia.
Qed.

(** The inner loop of the aggregator is the list of its stores. *)
Lemma store_scores_as_writes (chunk_scores : list float32) :
  ∀ (probs probs' : list Z) (first i : nat),
    store_scores probs first i chunk_scores = Ok probs' ->
    ∃ bytes,
      Forall2 (fun s b => quantize s = Ok b) chunk_scores bytes
      ∧ probs' = do_writes (writes_of (first + i) bytes) probs.
Proof.
  induction chunk_scores as [|s rest IH]; intros probs probs' first i H;
    simpl in H.
  - injection H as <-. exists []. by split.
  - outcome_inv H. apply vec_store_Ok in E0 as [_ ->].
    apply IH in H as (bytes & Hq & ->).
    exists (a :: bytes). split; [by constructor|].
    unfold writes_of. simpl. rewrite Nat.add_0_r. f_equal.
    apply imap_ext. intros j b _. simpl. f_equal. lia.
Qed.

Section TwoChunks.

Variables (base_mod_params : list BaseModParams) (n0 ni : NodeInfo)
          (result : Info) (model_info : list ModelInfo).
Hypothesis Hinit :
  get_modbase_info_and_maybe_init base_mod_params (Some n0)
  = Ok (result, Some ni, model_info).
Hypothesis Hn0 : 4 <= m_num_states n0.

(** A chunk whose score vector is no longer than the class count of the
    base it sits on writes inside the block of its position. *)
Lemma range_in_block (base : ascii) (pos len : nat) :
  base ∈ allowed_bases ->
  len <= count_of model_info (Z.to_nat (BASE_IDS base)) ->
  ∃ off,
    m_base_prob_offsets ni !! Z.to_nat (BASE_IDS base) = Some off
    ∧ m_num_states ni * pos + off + len <= m_num_states ni * (pos + 1).
Proof.
  intros Hin Hlen. apply BASE_IDS_allowed in Hin.
  destruct (init_layout _ _ _ _ _ Hinit Hn0 (Z.to_nat (BASE_IDS base)))
    as (off & Hoff & _ & Hfit); [lia|].
  exists off. split; [done | nia].
Qed.

(** Two chunks of one read applied one after the other. *)
Lemma apply_pair (reads : gmap nat Read) (r : Read) (c1 c2 : RemoraChunk)
    (b1 b2 : ascii) :
  source_read c2 = source_read c1 ->
  reads !! source_read c1 = Some r ->
  length (base_mod_probs r) = length (seq r) * m_num_states ni ->
  seq r !! context_hit c1 = Some b1 -> b1 ∈ allowed_bases ->
  seq r !! context_hit c2 = Some b2 -> b2 ∈ allowed_bases ->
  context_hit c1 ≠ context_hit c2 ->
  length (scores c1) <= count_of model_info (Z.to_nat (BASE_IDS b1)) ->
  length (scores c2) <= count_of model_info (Z.to_nat (BASE_IDS b2)) ->
  Forall (fun s => ∃ b, quantize s = Ok b) (scores c1) ->
  Forall (fun s => ∃ b, quantize s = Ok b) (scores c2) ->
  ∃ off1 off2 probs bytes1 bytes2,
    m_base_prob_offsets ni !! Z.to_nat (BASE_IDS b1) = Some off1
    ∧ m_base_prob_offsets ni !! Z.to_nat (BASE_IDS b2) = Some off2
    ∧ apply_chunks ni reads [c1; c2]
      = Ok (<[source_read c1 :=
                mkRead (seq r) probs (num_modbase_chunks r)
                       (num_modbase_chunks_called r + 1 + 1)]> reads)
    ∧ length probs = length (base_mod_probs r)
    ∧ (∀ j s, scores c1 !! j = Some s ->
         ∃ b, quantize s = Ok b
              ∧ probs !! (m_num_states ni * context_hit c1 + off1 + j) = Some b)
    ∧ (∀ j s, scores c2 !! j = Some s ->
         ∃ b, quantize s = Ok b
              ∧ probs !! (m_num_states ni * context_hit c2 + off2 + j) = Some b)
    ∧ (∀ k, ¬ (m_num_states ni * context_hit c1 + off1 <= k
                < m_num_states ni * context_hit c1 + off1 + length (scores c1)) ->
            ¬ (m_num_states ni * context_hit c2 + off2 <= k
                < m_num_states ni * context_hit c2 + off2 + length (scores c2)) ->
            probs !! k = base_mod_probs r !! k)
    ∧ Forall2 (fun s b => quantize s = Ok b) (scores c1) bytes1
    ∧ Forall2 (fun s b => quantize s = Ok b) (scores c2) bytes2
    ∧ probs
      = do_writes
          (writes_of (m_num_states ni * context_hit c1 + off1) bytes1
             ++ writes_of (m_num_states ni * context_hit c2 + off2) bytes2)
          (base_mod_probs r).
Proof.
  intros Hsrc Hr Hlen Hb1 Hin1 Hb2 Hin2 Hne Hl1 Hl2 Hq1 Hq2.
  destruct (range_in_block b1 (context_hit c1) _ Hin1 Hl1) as (off1 & Ho1 & Hf1).
  destruct (range_in_block b2 (context_hit c2) _ Hin2 Hl2) as (off2 & Ho2 & Hf2).
  apply lookup_lt_Some in Hb1 as Hp1. apply lookup_lt_Some in Hb2 as Hp2.
  set (ns := m_num_states ni) in *.
  set (p1 := context_hit c1) in *. set (p2 := context_hit c2) in *.
  (* first chunk *)
  assert (Hst1 : ∃ probs1,
             store_scores (base_mod_probs r) (ns * p1 + off1) 0 (scores c1)
             = Ok probs1).
  { apply store_scores_total; [done | nia]. }
  destruct Hst1 as [probs1 Hst1].
  assert (Happ1 : apply_chunk ni reads c1
                  = Ok (<[source_read c1 :=
                            mkRead (seq r) probs1 (num_modbase_chunks r)
                                   (num_modbase_chunks_called r + 1)]> reads)).
  { unfold apply_chunk. rewrite Hr. simpl.
    rewrite (chunk_offset_total ni (seq r) _ off1 b1) by done. simpl.
    fold ns p1. by rewrite Hst1. }
  pose proof Hst1 as Hw1. apply store_scores_as_writes in Hw1 as (bytes1 & HB1 & Hd1).
  apply store_scores_spec in Hst1 as (Hlen1 & _ & Hin1' & Hout1).
  (* second chunk *)
  assert (Hst2 : ∃ probs2,
             store_scores probs1 (ns * p2 + off2) 0 (scores c2) = Ok probs2).
  { apply store_scores_total; [done | nia]. }
  destruct Hst2 as [probs2 Hst2].
  pose proof Hst2 as Hw2. apply store_scores_as_writes in Hw2 as (bytes2 & HB2 & Hd2).
  exists off1, off2, probs2, bytes1, bytes2.
  assert (Hdis : ∀ k, ns * p1 + off1 <= k < ns * p1 + off1 + length (scores c1) ->
                      ns * p2 + off2 <= k < ns * p2 + off2 + length (scores c2) ->
                      False).
  { intros k H1 H2. destruct (decide (p1 < p2)); nia. }
  assert (Happ : apply_chunks ni reads [c1; c2]
                 = Ok (<[source_read c1 :=
                           mkRead (seq r) probs2 (num_modbase_chunks r)
                                  (num_modbase_chunks_called r + 1 + 1)]> reads)).
  { simpl. rewrite Happ1. simpl. unfold apply_chunk.
    rewrite Hsrc, lookup_insert_eq. simpl.
    rewrite (chunk_offset_total ni (seq r) _ off2 b2) by done. simpl.
    fold ns p2. rewrite Hst2. simpl. by rewrite insert_insert_eq. }
  apply store_scores_spec in Hst2 as (Hlen2 & _ & Hin2' & Hout2).
  split_and!; try done.
  - congruence.
  - intros j s Hj. destruct (Hin1' j s Hj) as (b & Hb & Hl).
    exists b. split; [done|]. rewrite Nat.add_0_r in Hl.
    rewrite Hout2; [done|]. apply lookup_lt_Some in Hj.
    destruct (decide (ns * p1 + off1 + j < ns * p2 + off2 + 0)); [by left|].
    right. destruct (decide (ns * p2 + off2 + 0 + length (scores c2)
                             <= ns * p1 + off1 + j)); [done|].
    exfalso. apply (Hdis (ns * p1 + off1 + j)); lia.
  - intros j s Hj. destruct (Hin2' j s Hj) as (b & Hb & Hl).
    exists b. split; [done|]. by rewrite Nat.add_0_r in Hl.
  - intros k Hk1 Hk2. rewrite Hout2 by lia. apply Hout1. lia.
  - rewrite do_writes_app. rewrite Nat.add_0_r in Hd1, Hd2. by rewrite <- Hd1.
Qed.

End TwoChunks.

(** C8: two chunks of one read at different positions, each with a score
    vector no longer than the class count of the base it sits on, write
    disjoint index ranges of the buffer:
    [m_num_states * p + offset(base at p)] onwards, one index per score.
    Applying them in either order gives the same read, each chunk's slice
    holds that chunk's quantised scores, and so does the buffer after any
    interleaving of the individual stores of the two chunks. *)
Theorem chunk_writes_are_disjoint
    (base_mod_params : list BaseModParams) (n0 ni : NodeInfo)
    (result : Info) (model_info : list ModelInfo)
    (reads : gmap nat Read) (r : Read) (c1 c2 : RemoraChunk) (b1 b2 : ascii) :
  get_modbase_info_and_maybe_init base_mod_params (Some n0)
  = Ok (result, Some ni, model_info) ->
  4 <= m_num_states n0 ->
  source_read c2 = source_read c1 ->
  reads !! source_read c1 = Some r ->
  length (base_mod_probs r) = length (seq r) * m_num_states ni ->
  seq r !! context_hit c1 = Some b1 -> b1 ∈ allowed_bases ->
  seq r !! context_hit c2 = Some b2 -> b2 ∈ allowed_bases ->
  context_hit c1 ≠ context_hit c2 ->
  length (scores c1) <= count_of model_info (Z.to_nat (BASE_IDS b1)) ->
  length (scores c2) <= count_of model_info (Z.to_nat (BASE_IDS b2)) ->
  Forall (fun s => ∃ b, quantize s = Ok b) (scores c1) ->
  Forall (fun s => ∃ b, quantize s = Ok b) (scores c2) ->
  ∃ off1 off2 probs bytes1 bytes2,
    let first1 := m_num_states ni * context_hit c1 + off1 in
    let first2 := m_num_states ni * context_hit c2 + off2 in
    m_base_prob_offsets ni !! Z.to_nat (BASE_IDS b1) = Some off1
    ∧ m_base_prob_offsets ni !! Z.to_nat (BASE_IDS b2) = Some off2
    ∧ (∀ k, ¬ (first1 <= k < first1 + length (scores c1)
               ∧ first2 <= k < first2 + length (scores c2)))
    ∧ apply_chunks ni reads [c1; c2]
      = Ok (<[source_read c1 :=
                mkRead (seq r) probs (num_modbase_chunks r)
                       (num_modbase_chunks_called r + 1 + 1)]> reads)
    ∧ apply_chunks ni reads [c2; c1] = apply_chunks ni reads [c1; c2]
    ∧ (∀ j s, scores c1 !! j = Some s ->
         ∃ b, quantize s = Ok b ∧ probs !! (first1 + j) = Some b)
    ∧ (∀ j s, scores c2 !! j = Some s ->
         ∃ b, quantize s = Ok b ∧ probs !! (first2 + j) = Some b)
    ∧ Forall2 (fun s b => quantize s = Ok b) (scores c1) bytes1
    ∧ Forall2 (fun s b => quantize s = Ok b) (scores c2) bytes2
    ∧ ∀ l, interleave (writes_of first1 bytes1) (writes_of first2 bytes2) l ->
           do_writes l (base_mod_probs r) = probs.
Proof.
  intros Hinit Hn0 Hsrc Hr Hlen Hb1 Hin1 Hb2 Hin2 Hne Hl1 Hl2 Hq1 Hq2.
  destruct (apply_pair _ _ _ _ _ Hinit Hn0 reads r c1 c2 b1 b2)
    as (off1 & off2 & probs & bytes1 & bytes2 & Ho1 & Ho2 & Happ & Hlp & Hs1
        & Hs2 & Hout & HB1 & HB2 & Hdo); try done.
  rewrite <- Hsrc in Hr.
  destruct (apply_pair _ _ _ _ _ Hinit Hn0 reads r c2 c1 b2 b1)
    as (off2' & off1' & probs' & _ & _ & Ho2' & Ho1' & Happ' & Hlp' & Hs2'
        & Hs1' & Hout' & _ & _ & _); try done.
  rewrite Hsrc in Hr, Happ'.
  assert (off1' = off1) by congruence. assert (off2' = off2) by congruence.
  subst off1' off2'.
  apply lookup_lt_Some in Hb1 as Hp1. apply lookup_lt_Some in Hb2 as Hp2.
  destruct (range_in_block _ _ _ _ _ Hinit Hn0 b1 (context_hit c1) _ Hin1 Hl1)
    as (o1 & Ho1'' & Hf1).
  destruct (range_in_block _ _ _ _ _ Hinit Hn0 b2 (context_hit c2) _ Hin2 Hl2)
    as (o2 & Ho2'' & Hf2).
  assert (o1 = off1) by congruence. assert (o2 = off2) by congruence.
  subst o1 o2.
  set (first1 := m_num_states ni * context_hit c1 + off1) in *.
  set (first2 := m_num_states ni * context_hit c2 + off2) in *.
  assert (Hdis : ∀ k, ¬ (first1 <= k < first1 + length (scores c1)
                         ∧ first2 <= k < first2 + length (scores c2))).
  { intros k [H1 H2]. subst first1 first2.
    destruct (decide (context_hit c1 < context_hit c2)); nia. }
  assert (Heq : probs' = probs).
  { apply list_eq. intros k.
    destruct (decide (first1 <= k < first1 + length (scores c1))) as [Hk1|Hk1].
    - destruct (lookup_lt_is_Some_2 (scores c1) (k - first1)) as [s Hs]; [lia|].
      destruct (Hs1 _ _ Hs) as (b & Hq & Hl).
      destruct (Hs1' _ _ Hs) as (b' & Hq' & Hl').
      replace (first1 + (k - first1)) with k in * by lia. congruence.
    - destruct (decide (first2 <= k < first2 + length (scores c2))) as [Hk2|Hk2].
      + destruct (lookup_lt_is_Some_2 (scores c2) (k - first2)) as [s Hs]; [lia|].
        destruct (Hs2 _ _ Hs) as (b & Hq & Hl).
        destruct (Hs2' _ _ Hs) as (b' & Hq' & Hl').
        replace (first2 + (k - first2)) with k in * by lia. congruence.
      + rewrite Hout, Hout' by done. done. }
  subst probs'.
  exists off1, off2, probs, bytes1, bytes2. cbv zeta. fold first1 first2.
  split_and!; try done.
  - by rewrite Happ, Happ'.
  - intros l Hl. rewrite Hdo. apply do_writes_interleave; [done|].
    intros w1 w2 Hw1%elem_of_writes_of Hw2%elem_of_writes_of.
    apply Forall2_length in HB1, HB2. intros Heq.
    apply (Hdis w1.1). split; [lia|]. rewrite Heq. lia.
Qed.

(** [chunk_writes_are_disjoint] with the 5mC model on the read "CGCG":
    chunks at positions 0 and 2. *)
Lemma chunk_writes_are_disjoint_witness :
  ∃ probs,
    apply_chunks info_5mC
      {[ 7 := mkRead ["C"; "G"; "C"; "G"]%char (replicate 20 0%Z) 2 0 ]}
      [mkChunk 7 0 [FFinite (1 # 4); FFinite (3 # 4)];
       mkChunk 7 2 [FFinite 1; FFinite 0]]
    = Ok {[ 7 := mkRead ["C"; "G"; "C"; "G"]%char probs 2 2 ]}
    ∧ apply_chunks info_5mC
        {[ 7 := mkRead ["C"; "G"; "C"; "G"]%char (replicate 20 0%Z) 2 0 ]}
        [mkChunk 7 2 [FFinite 1; FFinite 0];
         mkChunk 7 0 [FFinite (1 # 4); FFinite (3 # 4)]]
      = Ok {[ 7 := mkRead ["C"; "G"; "C"; "G"]%char probs 2 2 ]}
    ∧ do_writes [(1, 64%Z); (11, 255%Z); (12, 0%Z); (2, 192%Z)] (replicate 20 0%Z)
      = probs.
Proof.
  destruct (chunk_writes_are_disjoint [params_5mC] (mkNodeInfo 4 [] []) info_5mC
              (mkInfo "5mC" ["A"; "C"; "m"; "G"; "T"]%char)
              [mkModelInfo [] ["A"%char] [] 0 1;
               mkModelInfo ["5mC"%string] ["C"; "m"]%char ["C"; "G"]%char 0 2;
               mkModelInfo [] ["G"%char] [] 0 1;
               mkModelInfo [] ["T"%char] [] 0 1]
              {[ 7 := mkRead ["C"; "G"; "C"; "G"]%char (replicate 20 0%Z) 2 0 ]}
              (mkRead ["C"; "G"; "C"; "G"]%char (replicate 20 0%Z) 2 0)
              (mkChunk 7 0 [FFinite (1 # 4); FFinite (3 # 4)])
              (mkChunk 7 2 [FFinite 1; FFinite 0]) "C"%char "C"%char)
    as (off1 & off2 & probs & bytes1 & bytes2 & Ho1 & Ho2 & _ & H12 & H21 & _ & _
        & HB1 & HB2 & Hl).
  - reflexivity.
  - simpl. lia.
  - reflexivity.
  - reflexivity.
  - reflexivity.
  - reflexivity.
  - unfold allowed_bases. rewrite !elem_of_cons. tauto.
  - reflexivity.
  - unfold allowed_bases. rewrite !elem_of_cons. tauto.
  - simpl. lia.
  - vm_compute. lia.
  - vm_compute. lia.
  - repeat constructor; eexists; reflexivity.
  - repeat constructor; eexists; reflexivity.
  - injection Ho1 as <-. injection Ho2 as <-.
    rewrite H12 in H21. simpl in H12, H21.
    rewrite insert_singleton_eq in H12, H21.
    exists probs. split_and!; [exact H12 | exact H21 |].
    apply Hl.
    apply Forall2_cons_inv_l in HB1 as (x1 & r1 & [= <-] & HB1 & ->).
    apply Forall2_cons_inv_l in HB1 as (x2 & r2 & [= <-] & HB1 & ->).
    apply Forall2_nil_inv_l in HB1 as ->.
    apply Forall2_cons_inv_l in HB2 as (y1 & s1 & [= <-] & HB2 & ->).
    apply Forall2_cons_inv_l in HB2 as (y2 & s2 & [= <-] & HB2 & ->).
    apply Forall2_nil_inv_l in HB2 as ->.
    unfold writes_of. simpl.
    apply interleave_left, interleave_right, interleave_right, interleave_left,
      interleave_nil.
Defined.


(** ** A completed read left behind *)

(** Once every worker has returned, only the environment moves, and
    neither the sink nor the working list changes any more. *)
Lemma stopped_step (cfg : Config) (st st' : Node) :
  stopped st -> step cfg st st' ->
  stopped st'
  ∧ sink_messages st' = sink_messages st
  ∧ m_working_reads st' = m_working_reads st.
Proof.
  intros (Hr & Hc & Ho) Hstep.
  assert (HR : ∀ i pc, runners st !! i = Some pc -> pc = RExit)
    by (intros i pc Hi; by eapply (Forall_lookup_1 _ _ _ _ Hr)).
  assert (HC : ∀ i c, callers st !! i = Some c -> c_pc c = CExit)
    by (intros i c Hi; by eapply (Forall_lookup_1 _ _ _ _ Hc)).
  step_inv Hstep;
    try (match goal with
         | H1 : runners _ !! _ = Some _ |- _ => apply HR in H1; discriminate
         end);
    try (match goal with
         | H1 : callers _ !! _ = Some ?c, H2 : c_pc ?c = _ |- _ =>
             apply HC in H1; congruence
         end);
    try congruence; by repeat split.
Qed.

Lemma stopped_forever (cfg : Config) (st st' : Node) :
  stopped st -> rtc (step cfg) st st' ->
  sink_messages st' = sink_messages st
  ∧ m_working_reads st' = m_working_reads st.
Proof.
  intros Hs Hrtc. induction Hrtc as [|st st1 st2 Hstep _ IH]; [done|].
  destruct (stopped_step _ _ _ Hs Hstep) as (Hs1 & Hsink & Hwork).
  destruct (IH Hs1) as [-> ->]. done.
Qed.

(** C1, the run that breaks it.  On a node with one runner, one caller
    and batches of one chunk, the read "CG" yields one chunk.  The runner
    appends the chunk to the request queue before it puts the read on the
    working list; in between, the caller scores the chunk and the
    aggregator applies it and scans a working list that does not hold the
    read yet.  The input is then terminated, the threads leave one after
    the other, and the aggregator terminates the sink without another
    scan.  In the state reached the read has both counters at 1, sits on
    the working list, was never handed to the sink, and never will be. *)
Theorem completed_read_never_forwarded :
  ∃ st r,
    exec_all (small_node 1) lost_read_schedule (initial (small_node 1))
    = Some st
    ∧ reachable (small_node 1) st
    ∧ reads st !! 0 = Some r
    ∧ num_modbase_chunks r = 1
    ∧ num_modbase_chunks_called r = num_modbase_chunks r
    ∧ m_working_reads st = [0]
    ∧ sink_messages st = []
    ∧ sink_terminated st = true
    ∧ stopped st
    ∧ ∀ st', rtc (step (small_node 1)) st st' ->
             sink_messages st' = [] ∧ m_working_reads st' = [0].
Proof.
  destruct (exec_all (small_node 1) lost_read_schedule (initial (small_node 1)))
    as [st|] eqn:Hrun; [|by vm_compute in Hrun].
  assert (Hreach : reachable (small_node 1) st)
    by (eapply exec_all_reachable; [apply reach_initial | exact Hrun]).
  vm_compute in Hrun. injection Hrun as <-.
  assert (Hstop : stopped
    (mkNode {[ 0 := mkRead ["C"; "G"]%char [0; 64; 192; 0; 0; 0; 0; 0; 1; 0]%Z 1 1 ]}
       (AsyncQueue.mk [] 4 true) [[]] [[]] [] [0] [] true 0 0 true true 0
       [RExit] [mkCaller CExit 0] OExit)).
  { split_and!; simpl; [by repeat constructor | by repeat constructor | done]. }
  eexists _, _. split_and!; try reflexivity; try done.
  intros st' Hrtc. by apply (stopped_forever _ _ _ Hstop) in Hrtc.
Qed.


(** ** The shutdown cascade *)

Lemma count_where_insert {A} (f : A -> bool) (l : list A) :
  ∀ i x y, l !! i = Some x ->
    count_where f (<[i := y]> l) + (if f x then 1 else 0)
    = count_where f l + (if f y then 1 else 0).
Proof.
  induction l as [|z l IH]; intros [|i] x y Hi; simpl in *; try discriminate.
  - injection Hi as ->. lia.
  - specialize (IH i x y Hi). lia.
Qed.

Lemma count_where_pos {A} (f : A -> bool) (l : list A) i x :
  l !! i = Some x -> f x = true -> 1 <= count_where f l.
Proof.
  revert i. induction l as [|z l IH]; intros [|i] Hi Hf; simpl in *;
    try discriminate.
  - injection Hi as ->. rewrite Hf. lia.
  - specialize (IH i Hi Hf). lia.
Qed.

Lemma count_where_zero {A} (f : A -> bool) (l : list A) i x :
  count_where f l = 0 -> l !! i = Some x -> f x = false.
Proof.
  intros H0 Hi. destruct (f x) eqn:Hf; [|done].
  pose proof (count_where_pos f l i x Hi Hf). lia.
Qed.

Lemma count_where_replicate {A} (f : A -> bool) (n : nat) (x : A) :
  count_where f (replicate n x) = if f x then n else 0.
Proof. induction n as [|n IH]; simpl; [by destruct (f x)|]. destruct (f x); lia. Qed.

Lemma list_alter_as_insert {A} (g : A -> A) (l : list A) i x :
  l !! i = Some x -> alter g i l = <[i := g x]> l.
Proof.
  revert i. induction l as [|z l IH]; intros [|i] Hi; simpl in *;
    try discriminate.
  - by injection Hi as ->.
  - f_equal. by apply IH.
Qed.

Lemma caller_goto_as_insert (i : nat) (pc : caller_pc) (st : Node) (c : Caller) :
  callers st !! i = Some c ->
  caller_goto i pc st
  = set_callers (<[i := mkCaller pc (last_chunk_reserve_time c)]> (callers st)) st.
Proof.
  intros Hc. unfold caller_goto. by rewrite (list_alter_as_insert _ _ _ _ Hc).
Qed.

Lemma push_chunks_nil (batch_size : nat) (batch : list RemoraChunk) :
  push_chunks batch_size batch [] = (batch, []).
Proof. done. Qed.

Lemma shutdown_inv_initial (cfg : Config) : shutdown_inv cfg (initial cfg).
Proof.
  unfold shutdown_inv, initial; simpl. rewrite !count_where_replicate. simpl.
  rewrite !length_replicate.
  split_and!; try done.
  - intros i c [-> _]%lookup_replicate [H|[H|H]]; discriminate.
  - intros i c [-> _]%lookup_replicate [H|H]; discriminate.
Qed.

Ltac solve_count :=
  match goal with
  | Hl : ?l !! ?i = Some ?x
    |- _ = Z.of_nat (count_where ?f (<[?i := ?y]> ?l)) =>
      let Hcnt := fresh "Hcnt" in
      let Hpos := fresh "Hpos" in
      pose proof (count_where_insert f l i x y Hl) as Hcnt;
      pose proof (count_where_pos f l i x Hl) as Hpos;
      unfold runner_active, caller_active in *; simpl in *;
      repeat match goal with Hpc : c_pc _ = _ |- _ => rewrite Hpc in * end;
      simpl in *; try specialize (Hpos eq_refl); lia
  end.

(** Split a statement about every caller of an updated list into the
    updated caller and the others. *)
Ltac callers_case :=
  let i0 := fresh "j" in
  let c0 := fresh "cj" in
  let Hl := fresh "Hj" in
  let Hd := fresh "Hpc" in
  intros i0 c0 Hl Hd;
  match type of Hl with
  | <[?i := _]> _ !! _ = Some _ =>
      destruct (decide (i0 = i)) as [->|?];
      [ rewrite list_lookup_insert_eq in Hl by (eapply lookup_lt_Some; eassumption);
        injection Hl as <-; simpl in Hd
      | rewrite list_lookup_insert_ne in Hl by done ]
  end.

Ltac not_pc :=
  match goal with
  | H : draining _ |- _ => destruct H as [H|[H|H]]; congruence
  | H : flushed _ |- _ => destruct H as [H|H]; congruence
  end.

Lemma caller_active_count (st : Node) i c :
  callers st !! i = Some c -> c_pc c ≠ CExit ->
  1 <= count_where caller_active (callers st).
Proof.
  intros Hc Hpc. eapply count_where_pos; [done|].
  unfold caller_active. by rewrite bool_decide_eq_false_2.
Qed.

Lemma runner_active_count (st : Node) i pc :
  runners st !! i = Some pc -> pc ≠ RExit ->
  1 <= count_where runner_active (runners st).
Proof.
  intros Hc Hpc. eapply count_where_pos; [done|].
  unfold runner_active. by rewrite bool_decide_eq_false_2.
Qed.

Lemma shutdown_inv_step (cfg : Config) (st st' : Node) :
  shutdown_inv cfg st -> step cfg st st' -> shutdown_inv cfg st'.
Proof.
  intros (HR & HC & HTC & HTO & HD & HF & HS & HLc & HLb & HLq) Hstep.
  assert (Hsink : sink_terminated st = true ->
                  ∀ i c, callers st !! i = Some c -> c_pc c = CExit).
  { intros Ht i c Hc. destruct (HS Ht) as (_ & Hto & _). specialize (HTO Hto).
    destruct (decide (c_pc c = CExit)); [done|].
    pose proof (caller_active_count st i c Hc ltac:(done)). lia. }
  assert (Hdrain : ∀ j cj, callers st !! j = Some cj -> draining (c_pc cj) ->
                   ∀ i pc, runners st !! i = Some pc -> pc = RExit).
  { intros j cj Hj Hd i pc Hi. destruct (HD j cj Hj Hd) as [Ht _].
    specialize (HTC Ht). destruct (decide (pc = RExit)); [done|].
    pose proof (runner_active_count st i pc Hi ltac:(done)). lia. }
  step_inv Hstep.
  all: try (erewrite caller_goto_as_insert
              by (unfold caller_leave; repeat case_decide; simpl; eassumption)).
  all: unfold shutdown_inv, runner_leave, caller_leave, output_terminate.
  all: repeat case_decide.
  all: simpl.
  all: rewrite ?length_insert.
  all: split_and!; try done.
  all: try (intros; simpl in *; congruence).
  all: try solve_count.
  (* the sink is not terminated while a thread is still running *)
  all: try (intros Ht; destruct (HS Ht) as (Ho & _); congruence).
  all: try (intros Ht;
            match goal with
            | Hc : callers _ !! _ = Some _ |- _ =>
                specialize (Hsink Ht _ _ Hc); congruence
            end).
  (* a flag is not up while a thread it waits for is active *)
  all: try (intros Ht; specialize (HTC Ht);
            match goal with
            | Hr : runners _ !! _ = Some _ |- _ =>
                pose proof (runner_active_count _ _ _ Hr ltac:(done)); lia
            end).
  all: try (intros Ht; specialize (HTO Ht);
            match goal with
            | Hc : callers _ !! _ = Some ?c, Hpc : c_pc ?c = _ |- _ =>
                pose proof (caller_active_count _ _ _ Hc ltac:(congruence)); lia
            end).
  all: try (intros j cj Hj Hd; destruct (HD j cj Hj Hd); done).
  all: try (callers_case; try not_pc; try (by eapply HD); try (by eapply HF)).
  all: try (rewrite list_lookup_insert_ne by done; by eapply HF).
  all: try (apply list_lookup_insert_eq; eapply lookup_lt_Some; eassumption).
  all: try (eapply HD; [eassumption|];
            match goal with Hpc : c_pc _ = _ |- _ => rewrite Hpc end;
            unfold draining; tauto).
  all: try (eapply HF; [eassumption|];
            match goal with Hpc : c_pc _ = _ |- _ => rewrite Hpc end;
            unfold flushed; tauto).
  - intros j cj Hj Hd. specialize (Hdrain j cj Hj Hd i _ H). discriminate.
  - match goal with Hg : _ = [] ∧ _ = true |- _ => destruct Hg as [-> ?] end.
    done.
  - destruct (HD j cj Hj Hpc) as [Ht Hq]. split; [done|].
    destruct (decide (queue_of cfg j = queue_of cfg i)) as [Heq|Hne].
    + rewrite Heq in Hq. exfalso.
      match goal with Hg : ¬ (_ = [] ∧ _) |- _ => apply Hg end.
      split; [congruence | done].
    + by rewrite list_lookup_insert_ne.
  - destruct (HD j cj Hj Hpc) as [Ht Hq]. split; [done|].
    destruct (decide (queue_of cfg j = queue_of cfg i)) as [Heq|Hne].
    + rewrite Heq in Hq. exfalso.
      match goal with Hg : ¬ (_ = [] ∧ _) |- _ => apply Hg end.
      split; [congruence | done].
    + by rewrite list_lookup_insert_ne.
Qed.

Lemma shutdown_inv_reachable (cfg : Config) (st : Node) :
  reachable cfg st -> shutdown_inv cfg st.
Proof.
  induction 1 as [|st st' _ IH Hstep].
  - apply shutdown_inv_initial.
  - by eapply shutdown_inv_step.
Qed.

(** Once the last caller has raised [m_terminate_output], every caller
    has returned and no chunk is left on a request queue or in a batch. *)
Lemma shutdown_inv_all_callers_gone (cfg : Config) (st : Node) :
  shutdown_inv cfg st -> m_terminate_output st = true ->
  m_num_active_model_callers st = 0%Z
  ∧ Forall (fun c => c_pc c = CExit) (callers st)
  ∧ Forall (fun batch => batch = []) (m_batched_chunks st)
  ∧ Forall (fun chunk_queue => chunk_queue = []) (m_chunk_queues st).
Proof.
  intros (HR & HC & HTC & HTO & HD & HF & HS & HLc & HLb & HLq) Hto.
  specialize (HTO Hto).
  assert (Hexit : ∀ i c, callers st !! i = Some c -> c_pc c = CExit).
  { intros i c Hc. destruct (decide (c_pc c = CExit)); [done|].
    pose proof (caller_active_count st i c Hc ltac:(done)). lia. }
  split_and!; [done | | |].
  - apply Forall_lookup_2. intros i c Hc. by eapply Hexit.
  - apply Forall_lookup_2. intros i batch Hb.
    destruct (lookup_lt_is_Some_2 (callers st) i) as [c Hc].
    { apply lookup_lt_Some in Hb. lia. }
    assert (Hfl : flushed (c_pc c)) by (right; by eapply Hexit).
    specialize (HF i c Hc Hfl). congruence.
  - apply Forall_lookup_2. intros k q Hq.
    apply lookup_lt_Some in Hq as Hk. rewrite HLq in Hk.
    assert (Hle : num_models cfg <= num_callers cfg).
    { unfold num_models. destruct (m_num_devices cfg) as [|d]; [simpl; lia|].
      apply Nat.Div0.div_le_upper_bound. nia. }
    destruct (lookup_lt_is_Some_2 (callers st) k) as [c Hc]; [lia|].
    assert (Hdr : draining (c_pc c)) by (right; right; by eapply Hexit).
    destruct (HD k c Hc Hdr) as [_ Hqk].
    unfold queue_of in Hqk. rewrite Nat.mod_small in Hqk by done. congruence.
Qed.

(** The active-caller count changes only when a caller that has flushed
    its batch leaves. *)
Lemma decrement_after_flush (cfg : Config) (st st' : Node) :
  shutdown_inv cfg st -> step cfg st st' ->
  m_num_active_model_callers st' ≠ m_num_active_model_callers st ->
  ∃ i c, callers st !! i = Some c ∧ c_pc c = CDec
         ∧ m_batched_chunks st !! i = Some []
         ∧ m_num_active_model_callers st'
           = (m_num_active_model_callers st - 1)%Z.
Proof.
  intros (_ & _ & _ & _ & _ & HF & _) Hstep Hne.
  step_inv Hstep;
    try (unfold runner_leave in Hne; repeat case_decide; simpl in Hne; congruence).
  match goal with
  | Hc : callers st !! ?i = Some ?c |- _ =>
      exists i, c; split_and!; [done | done | |];
      [ apply (HF i c); [done | by left]
      | unfold caller_leave; case_decide; done ]
  end.
Qed.

(** A caller that has seen the termination flag leaves that control
    point only through the flush: its whole batch, scored, is appended to
    the chunks awaiting the aggregator, and only then does it stand
    before the decrement. *)
Lemma drain_goes_through_flush (cfg : Config) (st st' : Node) i c c' :
  step cfg st st' ->
  callers st !! i = Some c -> c_pc c = CDrain ->
  callers st' !! i = Some c' -> c_pc c' ≠ CDrain ->
  c_pc c' = CDec
  ∧ m_batched_chunks st' !! i = Some []
  ∧ m_num_active_model_callers st' = m_num_active_model_callers st
  ∧ ∃ batch scored,
      m_batched_chunks st !! i = Some batch
      ∧ source_read <$> scored = source_read <$> batch
      ∧ context_hit <$> scored = context_hit <$> batch
      ∧ m_processed_chunks st' = m_processed_chunks st ++ scored.
Proof.
  intros Hstep Hc Hpc Hc' Hpc'.
  step_inv Hstep.
  all: try (unfold runner_leave in Hc'; repeat case_decide; simpl in Hc';
            congruence).
  all: try (erewrite caller_goto_as_insert in Hc'
              by (unfold caller_leave; repeat case_decide; simpl; eassumption)).
  all: try (unfold caller_leave in Hc'; repeat case_decide).
  all: simpl in Hc'.
  all: match type of Hc' with
       | <[?j := _]> _ !! _ = Some _ =>
           destruct (decide (i = j)) as [->|?];
           [ rewrite list_lookup_insert_eq in Hc'
               by (eapply lookup_lt_Some; eassumption);
             injection Hc' as <-; simpl in *; try congruence
           | rewrite list_lookup_insert_ne in Hc' by done; congruence ]
       end.
  - split_and!; [done | | done |].
    + apply list_lookup_insert_eq. by eapply lookup_lt_Some.
    + eexists _, _. split_and!; [done | | | done].
      * by eapply score_chunks_sources.
      * by eapply score_chunks_positions.
  - split_and!; [done | done | done |].
    exists [], []. by rewrite app_nil_r.
Qed.

(** With the sink terminated, every caller has returned and no chunk is
    left on a request queue, in a batch or awaiting the aggregator. *)
Lemma shutdown_inv_terminated (cfg : Config) (st : Node) :
  shutdown_inv cfg st -> sink_terminated st = true ->
  m_num_active_model_callers st = 0%Z
  ∧ Forall (fun c => c_pc c = CExit) (callers st)
  ∧ m_processed_chunks st = []
  ∧ Forall (fun batch => batch = []) (m_batched_chunks st)
  ∧ Forall (fun chunk_queue => chunk_queue = []) (m_chunk_queues st).
Proof.
  intros Hinv Ht. pose proof Hinv as (_ & _ & _ & _ & _ & _ & HS & _).
  destruct (HS Ht) as (_ & Hto & Hp).
  destruct (shutdown_inv_all_callers_gone cfg st Hinv Hto) as (? & ? & ? & ?).
  split_and!; done.
Qed.

(** The sink is terminated by one transition only, taken when the last
    caller has raised its flag and nothing awaits the aggregator. *)
Lemma sink_terminated_late (cfg : Config) (st st' : Node) :
  shutdown_inv cfg st -> step cfg st st' ->
  sink_terminated st = false -> sink_terminated st' = true ->
  m_terminate_output st = true
  ∧ m_processed_chunks st = []
  ∧ m_num_active_model_callers st = 0%Z
  ∧ Forall (fun c => c_pc c = CExit) (callers st).
Proof.
  intros Hinv Hstep Hf Ht.
  step_inv Hstep;
    try (unfold runner_leave, caller_leave, caller_goto in Ht;
         repeat case_decide; simpl in Ht; congruence).
  destruct (shutdown_inv_all_callers_gone cfg st Hinv) as (? & ? & _); [done|].
  split_and!; done.
Qed.

(** C6: shutdown runs downstream and leaves no chunk behind.  In every
    reachable state: a caller that has seen termination with its queue
    empty leaves that point only by putting its whole batch, scored, on
    the list awaiting the aggregator, and the active-caller count is
    decremented only by a caller standing after that flush, with an empty
    batch; the transition that terminates the sink is taken only when the
    count is zero, every caller has returned and nothing awaits the
    aggregator; and once the sink is terminated no chunk is left on any
    request queue, in any batch or awaiting the aggregator. *)
Theorem shutdown_cascades_downstream (cfg : Config) (st : Node) :
  reachable cfg st ->
  (∀ st' i c c',
      step cfg st st' ->
      callers st !! i = Some c -> c_pc c = CDrain ->
      callers st' !! i = Some c' -> c_pc c' ≠ CDrain ->
      c_pc c' = CDec
      ∧ m_batched_chunks st' !! i = Some []
      ∧ m_num_active_model_callers st' = m_num_active_model_callers st
      ∧ ∃ batch scored,
          m_batched_chunks st !! i = Some batch
          ∧ source_read <$> scored = source_read <$> batch
          ∧ context_hit <$> scored = context_hit <$> batch
          ∧ m_processed_chunks st' = m_processed_chunks st ++ scored)
  ∧ (∀ st',
      step cfg st st' ->
      m_num_active_model_callers st' ≠ m_num_active_model_callers st ->
      ∃ i c, callers st !! i = Some c ∧ c_pc c = CDec
             ∧ m_batched_chunks st !! i = Some []
             ∧ m_num_active_model_callers st'
               = (m_num_active_model_callers st - 1)%Z)
  ∧ m_num_active_model_callers st
    = Z.of_nat (count_where caller_active (callers st))
  ∧ (∀ st',
      step cfg st st' ->
      sink_terminated st = false -> sink_terminated st' = true ->
      m_terminate_output st = true
      ∧ m_processed_chunks st = []
      ∧ m_num_active_model_callers st = 0%Z
      ∧ Forall (fun c => c_pc c = CExit) (callers st))
  ∧ (sink_terminated st = true ->
      m_num_active_model_callers st = 0%Z
      ∧ Forall (fun c => c_pc c = CExit) (callers st)
      ∧ m_processed_chunks st = []
      ∧ Forall (fun batch => batch = []) (m_batched_chunks st)
      ∧ Forall (fun chunk_queue => chunk_queue = []) (m_chunk_queues st)).
Proof.
  intros Hinv%shutdown_inv_reachable.
  split_and!.
  - intros st' i c c'. apply (drain_goes_through_flush cfg).
  - intros st'. by apply (decrement_after_flush cfg).
  - by destruct Hinv as (_ & HC & _).
  - intros st'. by apply (sink_terminated_late cfg).
  - by apply (shutdown_inv_terminated cfg).
Qed.

(** [shutdown_cascades_downstream] at the end of [orderly_schedule]: the
    sink has the read and is terminated, and nothing is pending. *)
Lemma shutdown_cascades_downstream_witness :
  ∃ st,
    exec_all (small_node 1) orderly_schedule (initial (small_node 1)) = Some st
    ∧ reachable (small_node 1) st
    ∧ sink_messages st = [0]
    ∧ sink_terminated st = true
    ∧ m_num_active_model_callers st = 0%Z
    ∧ m_processed_chunks st = []
    ∧ Forall (fun batch => batch = []) (m_batched_chunks st)
    ∧ Forall (fun chunk_queue => chunk_queue = []) (m_chunk_queues st).
Proof.
  destruct (exec_all (small_node 1) orderly_schedule (initial (small_node 1)))
    as [st|] eqn:Hrun; [|by vm_compute in Hrun].
  assert (Hreach : reachable (small_node 1) st)
    by (eapply exec_all_reachable; [apply reach_initial | exact Hrun]).
  pose proof (shutdown_cascades_downstream (small_node 1) st Hreach)
    as (_ & _ & _ & _ & Hterm).
  vm_compute in Hrun. injection Hrun as <-.
  destruct (Hterm eq_refl) as (H0 & _ & Hp & Hb & Hq).
  eexists. split_and!; try reflexivity; done.
Defined.


(** ** Backpressure *)

Lemma count_where_le_length {A} (f : A -> bool) (l : list A) :
  count_where f l <= length l.
Proof. induction l as [|x l IH]; simpl; [done|]. destruct (f x); lia. Qed.

Lemma chunk_queues_available_lookup (cfg : Config) (st : Node) k chunk_queue :
  chunk_queues_available cfg st = true ->
  m_chunk_queues st !! k = Some chunk_queue ->
  length chunk_queue < max_chunks_in cfg.
Proof.
  unfold chunk_queues_available. rewrite forallb_forall. intros Hall Hk.
  apply list_elem_of_lookup_2, list_elem_of_In, Hall in Hk.
  by apply bool_decide_eq_true in Hk.
Qed.

Lemma chunk_queues_available_Forall (cfg : Config) (st : Node) :
  chunk_queues_available cfg st = true ->
  Forall (fun chunk_queue => length chunk_queue < max_chunks_in cfg)
         (m_chunk_queues st).
Proof.
  intros Hall. apply Forall_lookup_2. intros k q Hk.
  by eapply chunk_queues_available_lookup.
Qed.

Lemma push_chunks_lengths (batch_size : nat) (queue : list RemoraChunk) :
  ∀ batch batch' queue',
    push_chunks batch_size batch queue = (batch', queue') ->
    length batch' + length queue' = length batch + length queue
    ∧ length queue' <= length queue
    ∧ batch' ++ queue' = batch ++ queue.
Proof.
  induction queue as [|c queue IH]; intros batch batch' queue' H; simpl in H.
  - injection H as <- <-. done.
  - case_decide.
    + injection H as <- <-. done.
    + apply IH in H as (Hsum & Hle & Happ). rewrite length_app in Hsum.
      simpl in *. rewrite <- app_assoc in Happ. split_and!; [lia | lia | done].
Qed.

Lemma init_base_mod_probs_seq (ni : NodeInfo) (r r1 : Read) res :
  init_base_mod_probs ni r = (r1, res) -> seq r1 = seq r.
Proof.
  unfold init_base_mod_probs.
  destruct (init_loop ni (seq r) 0 _) as [probs res']. by intros [= <- _].
Qed.

(** No transition removes a read from the store or changes its
    sequence. *)
Lemma step_keeps_sequences (cfg : Config) (st st' : Node) :
  step cfg st st' ->
  ∀ id r, reads st !! id = Some r ->
          ∃ r', reads st' !! id = Some r' ∧ seq r' = seq r.
Proof.
  intros Hstep id0 r0 Hr.
  step_inv Hstep;
    try (unfold runner_leave, caller_leave, caller_goto, output_terminate;
         repeat case_decide; simpl; by eauto).
  - simpl. exists r0. rewrite lookup_insert_ne by congruence. done.
  - simpl. destruct (decide (id = id0)) as [->|Hne].
    + rewrite lookup_insert_eq. eexists. split; [done|]. simpl.
      match goal with
      | Hi : init_base_mod_probs _ _ = _ |- _ =>
          apply init_base_mod_probs_seq in Hi; congruence
      end.
    + rewrite lookup_insert_ne by done. eauto.
  - simpl. destruct (decide (id = id0)) as [->|Hne].
    + rewrite lookup_insert_eq. eexists. split; [done|]. simpl. congruence.
    + rewrite lookup_insert_ne by done. eauto.
  - simpl.
    match goal with
    | Ha : apply_chunks _ _ _ = Ok _ |- _ =>
        pose proof (apply_chunks_counts _ _ _ _ Ha id0) as Hcnt
    end.
    rewrite Hr in Hcnt.
    match goal with
    | |- ∃ r', ?m !! id0 = Some r' ∧ _ =>
        destruct (m !! id0) as [r'|]; [|done]
    end.
    exists r'. by destruct Hcnt as (-> & _).
Qed.

Lemma hits_bounded_back (cfg : Config) (H : nat) (st st' : Node) :
  step cfg st st' -> hits_bounded cfg H st' -> hits_bounded cfg H st.
Proof.
  intros Hstep Hb id r k Hr.
  destruct (step_keeps_sequences cfg st st' Hstep id r Hr) as (r' & Hr' & <-).
  by eapply Hb.
Qed.

Lemma backpressure_inv_initial (cfg : Config) (H : nat) :
  backpressure_inv cfg H (initial cfg).
Proof.
  unfold backpressure_inv, initial; simpl. rewrite !length_replicate.
  split_and!; [done | done |].
  intros k q [-> _]%lookup_replicate. rewrite count_where_replicate. simpl. lia.
Qed.

Lemma backpressure_inv_step (cfg : Config) (H : nat) (st st' : Node) :
  hits_bounded cfg H st ->
  backpressure_inv cfg H st -> step cfg st st' -> backpressure_inv cfg H st'.
Proof.
  intros Hb (HLr & HLq & Hinv) Hstep.
  step_inv Hstep.
  all: try (erewrite caller_goto_as_insert
              by (unfold caller_leave; repeat case_decide; simpl; eassumption)).
  all: unfold backpressure_inv, runner_leave, caller_leave, output_terminate.
  all: repeat case_decide.
  all: simpl.
  all: rewrite ?length_insert.
  all: split_and!; try done.
  all: intros k0 q0 Hq0.
  all: try match goal with
       | Hr : runners ?s !! ?i = Some ?old
         |- context [count_where (runner_pending ?k) (<[?i := ?new]> _)] =>
           pose proof (count_where_insert (runner_pending k) (runners s)
                         i old new Hr) as Hcnt;
           pose proof (count_where_le_length (runner_pending k)
                         (<[i := new]> (runners s))) as Hle;
           rewrite length_insert, HLr in Hle;
           simpl in Hcnt
       end.
  - (* r_pop *) specialize (Hinv k0 q0 Hq0). nia.
  - (* r_leave, last runner *) specialize (Hinv k0 q0 Hq0). nia.
  - (* r_leave *) specialize (Hinv k0 q0 Hq0). nia.
  - (* r_begin: every queue was below the mark *)
    match goal with
    | Ha : chunk_queues_available _ _ = true |- _ =>
        pose proof (chunk_queues_available_lookup cfg st k0 q0 Ha Hq0) as Hlt
    end.
    nia.
  - (* r_enqueue *)
    match goal with
    | Hr : reads st !! _ = Some ?r, Hk : m_chunk_queues st !! ?k = Some ?q |- _ =>
        pose proof (Hb _ r k Hr) as Hhits;
        destruct (decide (k0 = k)) as [->|Hne];
        [ rewrite list_lookup_insert_eq in Hq0 by (by eapply lookup_lt_Some);
          injection Hq0 as <-; specialize (Hinv k q Hk);
          rewrite length_app; unfold make_chunks; rewrite length_fmap
        | rewrite list_lookup_insert_ne in Hq0 by done;
          specialize (Hinv k0 q0 Hq0) ]
    end.
    + rewrite bool_decide_eq_true_2 in Hcnt by done.
      rewrite bool_decide_eq_false_2 in Hcnt by lia. nia.
    + destruct (decide (k <= k0)).
      * rewrite bool_decide_eq_true_2 in Hcnt by done.
        rewrite bool_decide_eq_true_2 in Hcnt by lia. nia.
      * rewrite bool_decide_eq_false_2 in Hcnt by done.
        rewrite bool_decide_eq_false_2 in Hcnt by lia. nia.
  - (* r_finish, into the working list *)
    specialize (Hinv k0 q0 Hq0). apply lookup_lt_Some in Hq0.
    rewrite bool_decide_eq_false_2 in Hcnt by lia. nia.
  - (* r_finish, to the sink *)
    specialize (Hinv k0 q0 Hq0). apply lookup_lt_Some in Hq0.
    rewrite bool_decide_eq_false_2 in Hcnt by lia. nia.
  - (* c_take *)
    match goal with
    | Hp : push_chunks _ _ _ = _, Hk : m_chunk_queues st !! ?j = Some ?q |- _ =>
        apply push_chunks_lengths in Hp as (_ & Hshrink & _);
        destruct (decide (k0 = j)) as [->|Hne];
        [ rewrite list_lookup_insert_eq in Hq0 by (by eapply lookup_lt_Some);
          injection Hq0 as <-; specialize (Hinv j q Hk); lia
        | rewrite list_lookup_insert_ne in Hq0 by done;
          specialize (Hinv k0 q0 Hq0); lia ]
    end.
  - match goal with
    | Hp : push_chunks _ _ _ = _, Hk : m_chunk_queues st !! ?j = Some ?q |- _ =>
        apply push_chunks_lengths in Hp as (_ & Hshrink & _);
        destruct (decide (k0 = j)) as [->|Hne];
        [ rewrite list_lookup_insert_eq in Hq0 by (by eapply lookup_lt_Some);
          injection Hq0 as <-; specialize (Hinv j q Hk); lia
        | rewrite list_lookup_insert_ne in Hq0 by done;
          specialize (Hinv k0 q0 Hq0); lia ]
    end.
Qed.

Lemma backpressure_inv_reachable (cfg : Config) (st : Node) :
  reachable cfg st ->
  ∀ H, hits_bounded cfg H st -> backpressure_inv cfg H st.
Proof.
  induction 1 as [|st st' _ IH Hstep]; intros H Hb.
  - apply backpressure_inv_initial.
  - pose proof (hits_bounded_back cfg H st st' Hstep Hb) as Hb0.
    eapply backpressure_inv_step; [exact Hb0 | by apply IH | done].
Qed.

(** A runner waiting for room moves on only when every request queue is
    below the mark. *)
Lemma admitted_below_mark (cfg : Config) (st st' : Node) i id :
  step cfg st st' ->
  runners st !! i = Some (RHold id) ->
  runners st' !! i ≠ Some (RHold id) ->
  Forall (fun chunk_queue => length chunk_queue < max_chunks_in cfg)
         (m_chunk_queues st)
  ∧ runners st' !! i = Some (RGen id 0).
Proof.
  intros Hstep Hi Hi'.
  step_inv Hstep.
  all: try (unfold runner_leave, caller_leave, caller_goto, output_terminate in Hi';
            repeat case_decide; simpl in Hi'; congruence).
  all: simpl in Hi' |- *.
  all: match type of Hi' with
       | <[?j := _]> _ !! _ ≠ _ =>
           destruct (decide (i = j)) as [->|?];
           [ | rewrite list_lookup_insert_ne in Hi' by done; congruence ]
       end.
  all: try congruence.
  split; [by apply chunk_queues_available_Forall|].
  assert (id0 = id) by congruence. subst id0.
  apply list_lookup_insert_eq. by eapply lookup_lt_Some.
Qed.

(** Whatever a transition does to a request queue, it keeps its chunks:
    a runner appends the chunks it built, a caller moves a prefix of the
    queue to the end of its batch. *)
Lemma queue_keeps_chunks (cfg : Config) (st st' : Node) k chunk_queue :
  step cfg st st' ->
  m_chunk_queues st !! k = Some chunk_queue ->
  ∃ chunk_queue',
    m_chunk_queues st' !! k = Some chunk_queue'
    ∧ (chunk_queue' = chunk_queue
       ∨ (∃ id r, reads st !! id = Some r
                  ∧ chunk_queue'
                    = chunk_queue
                      ++ make_chunks id (get_motif_hits cfg k (seq r)))
       ∨ (∃ i batch batch',
             m_batched_chunks st !! i = Some batch
             ∧ m_batched_chunks st' !! i = Some batch'
             ∧ batch' ++ chunk_queue' = batch ++ chunk_queue)).
Proof.
  intros Hstep Hk.
  step_inv Hstep.
  all: try (simpl; eexists; split; [done|]; by left).
  all: try (unfold runner_leave, caller_leave;
            match goal with |- context [decide ?P] => destruct (decide P) end;
            simpl; eexists; (split; [done|]); by left).
  - (* r_enqueue *)
    simpl.
    match goal with
    | |- context [<[?j := _]> (m_chunk_queues st) !! k] =>
        destruct (decide (k = j)) as [->|Hne]
    end.
    + rewrite list_lookup_insert_eq by (by eapply lookup_lt_Some).
      eexists. split; [done|]. right. left.
      match goal with
      | Hq : m_chunk_queues st !! _ = Some ?q |- context [?q ++ _] =>
          assert (q = chunk_queue) as -> by congruence
      end.
      eauto.
    + rewrite list_lookup_insert_ne by done. eexists. split; [done|]. by left.
  - (* c_take *)
    simpl.
    match goal with
    | |- context [<[?j := _]> (m_chunk_queues st) !! k] =>
        destruct (decide (k = j)) as [->|Hne]
    end.
    + rewrite list_lookup_insert_eq by (by eapply lookup_lt_Some).
      eexists. split; [done|]. right. right.
      match goal with
      | Hp : push_chunks _ _ _ = _ |- _ =>
          apply push_chunks_lengths in Hp as (_ & _ & Happ)
      end.
      match goal with
      | Hb : m_batched_chunks st !! ?i = Some _ |- _ =>
          exists i; eexists _, _; split; [exact Hb|];
          split; [apply list_lookup_insert_eq; by eapply lookup_lt_Some|]
      end.
      congruence.
    + rewrite list_lookup_insert_ne by done. eexists. split; [done|]. by left.
Qed.

(** The state reached by [overfull_schedule]: six chunks on a request
    queue whose mark is five. *)
Lemma overfull_state :
  ∃ st, reachable (small_node 1) st
        ∧ hits_bounded (small_node 1) 6 st
        ∧ ∃ chunk_queue, m_chunk_queues st !! 0 = Some chunk_queue
                         ∧ length chunk_queue = 6.
Proof.
  destruct (exec_all (small_node 1) overfull_schedule (initial (small_node 1)))
    as [st|] eqn:Hrun; [|by vm_compute in Hrun].
  assert (Hreach : reachable (small_node 1) st)
    by (eapply exec_all_reachable; [apply reach_initial | exact Hrun]).
  exists st. split; [done|].
  vm_compute in Hrun. injection Hrun as <-. split.
  - intros id r k Hr. simpl in Hr.
    change (({[ 0 := mkRead (seq six_hit_read)
                       (base_mod_probs (init_base_mod_probs info_5mC six_hit_read).1)
                       6 0 ]} : gmap nat Read) !! id = Some r) in Hr.
    apply lookup_singleton_Some in Hr as [_ <-]. by vm_compute.
  - eexists. split; [reflexivity|]. reflexivity.
Qed.

(** C4 as stated fails: a request queue can hold more chunks than the
    mark [batch_size * 5]. *)
Lemma queue_exceeds_mark :
  ¬ (∀ st, reachable (small_node 1) st ->
           Forall (fun chunk_queue =>
                     length chunk_queue <= max_chunks_in (small_node 1))
                  (m_chunk_queues st)).
Proof.
  intros Hall. destruct overfull_state as (st & Hreach & _ & q & Hq & Hlen).
  specialize (Hall st Hreach). rewrite Forall_lookup in Hall.
  specialize (Hall 0 q Hq). rewrite Hlen in Hall. vm_compute in Hall. lia.
Qed.

(** C4, amended: backpressure acts per read.  A runner moves past its
    wait only when every request queue is below the mark
    [batch_size * 5]; it then appends all chunks of its read, model by
    model, without looking at the queues again, and nothing but a caller
    taking chunks into its batch removes chunks from a queue.  So a queue
    can pass the mark, but with [num_runners] runners and no read giving
    more than [H] chunks to one model it never holds more than
    [batch_size * 5 - 1 + H * num_runners] chunks. *)
Theorem backpressure_per_read (cfg : Config) (H : nat) (st : Node) :
  reachable cfg st ->
  hits_bounded cfg H st ->
  (∀ k chunk_queue,
      m_chunk_queues st !! k = Some chunk_queue ->
      length chunk_queue <= Nat.pred (max_chunks_in cfg) + H * num_runners cfg)
  ∧ (∀ st' i id,
      step cfg st st' ->
      runners st !! i = Some (RHold id) ->
      runners st' !! i ≠ Some (RHold id) ->
      Forall (fun chunk_queue => length chunk_queue < max_chunks_in cfg)
             (m_chunk_queues st)
      ∧ runners st' !! i = Some (RGen id 0))
  ∧ (∀ st' k chunk_queue,
      step cfg st st' ->
      m_chunk_queues st !! k = Some chunk_queue ->
      ∃ chunk_queue',
        m_chunk_queues st' !! k = Some chunk_queue'
        ∧ (chunk_queue' = chunk_queue
           ∨ (∃ id r, reads st !! id = Some r
                      ∧ chunk_queue'
                        = chunk_queue
                          ++ make_chunks id (get_motif_hits cfg k (seq r)))
           ∨ (∃ i batch batch',
                 m_batched_chunks st !! i = Some batch
                 ∧ m_batched_chunks st' !! i = Some batch'
                 ∧ batch' ++ chunk_queue' = batch ++ chunk_queue))).
Proof.
  intros Hreach Hb. split_and!.
  - intros k q Hq.
    destruct (backpressure_inv_reachable cfg st Hreach H Hb) as (_ & _ & Hinv).
    specialize (Hinv k q Hq). lia.
  - intros st' i id. apply admitted_below_mark.
  - intros st' k q. apply queue_keeps_chunks.
Qed.

(** [backpressure_per_read] in the state reached by [overfull_schedule]:
    six chunks queued, within the bound 4 + 6 * 1. *)
Lemma backpressure_per_read_witness :
  ∃ st chunk_queue,
    reachable (small_node 1) st
    ∧ m_chunk_queues st !! 0 = Some chunk_queue
    ∧ length chunk_queue = 6
    ∧ length chunk_queue
      <= Nat.pred (max_chunks_in (small_node 1)) + 6 * num_runners (small_node 1).
Proof.
  destruct overfull_state as (st & Hreach & Hb & q & Hq & Hlen).
  exists st, q. split_and!; [done | done | done |].
  destruct (backpressure_per_read (small_node 1) 6 st Hreach Hb) as (Hbound & _).
  exact (Hbound 0 q Hq).
Defined.


(** ** Flush on idle *)





(** ** Prompt service *)















(** ** The clock is never stopped for good *)





















(** Without prompt service nothing bounds the age of a batch: [step]
    lets the clock run while the caller stays in its wait, and such a
    run is not one with prompt service. *)
Example delayed_caller_keeps_batch :
  ∃ st,
    exec_all (small_node 2) (partial_batch_schedule ++ [EnvTick 1000000])
      (initial (small_node 2)) = Some st
    ∧ callers st !! 0 = Some (mkCaller CWait 0)
    ∧ m_batched_chunks st !! 0 = Some [mkChunk 0 0 []]
    ∧ now st = 1000000%Z
    ∧ prompt_exec_all (small_node 2)
        (partial_batch_schedule ++ [EnvTick 1000000])
        (initial (small_node 2)) = None.
Proof.
  eexists. split; [vm_compute; reflexivity|].
  split_and!; vm_compute; reflexivity.
Qed.




(** ** Ownership of reads *)

Lemma try_pop_Popped {A} (q q' : AsyncQueue.t A) (x : A) :
  AsyncQueue.try_pop q = AsyncQueue.Popped x q' ->
  AsyncQueue.items q = x :: AsyncQueue.items q'.
Proof.
  unfold AsyncQueue.try_pop. destruct (AsyncQueue.items q) as [|y rest].
  - by destruct (AsyncQueue.terminated q).
  - by intros [= <- <-].
Qed.

Lemma try_push_true {A} (q q' : AsyncQueue.t A) (x : A) :
  AsyncQueue.try_push x q = (true, q') ->
  AsyncQueue.items q' = AsyncQueue.items q ++ [x].
Proof.
  unfold AsyncQueue.try_push. destruct (AsyncQueue.terminated q); [done|].
  case_decide; [|done]. by intros [= <-].
Qed.

(** Changing the control point of one runner exchanges the read it
    holds, if any, for the read the new control point holds. *)
Lemma held_insert (rs : list runner_pc) :
  ∀ i old new, rs !! i = Some old ->
    option_list (held_read old) ++ omap held_read (<[i := new]> rs)
    ≡ₚ option_list (held_read new) ++ omap held_read rs.
Proof.
  induction rs as [|pc rs IH]; intros [|i] old new Hi; simpl in *;
    try discriminate.
  - injection Hi as ->.
    destruct (held_read old), (held_read new); simpl; try done.
    apply Permutation_swap.
  - specialize (IH i old new Hi).
    destruct (held_read pc) as [id|]; simpl; [|done].
    rewrite <- !Permutation_middle. by rewrite IH.
Qed.

Lemma issued_upto_S (cfg : Config) (k : nat) (s : list ascii) :
  issued_upto cfg (S k) s
  = issued_upto cfg k s + length (get_motif_hits cfg k s).
Proof. done. Qed.

(** The scan splits the working list. *)
Lemma scan_working_reads_spec (reads : gmap nat Read) (working : list nat) :
  ∀ sent kept,
    scan_working_reads reads working = Ok (sent, kept) ->
    sent ++ kept ≡ₚ working
    ∧ (∀ id, id ∈ sent ->
         ∃ r, reads !! id = Some r
              ∧ num_modbase_chunks_called r = num_modbase_chunks r).
Proof.
  induction working as [|id rest IH]; intros sent kept H; simpl in H.
  - injection H as <- <-. split; [done|]. intros id Hid. by apply elem_of_nil in Hid.
  - destruct (reads !! id) as [r|] eqn:Hr; simpl in H; [|discriminate].
    destruct (scan_working_reads reads rest) as [[sent' kept']| |];
      simpl in H; try discriminate.
    destruct (IH sent' kept' eq_refl) as [Hperm Hsent].
    case_decide as Hdone; injection H as <- <-.
    + split; [simpl; by rewrite Hperm|].
      intros id' [->|Hin]%elem_of_cons; [by exists r | by apply Hsent].
    + split; [by rewrite <- Permutation_middle, Hperm | done].
Qed.

Lemma held_elem (rs : list runner_pc) i pc id :
  rs !! i = Some pc -> held_read pc = Some id -> id ∈ omap held_read rs.
Proof.
  intros Hi Hh. apply list_elem_of_omap. exists pc.
  split; [by eapply list_elem_of_lookup_2 | done].
Qed.

(** A read is held by one runner at most. *)
Lemma held_once (rs : list runner_pc) i j pc pc' id :
  NoDup (omap held_read rs) ->
  rs !! i = Some pc -> held_read pc = Some id ->
  rs !! j = Some pc' -> held_read pc' = Some id ->
  i = j.
Proof.
  intros Hnd Hi Hh Hj Hh'. destruct (decide (i = j)) as [|Hne]; [done|].
  exfalso.
  pose proof (held_insert rs i pc RPop Hi) as Hperm.
  rewrite Hh in Hperm. simpl in Hperm. rewrite <- Hperm in Hnd.
  apply NoDup_cons in Hnd as [Hnotin _]. apply Hnotin.
  eapply (held_elem _ j pc'); [|done].
  by rewrite list_lookup_insert_ne.
Qed.

Lemma ownership_inv_initial (cfg : Config) : ownership_inv cfg (initial cfg).
Proof.
  unfold ownership_inv, owned, initial; simpl.
  assert (Hh : omap held_read (replicate (num_runners cfg) RPop) = []).
  { induction (num_runners cfg); simpl; done. }
  rewrite Hh. simpl. split_and!.
  - constructor.
  - intros id Hid. by apply elem_of_nil in Hid.
  - intros i id k r [? _]%lookup_replicate. discriminate.
  - intros id r Hid. by apply elem_of_nil in Hid.
Qed.

(** The parts of [owned]. *)
Lemma owned_parts (st : Node) :
  NoDup (owned st) ->
  NoDup (omap held_read (runners st))
  ∧ (∀ id, id ∈ omap held_read (runners st) -> id ∉ m_working_reads st)
  ∧ (∀ id, id ∈ omap held_read (runners st) -> id ∉ sink_messages st)
  ∧ (∀ id, id ∈ m_working_reads st -> id ∉ sink_messages st)
  ∧ NoDup (sink_messages st)
  ∧ NoDup (m_working_reads st).
Proof.
  unfold owned. intros Hnd.
  apply NoDup_app in Hnd as (_ & _ & Hnd).
  apply NoDup_app in Hnd as (Hh & Hhx & Hnd).
  apply NoDup_app in Hnd as (Hw & Hwx & Hs).
  split_and!; try done.
  - intros id Hid Hin. apply (Hhx id Hid). apply elem_of_app. by left.
  - intros id Hid Hin. apply (Hhx id Hid). apply elem_of_app. by right.
Qed.

Lemma ownership_inv_step (cfg : Config) (st st' : Node) :
  ownership_inv cfg st -> step cfg st st' -> ownership_inv cfg st'.
Proof.
  intros (Hnd & Hdom & Hgen & Hwork) Hstep.
  pose proof (owned_parts st Hnd) as (Hheld & Hhw & Hhs & Hws & _ & _).
  assert (Hholder : ∀ i pc id, runners st !! i = Some pc ->
                      held_read pc = Some id -> id ∈ owned st).
  { intros i pc id Hi Hh. unfold owned. rewrite !elem_of_app. right. left.
    by eapply held_elem. }
  step_inv Hstep;
    try (unfold caller_goto, caller_leave, output_terminate;
         repeat case_decide; done).
  - (* env_push *)
    assert (Hfresh : id ∉ owned st).
    { intros Hin. apply Hdom in Hin as [? ?]. congruence. }
    assert (Hperm : owned (set_m_work_queue q' (set_reads (<[id:=r]> (reads st)) st))
                    ≡ₚ id :: owned st).
    { unfold owned; simpl. erewrite try_push_true by done.
      rewrite <- app_assoc. simpl. by rewrite <- Permutation_middle. }
    split_and!.
    + rewrite Hperm. by constructor.
    + intros id0. rewrite Hperm. simpl. intros [->|Hin]%elem_of_cons.
      * by rewrite lookup_insert_eq.
      * rewrite lookup_insert_ne by (intros <-; done). by apply Hdom.
    + simpl. intros i id0 k r0 Hi Hr0.
      rewrite lookup_insert_ne in Hr0; [by eapply Hgen|].
      intros <-. apply Hfresh. by eapply (Hholder i (RGen id k)).
    + simpl. intros id0 r0 Hin Hr0.
      rewrite lookup_insert_ne in Hr0; [by eapply Hwork|].
      intros <-. apply Hfresh. unfold owned. rewrite !elem_of_app. tauto.
  - (* r_pop *)
    assert (Hperm : owned (set_runners (<[i:=RHold id]> (runners st))
                             (set_m_work_queue q' st)) ≡ₚ owned st).
    { unfold owned; simpl. erewrite (try_pop_Popped (m_work_queue st)) by done.
      pose proof (held_insert (runners st) i RPop (RHold id) H) as Hp.
      simpl in Hp. rewrite Hp. simpl. by rewrite <- Permutation_middle. }
    split_and!.
    + by rewrite Hperm.
    + intros id0. rewrite Hperm. apply Hdom.
    + simpl. intros j id0 k r0 Hj Hr0.
      destruct (decide (j = i)) as [->|Hne].
      * rewrite list_lookup_insert_eq in Hj by (by eapply lookup_lt_Some).
        discriminate.
      * rewrite list_lookup_insert_ne in Hj by done. by eapply Hgen.
    + done.
  - (* r_leave *)
    assert (Hperm : owned (set_runners (<[i:=RExit]> (runners st))
                             (runner_leave st)) ≡ₚ owned st).
    { unfold owned, runner_leave. case_decide; simpl;
        pose proof (held_insert (runners st) i RPop RExit H) as Hp;
        simpl in Hp; by rewrite Hp. }
    split_and!.
    + by rewrite Hperm.
    + intros id0. rewrite Hperm. unfold runner_leave. case_decide; apply Hdom.
    + unfold runner_leave. case_decide; simpl; intros j id0 k r0 Hj Hr0;
        (destruct (decide (j = i)) as [->|Hne];
         [ rewrite list_lookup_insert_eq in Hj by (by eapply lookup_lt_Some);
           discriminate
         | rewrite list_lookup_insert_ne in Hj by done; by eapply Hgen ]).
    + unfold runner_leave. case_decide; done.
  - (* r_begin *)
    assert (Hperm : owned (set_runners (<[i:=RGen id 0]> (runners st))
                             (set_reads (<[id:=reset_counters x0]> (reads st)) st))
                    ≡ₚ owned st).
    { unfold owned; simpl.
      pose proof (held_insert (runners st) i (RHold id) (RGen id 0) H) as Hp.
      simpl in Hp. apply (inj (cons id)) in Hp. by rewrite Hp. }
    split_and!.
    + by rewrite Hperm.
    + intros id0. rewrite Hperm. simpl. intros Hin%Hdom.
      by apply lookup_insert_is_Some'; right.
    + simpl. intros j id0 k r0 Hj Hr0.
      destruct (decide (j = i)) as [->|Hne].
      * rewrite list_lookup_insert_eq in Hj by (by eapply lookup_lt_Some).
        injection Hj as <- <-. rewrite lookup_insert_eq in Hr0.
        injection Hr0 as <-. simpl. split; [lia | done].
      * rewrite list_lookup_insert_ne in Hj by done.
        rewrite lookup_insert_ne in Hr0; [by eapply Hgen|].
        intros <-. apply Hne. symmetry.
        by eapply (held_once (runners st) i j (RHold id) (RGen id k) id).
    + simpl. intros id0 r0 Hin Hr0.
      rewrite lookup_insert_ne in Hr0; [by eapply Hwork|].
      intros <-. eapply Hhw; [|done]. by eapply (held_elem _ i (RHold id)).
  - (* r_enqueue *)
    match goal with
    | |- ownership_inv _ ?s => assert (Hperm : owned s ≡ₚ owned st)
    end.
    { unfold owned; simpl.
      pose proof (held_insert (runners st) i (RGen id k) (RGen id (S k)) H) as Hp.
      simpl in Hp. apply (inj (cons id)) in Hp. by rewrite Hp. }
    split_and!.
    + by rewrite Hperm.
    + intros id0. rewrite Hperm. simpl. intros Hin%Hdom.
      by apply lookup_insert_is_Some'; right.
    + simpl. intros j id0 k0 r0 Hj Hr0.
      destruct (decide (j = i)) as [->|Hne].
      * rewrite list_lookup_insert_eq in Hj by (by eapply lookup_lt_Some).
        injection Hj as <- <-. rewrite lookup_insert_eq in Hr0.
        injection Hr0 as <-. simpl.
        match goal with
        | Hr : reads st !! id = Some x |- _ =>
            destruct (Hgen i id k x H Hr) as [Hk Hnum]
        end.
        unfold make_chunks. rewrite length_fmap, Hnum. split; [lia | done].
      * rewrite list_lookup_insert_ne in Hj by done.
        rewrite lookup_insert_ne in Hr0; [by eapply Hgen|].
        intros <-. apply Hne. symmetry.
        by eapply (held_once (runners st) i j (RGen id k) (RGen id k0) id).
    + simpl. intros id0 r0 Hin Hr0.
      rewrite lookup_insert_ne in Hr0; [by eapply Hwork|].
      intros <-. eapply Hhw; [|done]. by eapply (held_elem _ i (RGen id k)).
  - (* r_finish, into the working list *)
    assert (Hperm : owned (set_runners (<[i:=RPop]> (runners st))
                             (set_m_working_reads (m_working_reads st ++ [id]) st))
                    ≡ₚ owned st).
    { unfold owned; simpl.
      pose proof (held_insert (runners st) i (RGen id k) RPop H) as Hp.
      simpl in Hp. rewrite <- Hp.
      rewrite <- !app_assoc. simpl.
      rewrite <- !Permutation_middle. done. }
    split_and!.
    + by rewrite Hperm.
    + intros id0. rewrite Hperm. apply Hdom.
    + simpl. intros j id0 k0 r0 Hj Hr0.
      destruct (decide (j = i)) as [->|Hne].
      * rewrite list_lookup_insert_eq in Hj by (by eapply lookup_lt_Some).
        discriminate.
      * rewrite list_lookup_insert_ne in Hj by done. by eapply Hgen.
    + simpl. intros id0 r0 [Hin|Hin]%elem_of_app Hr0; [by eapply Hwork|].
      apply list_elem_of_singleton in Hin as ->.
      assert (r0 = x) as -> by congruence.
      destruct (Hgen i id k x H Hr0) as [Hk Hnum].
      split; [done|]. unfold total_chunks.
      by replace (num_models cfg) with k by lia.
  - (* r_finish, to the sink *)
    assert (Hperm : owned (set_runners (<[i:=RPop]> (runners st))
                             (set_sink_messages (sink_messages st ++ [id]) st))
                    ≡ₚ owned st).
    { unfold owned; simpl.
      pose proof (held_insert (runners st) i (RGen id k) RPop H) as Hp.
      simpl in Hp. rewrite <- Hp.
      rewrite (Permutation_app_comm (sink_messages st) [id]). simpl.
      rewrite <- !Permutation_middle. done. }
    split_and!.
    + by rewrite Hperm.
    + intros id0. rewrite Hperm. apply Hdom.
    + simpl. intros j id0 k0 r0 Hj Hr0.
      destruct (decide (j = i)) as [->|Hne].
      * rewrite list_lookup_insert_eq in Hj by (by eapply lookup_lt_Some).
        discriminate.
      * rewrite list_lookup_insert_ne in Hj by done. by eapply Hgen.
    + done.
  - (* o_apply *)
    assert (Hkeep : ∀ id r', x !! id = Some r' ->
              ∃ r, reads st !! id = Some r ∧ seq r' = seq r
                   ∧ num_modbase_chunks r' = num_modbase_chunks r).
    { intros id r' Hr'. pose proof (apply_chunks_counts _ _ _ _ H1 id) as Hc.
      rewrite Hr' in Hc. destruct (reads st !! id) as [r|]; [|done].
      exists r. destruct Hc as (? & ? & _). done. }
    split_and!.
    + done.
    + intros id Hin. change (id ∈ owned st) in Hin. apply Hdom in Hin as [r Hr].
      simpl. pose proof (apply_chunks_counts _ _ _ _ H1 id) as Hc.
      rewrite Hr in Hc. by destruct (x !! id).
    + simpl. intros i id k r' Hi Hr'.
      destruct (Hkeep id r' Hr') as (r & Hr & -> & ->). by eapply Hgen.
    + simpl. intros id r' Hin Hr'.
      destruct (Hkeep id r' Hr') as (r & Hr & -> & ->). by eapply Hwork.
  - (* o_scan *)
    apply scan_working_reads_spec in H0 as [Hperm Hsent].
    assert (Hp : owned (set_output OWait
                          (set_m_working_reads x0
                             (set_sink_messages (sink_messages st ++ x) st)))
                 ≡ₚ owned st).
    { unfold owned; simpl. rewrite <- Hperm.
      apply Permutation_app_head, Permutation_app_head.
      rewrite (Permutation_app_comm (sink_messages st) x).
      rewrite !app_assoc. by rewrite (Permutation_app_comm x0 x). }
    split_and!.
    + by rewrite Hp.
    + intros id. rewrite Hp. apply Hdom.
    + done.
    + simpl. intros id r Hin Hr. eapply Hwork; [|done].
      rewrite <- Hperm. apply elem_of_app. by right.
Qed.

Lemma ownership_inv_reachable (cfg : Config) (st : Node) :
  reachable cfg st -> ownership_inv cfg st.
Proof.
  induction 1 as [|st st' _ IH Hstep].
  - apply ownership_inv_initial.
  - by eapply ownership_inv_step.
Qed.

(** No read is handed to the sink twice, and a read handed to the sink
    is neither on the working list nor with a runner any more. *)
Theorem forwarded_at_most_once (cfg : Config) (st : Node) :
  reachable cfg st ->
  NoDup (sink_messages st)
  ∧ NoDup (m_working_reads st)
  ∧ (∀ id, id ∈ m_working_reads st -> id ∉ sink_messages st)
  ∧ (∀ id, id ∈ omap held_read (runners st) ->
       (id ∉ m_working_reads st) ∧ (id ∉ sink_messages st)).
Proof.
  intros Hreach.
  destruct (ownership_inv_reachable cfg st Hreach) as (Hnd & _).
  destruct (owned_parts st Hnd) as (_ & Hhw & Hhs & Hws & Hs & Hw).
  split_and!; [done | done | done |]. intros id Hid. split; eauto.
Qed.

(** [forwarded_at_most_once] at the end of [orderly_schedule]. *)
Lemma forwarded_at_most_once_witness :
  ∃ st,
    exec_all (small_node 1) orderly_schedule (initial (small_node 1)) = Some st
    ∧ sink_messages st = [0]
    ∧ NoDup (sink_messages st).
Proof.
  destruct (exec_all (small_node 1) orderly_schedule (initial (small_node 1)))
    as [st|] eqn:Hrun; [|by vm_compute in Hrun].
  assert (Hreach : reachable (small_node 1) st)
    by (eapply exec_all_reachable; [apply reach_initial | exact Hrun]).
  destruct (forwarded_at_most_once (small_node 1) st Hreach) as (Hnd & _).
  vm_compute in Hrun. injection Hrun as <-.
  eexists. split_and!; [reflexivity | reflexivity | exact Hnd].
Defined.

(** A read is on the working list only with its chunk count final: the
    count is not zero and equals the number of motif hits of the read
    over all models. *)
Theorem working_list_after_issuance (cfg : Config) (st : Node) (id : nat)
    (r : Read) :
  reachable cfg st ->
  id ∈ m_working_reads st -> reads st !! id = Some r ->
  num_modbase_chunks r ≠ 0
  ∧ num_modbase_chunks r = total_chunks cfg (seq r).
Proof.
  intros Hreach Hin Hr.
  destruct (ownership_inv_reachable cfg st Hreach) as (_ & _ & _ & Hwork).
  by eapply Hwork.
Qed.

(** [working_list_after_issuance] in [orderly_schedule], when the runner
    has put the read on the working list. *)
Lemma working_list_after_issuance_witness :
  ∃ st r,
    exec_all (small_node 1) (take 5 orderly_schedule) (initial (small_node 1))
    = Some st
    ∧ m_working_reads st = [0]
    ∧ reads st !! 0 = Some r
    ∧ num_modbase_chunks r = total_chunks (small_node 1) (seq r).
Proof.
  destruct (exec_all (small_node 1) (take 5 orderly_schedule)
              (initial (small_node 1))) as [st|] eqn:Hrun;
    [|by vm_compute in Hrun].
  assert (Hreach : reachable (small_node 1) st)
    by (eapply exec_all_reachable; [apply reach_initial | exact Hrun]).
  destruct (reads st !! 0) as [r|] eqn:Hr;
    [|vm_compute in Hrun; injection Hrun as <-; by vm_compute in Hr].
  assert (Hin : 0 ∈ m_working_reads st).
  { vm_compute in Hrun. injection Hrun as <-. by left. }
  destruct (working_list_after_issuance (small_node 1) st 0 r Hreach Hin Hr)
    as [_ Htot].
  exists st, r. split_and!; [done | | done | done].
  vm_compute in Hrun. by injection Hrun as <-.
Defined.

(** A transition that hands a read to the sink finds the read's chunk
    count final; if the read has chunks, it is taken from the working
    list and its completed-chunk counter equals its chunk count. *)
Theorem forwarded_only_when_complete (cfg : Config) (st st' : Node) (id : nat) :
  reachable cfg st -> step cfg st st' ->
  id ∈ sink_messages st' -> id ∉ sink_messages st ->
  ∃ r, reads st !! id = Some r
       ∧ num_modbase_chunks r = total_chunks cfg (seq r)
       ∧ (num_modbase_chunks r ≠ 0 ->
            id ∈ m_working_reads st
            ∧ (id ∉ m_working_reads st')
            ∧ num_modbase_chunks_called r = num_modbase_chunks r).
Proof.
  intros Hreach Hstep Hin Hnot.
  pose proof (ownership_inv_reachable cfg st Hreach) as (Hnd & _ & Hgen & Hwork).
  pose proof (ownership_inv_reachable cfg st' (reach_step _ _ _ Hreach Hstep))
    as (Hnd' & _).
  destruct (owned_parts st' Hnd') as (_ & _ & _ & Hws' & _ & _).
  step_inv Hstep;
    try (unfold runner_leave, caller_goto, caller_leave, output_terminate in Hin;
         repeat case_decide; simpl in Hin; done).
  - (* r_finish, to the sink *)
    simpl in Hin. apply elem_of_app in Hin as [Hin|Hin]; [done|].
    apply list_elem_of_singleton in Hin as ->.
    match goal with
    | Hi : runners st !! _ = Some (RGen ?id0 ?k), Hr : reads st !! ?id0 = Some ?x
      |- _ => destruct (Hgen _ _ _ _ Hi Hr) as [Hk Hnum]; exists x
    end.
    split_and!; [done | | done].
    unfold total_chunks. by replace (num_models cfg) with k by lia.
  - (* o_scan *)
    match goal with
    | Hs : scan_working_reads _ _ = Ok _ |- _ =>
        apply scan_working_reads_spec in Hs as [Hperm Hsent]
    end.
    simpl in Hin. apply elem_of_app in Hin as [Hin|Hin]; [done|].
    destruct (Hsent id Hin) as (r & Hr & Hdone).
    assert (Hw : id ∈ m_working_reads st).
    { rewrite <- Hperm. apply elem_of_app. by left. }
    destruct (Hwork id r Hw Hr) as [Hne Htot].
    exists r. split_and!; [done | done |]. intros _.
    split_and!; [done | | done].
    intros Hkept. apply (Hws' id); simpl; [done|].
    apply elem_of_app. by right.
Qed.

(** [forwarded_only_when_complete] on the scan of [orderly_schedule]
    that hands the read to the sink. *)
Lemma forwarded_only_when_complete_witness :
  ∃ st st' r,
    exec_all (small_node 1) (take 8 orderly_schedule) (initial (small_node 1))
    = Some st
    ∧ exec (small_node 1) OScanL st = Some st'
    ∧ sink_messages st' = [0]
    ∧ reads st !! 0 = Some r
    ∧ num_modbase_chunks r = 1
    ∧ num_modbase_chunks_called r = num_modbase_chunks r.
Proof.
  destruct (exec_all (small_node 1) (take 8 orderly_schedule)
              (initial (small_node 1))) as [st|] eqn:Hrun;
    [|by vm_compute in Hrun].
  assert (Hreach : reachable (small_node 1) st)
    by (eapply exec_all_reachable; [apply reach_initial | exact Hrun]).
  destruct (exec (small_node 1) OScanL st) as [st'|] eqn:Hscan;
    [|vm_compute in Hrun; injection Hrun as <-; by vm_compute in Hscan].
  pose proof (exec_step _ _ _ _ Hscan) as Hstep.
  assert (Hin : 0 ∈ sink_messages st' ∧ 0 ∉ sink_messages st).
  { vm_compute in Hrun. injection Hrun as <-.
    vm_compute in Hscan. injection Hscan as <-. simpl.
    split; [by left | apply not_elem_of_nil]. }
  destruct Hin as [Hin Hnot].
  destruct (forwarded_only_when_complete (small_node 1) st st' 0
              Hreach Hstep Hin Hnot) as (r & Hr & Htot & Hdone).
  exists st, st', r.
  vm_compute in Hrun. injection Hrun as <-.
  vm_compute in Hscan. injection Hscan as <-.
  assert (Hr0 : r = mkRead ["C"; "G"]%char [0; 64; 192; 0; 0; 0; 0; 0; 1; 0]%Z 1 1).
  { vm_compute in Hr. by injection Hr as <-. }
  subst r. split_and!; try reflexivity.
Defined.


(** ** Accounting of chunks *)

Lemma count_where_app {A} (f : A -> bool) (l1 l2 : list A) :
  count_where f (l1 ++ l2) = count_where f l1 + count_where f l2.
Proof. induction l1 as [|x l1 IH]; simpl; [done|]. rewrite IH. lia. Qed.

Lemma count_where_concat_insert {A} (f : A -> bool) (ll : list (list A)) :
  ∀ i old new, ll !! i = Some old ->
    count_where f (concat (<[i := new]> ll)) + count_where f old
    = count_where f (concat ll) + count_where f new.
Proof.
  induction ll as [|l ll IH]; intros [|i] old new Hi; simpl in *;
    try discriminate.
  - injection Hi as ->. rewrite !count_where_app. lia.
  - specialize (IH i old new Hi). rewrite !count_where_app. lia.
Qed.

Lemma count_where_filter {A} (P : A -> Prop) `{!∀ x, Decision (P x)}
    (l : list A) :
  count_where (fun x => bool_decide (P x)) l = length (filter P l).
Proof.
  induction l as [|x l IH]; simpl; [done|]. rewrite filter_cons.
  case_bool_decide; destruct (decide (P x)); try done; simpl; lia.
Qed.

Lemma chunks_of_sources (id : nat) (l1 l2 : list RemoraChunk) :
  source_read <$> l1 = source_read <$> l2 ->
  chunks_of id l1 = chunks_of id l2.
Proof.
  revert l2. induction l1 as [|c1 l1 IH]; intros [|c2 l2] H; simpl in *;
    try discriminate; [done|].
  injection H as Hc Hl. unfold chunks_of in *. simpl.
  rewrite Hc. f_equal. by apply IH.
Qed.

Lemma chunks_of_make_chunks (id id' : nat) (hits : list nat) :
  chunks_of id' (make_chunks id hits)
  = if decide (id = id') then length hits else 0.
Proof.
  unfold chunks_of, make_chunks.
  induction hits as [|h hits IH]; [by case_decide|].
  rewrite fmap_cons. cbn [count_where source_read]. rewrite IH. simpl.
  case_bool_decide; case_decide; try done; lia.
Qed.

Lemma push_chunks_chunks_of (id batch_size : nat)
    (batch queue batch' queue' : list RemoraChunk) :
  push_chunks batch_size batch queue = (batch', queue') ->
  chunks_of id batch' + chunks_of id queue'
  = chunks_of id batch + chunks_of id queue.
Proof.
  intros (_ & _ & Happ)%push_chunks_lengths.
  unfold chunks_of. rewrite <- !count_where_app. by rewrite Happ.
Qed.

Lemma in_flight_chunks_of (id : nat) (st : Node) :
  chunks_of id (in_flight st)
  = chunks_of id (concat (m_chunk_queues st))
    + chunks_of id (concat (m_batched_chunks st))
    + chunks_of id (m_processed_chunks st).
Proof. unfold in_flight, chunks_of. rewrite !count_where_app. lia. Qed.

Lemma begun_owned (st : Node) (id : nat) : begun st id -> id ∈ owned st.
Proof.
  unfold owned. rewrite !elem_of_app.
  intros [(i & k & Hi)|[Hw|Hs]]; [|tauto|tauto].
  right. left. by eapply (held_elem _ i (RGen id k)).
Qed.

Lemma accounting_inv_initial (cfg : Config) : accounting_inv cfg (initial cfg).
Proof.
  assert (Hnil : ∀ n, concat (replicate n ([] : list RemoraChunk)) = []).
  { induction n; simpl; done. }
  unfold accounting_inv. split_and!.
  - intros id r [(i & k & [? _]%lookup_replicate)|[H|H]]; try discriminate;
      by apply elem_of_nil in H.
  - intros id _. unfold in_flight, initial; simpl. by rewrite !Hnil.
  - intros id r H. by apply elem_of_nil in H.
Qed.

(** Who has begun a read, seen from one runner. *)
Lemma begun_runner_cases (st : Node) (i : nat) (pc : runner_pc) (id : nat) :
  runners st !! i = Some pc ->
  begun st id
  <-> ((∃ k, pc = RGen id k)
       ∨ (∃ j k, j ≠ i ∧ runners st !! j = Some (RGen id k))
       ∨ id ∈ m_working_reads st
       ∨ id ∈ sink_messages st).
Proof.
  intros Hi. unfold begun. split.
  - intros [(j & k & Hj)|[?|?]]; [|tauto|tauto].
    destruct (decide (j = i)) as [->|Hne].
    + left. exists k. congruence.
    + right. left. by exists j, k.
  - intros [[k ->]|[(j & k & _ & Hj)|[?|?]]]; [|by left; exists j, k|tauto|tauto].
    left. by exists i, k.
Qed.

Lemma begun_set_runner (st st' : Node) (i : nat) (pc pc' : runner_pc)
    (id : nat) :
  runners st !! i = Some pc ->
  runners st' = <[i := pc']> (runners st) ->
  begun st' id
  <-> ((∃ k, pc' = RGen id k)
       ∨ (∃ j k, j ≠ i ∧ runners st !! j = Some (RGen id k))
       ∨ id ∈ m_working_reads st'
       ∨ id ∈ sink_messages st').
Proof.
  intros Hi Hrs.
  assert (Hi' : runners st' !! i = Some pc').
  { rewrite Hrs. apply list_lookup_insert_eq. by eapply lookup_lt_Some. }
  rewrite (begun_runner_cases st' i pc' id Hi').
  assert (Hother : (∃ j k, j ≠ i ∧ runners st' !! j = Some (RGen id k))
                   <-> (∃ j k, j ≠ i ∧ runners st !! j = Some (RGen id k))).
  { split; intros (j & k & Hne & Hj); exists j, k; split; try done.
    - by rewrite Hrs, list_lookup_insert_ne in Hj.
    - by rewrite Hrs, list_lookup_insert_ne. }
  tauto.
Qed.

(** A transition that leaves the reads, the pointers to begun reads and
    the chunks in flight of every read alone keeps the accounting; what
    it hands to the sink must be complete. *)
Lemma accounting_inv_frame (cfg : Config) (st st' : Node) :
  accounting_inv cfg st ->
  reads st' = reads st ->
  (∀ id, begun st' id <-> begun st id) ->
  (∀ id, chunks_of id (in_flight st') = chunks_of id (in_flight st)) ->
  (∀ id r, id ∈ sink_messages st' -> reads st !! id = Some r ->
     id ∈ sink_messages st
     ∨ (num_modbase_chunks_called r = num_modbase_chunks r
        ∧ num_modbase_chunks r = total_chunks cfg (seq r))) ->
  accounting_inv cfg st'.
Proof.
  intros (Hsum & Hnone & Hsink) Hreads Hbegun Hcount Hnew. split_and!.
  - intros id r Hb Hr. rewrite Hcount. rewrite Hreads in Hr.
    apply Hsum; [by apply Hbegun | done].
  - intros id Hb. rewrite Hcount. apply Hnone. by rewrite <- Hbegun.
  - intros id r Hin Hr. rewrite Hreads in Hr.
    destruct (Hnew id r Hin Hr) as [Hold|?]; [by eapply Hsink | done].
Qed.

(** Scoring a batch moves its chunks from the batch to the scored list. *)
Lemma flush_keeps_chunks (results : Tensor) (caller_id id : nat)
    (st : Node) (batch scored : list RemoraChunk) :
  m_batched_chunks st !! caller_id = Some batch ->
  score_chunks results 0 batch = Ok scored ->
  chunks_of id
    (in_flight
       (set_m_batched_chunks (<[caller_id := []]> (m_batched_chunks st))
          (set_m_processed_chunks (m_processed_chunks st ++ scored) st)))
  = chunks_of id (in_flight st).
Proof.
  intros Hb Hs. rewrite !in_flight_chunks_of. simpl.
  pose proof (count_where_concat_insert
                (fun c => bool_decide (source_read c = id))
                _ caller_id batch [] Hb) as Hc.
  pose proof (chunks_of_sources id _ _ (score_chunks_sources _ _ _ _ Hs))
    as Hsc.
  unfold chunks_of in *. rewrite count_where_app. simpl in Hc. lia.
Qed.

(** Filling a batch moves chunks from the request queue to the batch. *)
Lemma take_keeps_chunks (cfg : Config) (i id : nat) (st : Node)
    (cs : list Caller) (chunk_queue batch batch' queue' : list RemoraChunk) :
  m_chunk_queues st !! queue_of cfg i = Some chunk_queue ->
  m_batched_chunks st !! i = Some batch ->
  push_chunks (m_batch_size cfg) batch chunk_queue = (batch', queue') ->
  chunks_of id
    (in_flight
       (set_callers cs
          (set_m_batched_chunks (<[i := batch']> (m_batched_chunks st))
             (set_m_chunk_queues
                (<[queue_of cfg i := queue']> (m_chunk_queues st)) st))))
  = chunks_of id (in_flight st).
Proof.
  intros Hq Hb Hp. rewrite !in_flight_chunks_of. simpl.
  pose proof (count_where_concat_insert
                (fun c => bool_decide (source_read c = id))
                _ _ chunk_queue queue' Hq) as Hcq.
  pose proof (count_where_concat_insert
                (fun c => bool_decide (source_read c = id))
                _ _ batch batch' Hb) as Hcb.
  pose proof (push_chunks_chunks_of id _ _ _ _ _ Hp) as Hpc.
  unfold chunks_of in *. lia.
Qed.

Lemma accounting_inv_step (cfg : Config) (st st' : Node) :
  ownership_inv cfg st -> accounting_inv cfg st -> step cfg st st' ->
  accounting_inv cfg st'.
Proof.
  intros (Hnd & Hdom & Hgen & Hwork) Hinv Hstep.
  pose proof (owned_parts st Hnd) as (Hheld & Hhw & Hhs & Hws & _ & _).
  step_inv Hstep;
    try (unfold caller_goto, caller_leave, output_terminate;
         repeat case_decide; exact Hinv);
    try (apply (accounting_inv_frame cfg st _ Hinv);
         [ done | done
         | intros id0; unfold caller_goto;
           first [ by eapply flush_keeps_chunks
                 | by eapply take_keeps_chunks ]
         | by left ]).
  - (* env_push *)
    destruct Hinv as (Hsum & Hnone & Hsink).
    assert (Hold : ∀ id0, begun st id0 -> id0 ≠ id).
    { intros id0 Hb%begun_owned%Hdom <-.
      destruct Hb as [? Hb]. congruence. }
    split_and!.
    + intros id0 r0 Hb Hr0. simpl in Hr0.
      rewrite lookup_insert_ne in Hr0 by (intros <-; by eapply Hold).
      by apply Hsum.
    + exact Hnone.
    + intros id0 r0 Hin Hr0. simpl in Hr0, Hin.
      rewrite lookup_insert_ne in Hr0; [by eapply Hsink|].
      intros <-. eapply Hold; [|done]. unfold begun. tauto.
  - (* r_pop *)
    apply (accounting_inv_frame cfg st _ Hinv); [done| |done|by left].
    intros id0.
    match goal with
    | |- begun ?s _ <-> _ =>
        rewrite (begun_set_runner st s i RPop (RHold id) id0 H eq_refl)
    end.
    rewrite (begun_runner_cases st i RPop id0 H). simpl.
    split; (intros [[? [=]]|?]; tauto).
  - (* r_leave *)
    apply (accounting_inv_frame cfg st _ Hinv);
      [ by (unfold runner_leave; case_decide)
      |
      | by (unfold runner_leave; case_decide)
      | by (unfold runner_leave; case_decide; left) ].
    intros id0.
    match goal with
    | |- begun ?s _ <-> _ =>
        rewrite (begun_set_runner st s i RPop RExit id0 H)
          by (unfold runner_leave; by case_decide)
    end.
    rewrite (begun_runner_cases st i RPop id0 H).
    unfold runner_leave; case_decide; simpl;
      (split; (intros [[? [=]]|?]; tauto)).
  - (* r_begin *)
    destruct Hinv as (Hsum & Hnone & Hsink).
    assert (Hnot : ¬ begun st id).
    { intros [(j & k & Hj)|[Hw|Hs]].
      - assert (i = j)
          by (by eapply (held_once (runners st) i j (RHold id) (RGen id k) id)).
        subst j. congruence.
      - eapply Hhw; [|exact Hw]. by eapply (held_elem _ i (RHold id)).
      - eapply Hhs; [|exact Hs]. by eapply (held_elem _ i (RHold id)). }
    split_and!.
    + intros id0 r0 Hb Hr0. simpl in Hr0.
      destruct (decide (id0 = id)) as [->|Hne].
      * rewrite lookup_insert_eq in Hr0. injection Hr0 as <-. simpl.
        apply (Hnone id Hnot).
      * rewrite lookup_insert_ne in Hr0 by done. apply Hsum; [|done].
        match type of Hb with
        | begun ?s _ =>
            apply (begun_set_runner st s i (RHold id) (RGen id 0) id0 H
                     eq_refl) in Hb
        end.
        apply (begun_runner_cases st i (RHold id) id0 H).
        simpl in Hb. destruct Hb as [[? [= ? ?]]|?]; [congruence | tauto].
    + intros id0 Hnb. apply Hnone. intros Hb. apply Hnb.
      match goal with
      | |- begun ?s _ =>
          apply (begun_set_runner st s i (RHold id) (RGen id 0) id0 H eq_refl)
      end.
      apply (begun_runner_cases st i (RHold id) id0 H) in Hb.
      simpl. destruct Hb as [[? [=]]|?]; tauto.
    + intros id0 r0 Hin Hr0. simpl in Hr0, Hin.
      rewrite lookup_insert_ne in Hr0; [by eapply Hsink|].
      intros <-. eapply Hhs; [|exact Hin]. by eapply (held_elem _ i (RHold id)).
  - (* r_enqueue *)
    destruct Hinv as (Hsum & Hnone & Hsink).
    match goal with
    | |- accounting_inv _ ?s =>
        assert (Hbegun : ∀ id0, begun s id0 <-> begun st id0)
    end.
    { intros id0.
      match goal with
      | |- begun ?s _ <-> _ =>
          rewrite (begun_set_runner st s i (RGen id k) (RGen id (S k)) id0 H
                     eq_refl)
      end.
      rewrite (begun_runner_cases st i (RGen id k) id0 H). simpl.
      split; (intros [[? [= <- <-]]|?]; [left; by eexists | tauto]). }
    assert (Hb : begun st id) by (left; by exists i, k).
    match goal with
    | Hq : m_chunk_queues st !! k = Some ?q |- accounting_inv _ ?s =>
        assert (Hcount : ∀ id0,
                  chunks_of id0 (in_flight s)
                  = chunks_of id0 (in_flight st)
                    + (if decide (id = id0)
                       then length (get_motif_hits cfg k (seq x)) else 0))
    end.
    { intros id0. rewrite !in_flight_chunks_of. simpl.
      match goal with
      | Hq : m_chunk_queues st !! k = Some ?q |- _ =>
          pose proof (count_where_concat_insert
                        (fun c => bool_decide (source_read c = id0))
                        _ k q
                        (q ++ make_chunks id (get_motif_hits cfg k (seq x)))
                        Hq) as Hc
      end.
      rewrite count_where_app in Hc.
      pose proof (chunks_of_make_chunks id id0 (get_motif_hits cfg k (seq x)))
        as Hm.
      unfold chunks_of in *. lia. }
    split_and!.
    + intros id0 r0 Hb0 Hr0. simpl in Hr0. rewrite Hcount.
      apply Hbegun in Hb0.
      destruct (decide (id = id0)) as [<-|Hne].
      * rewrite lookup_insert_eq in Hr0. injection Hr0 as <-. simpl.
        unfold make_chunks. rewrite length_fmap.
        match goal with
        | Hr : reads st !! id = Some x |- _ => pose proof (Hsum id x Hb Hr)
        end. lia.
      * rewrite lookup_insert_ne in Hr0 by done.
        pose proof (Hsum id0 r0 Hb0 Hr0). lia.
    + intros id0 Hnb. rewrite Hcount.
      rewrite Hbegun in Hnb. rewrite (Hnone id0 Hnb).
      case_decide; [subst; done | done].
    + intros id0 r0 Hin Hr0. simpl in Hr0, Hin.
      rewrite lookup_insert_ne in Hr0; [by eapply Hsink|].
      intros <-. eapply Hhs; [|exact Hin].
      by eapply (held_elem _ i (RGen id k)).
  - (* r_finish, into the working list *)
    apply (accounting_inv_frame cfg st _ Hinv); [done| |done|by left].
    intros id0.
    match goal with
    | |- begun ?s _ <-> _ =>
        rewrite (begun_set_runner st s i (RGen id k) RPop id0 H eq_refl)
    end.
    rewrite (begun_runner_cases st i (RGen id k) id0 H). simpl.
    rewrite elem_of_app, list_elem_of_singleton.
    split.
    + intros [[? [=]]|[?|[[?| ->]|?]]]; try tauto. left. by eexists.
    + intros [[? [= <- <-]]|?]; tauto.
  - (* r_finish, past the callers *)
    match goal with
    | Hr : reads st !! id = Some ?r, Hz : num_modbase_chunks ?r = 0 |- _ =>
        pose proof (Hgen i id k r H Hr) as [Hk Hnum];
        assert (Hb : begun st id) by (left; by exists i, k);
        destruct Hinv as (Hsum & Hnone & Hsink);
        pose proof (Hsum id r Hb Hr) as Hacc;
        pose proof (conj Hsum (conj Hnone Hsink)) as Hinv
    end.
    apply (accounting_inv_frame cfg st _ Hinv); [done| |done|].
    + intros id0.
      match goal with
      | |- begun ?s _ <-> _ =>
          rewrite (begun_set_runner st s i (RGen id k) RPop id0 H eq_refl)
      end.
      rewrite (begun_runner_cases st i (RGen id k) id0 H). simpl.
      rewrite elem_of_app, list_elem_of_singleton.
      split.
      * intros [[? [=]]|[?|[?|[?| ->]]]]; try tauto. left. by eexists.
      * intros [[? [= <- <-]]|?]; tauto.
    + intros id0 r0 Hin Hr0. simpl in Hin.
      apply elem_of_app in Hin as [?|Hin]; [by left|].
      apply list_elem_of_singleton in Hin as ->. right.
      assert (r0 = x) as -> by congruence.
      assert (k = num_models cfg) as -> by lia.
      unfold total_chunks. split; [lia | done].
  - (* o_apply *)
    destruct Hinv as (Hsum & Hnone & Hsink).
    match goal with
    | Ha : apply_chunks _ _ _ = Ok _ |- _ =>
        pose proof (apply_chunks_counts _ _ _ _ Ha) as Hc
    end.
    assert (Hfl : ∀ id0,
              chunks_of id0 (in_flight st)
              = chunks_of id0 (concat (m_chunk_queues st))
                + chunks_of id0 (concat (m_batched_chunks st))
                + length (filter (fun c => source_read c = id0)
                            (m_processed_chunks st))).
    { intros id0. rewrite in_flight_chunks_of. unfold chunks_of.
      by rewrite !(count_where_filter (fun c => source_read c = id0)). }
    split_and!.
    + intros id0 r0 Hb Hr0. simpl in Hr0.
      rewrite in_flight_chunks_of. simpl.
      specialize (Hc id0). rewrite Hr0 in Hc.
      destruct (reads st !! id0) as [r|] eqn:Hr; [|done].
      destruct Hc as (_ & Hn & Hcalled).
      pose proof (Hsum id0 r Hb Hr) as Hacc. rewrite Hfl in Hacc.
      change (chunks_of id0 []) with 0. lia.
    + intros id0 Hnb. rewrite in_flight_chunks_of. simpl.
      pose proof (Hnone id0 Hnb) as Hz. rewrite Hfl in Hz.
      change (chunks_of id0 []) with 0. lia.
    + intros id0 r0 Hin Hr0. simpl in Hr0, Hin.
      specialize (Hc id0). rewrite Hr0 in Hc.
      destruct (reads st !! id0) as [r|] eqn:Hr; [|done].
      destruct Hc as (Hseq & Hn & Hcalled).
      destruct (Hsink id0 r Hin Hr) as [Hdone Htotal].
      assert (Hb : begun st id0) by (unfold begun; tauto).
      pose proof (Hsum id0 r Hb Hr) as Hacc. rewrite Hfl in Hacc.
      rewrite Hseq. split; lia.
  - (* o_scan *)
    match goal with
    | Hs : scan_working_reads _ _ = Ok _ |- _ =>
        apply scan_working_reads_spec in Hs as [Hperm Hsent]
    end.
    apply (accounting_inv_frame cfg st _ Hinv); [done| |done|].
    + intros id0. unfold begun. simpl.
      rewrite <- Hperm, !elem_of_app. tauto.
    + intros id0 r0 Hin Hr0. simpl in Hin.
      apply elem_of_app in Hin as [?|Hin]; [by left|]. right.
      destruct (Hsent id0 Hin) as (r & Hr & Hdone).
      assert (r = r0) as -> by congruence.
      split; [done|]. eapply Hwork; [|done].
      rewrite <- Hperm, elem_of_app. tauto.
Qed.

Lemma accounting_inv_reachable (cfg : Config) (st : Node) :
  reachable cfg st -> accounting_inv cfg st.
Proof.
  induction 1 as [|st st' Hreach IH Hstep].
  - apply accounting_inv_initial.
  - eapply accounting_inv_step; [|done|done].
    by apply ownership_inv_reachable.
Qed.

(** Chunks are neither lost nor counted twice: for a read whose
    counters a runner has cleared, the chunks applied so far and the
    chunks still on a request queue, in a batch or awaiting the
    aggregator add up to the chunks issued for it. *)
Theorem chunks_conserved (cfg : Config) (st : Node) (id : nat) (r : Read) :
  reachable cfg st ->
  begun st id -> reads st !! id = Some r ->
  num_modbase_chunks_called r + chunks_of id (in_flight st)
  = num_modbase_chunks r.
Proof.
  intros Hreach Hb Hr.
  destruct (accounting_inv_reachable cfg st Hreach) as (Hsum & _).
  by apply Hsum.
Qed.

(** [chunks_conserved] after [overfull_schedule]: six chunks issued, none
    applied, six on the request queue. *)
Lemma chunks_conserved_witness :
  ∃ st r,
    exec_all (small_node 1) overfull_schedule (initial (small_node 1))
    = Some st
    ∧ reads st !! 0 = Some r
    ∧ num_modbase_chunks r = 6
    ∧ num_modbase_chunks_called r + chunks_of 0 (in_flight st)
      = num_modbase_chunks r.
Proof.
  destruct (exec_all (small_node 1) overfull_schedule (initial (small_node 1)))
    as [st|] eqn:Hrun; [|by vm_compute in Hrun].
  assert (Hreach : reachable (small_node 1) st)
    by (eapply exec_all_reachable; [apply reach_initial | exact Hrun]).
  destruct (reads st !! 0) as [r|] eqn:Hr;
    [|vm_compute in Hrun; injection Hrun as <-; by vm_compute in Hr].
  assert (Hb : begun st 0).
  { left. exists 0, 1. vm_compute in Hrun. by injection Hrun as <-. }
  pose proof (chunks_conserved (small_node 1) st 0 r Hreach Hb Hr) as Hacc.
  exists st, r. split_and!; [done | done | | done].
  vm_compute in Hrun. injection Hrun as <-.
  vm_compute in Hr. by injection Hr as <-.
Defined.

(** A read that has been handed to the sink is final: every chunk the
    models yield for its sequence has been issued and applied, and no
    chunk of it is left anywhere in the node. *)
Theorem forwarded_read_is_final (cfg : Config) (st : Node) (id : nat)
    (r : Read) :
  reachable cfg st ->
  id ∈ sink_messages st -> reads st !! id = Some r ->
  num_modbase_chunks_called r = total_chunks cfg (seq r)
  ∧ num_modbase_chunks r = total_chunks cfg (seq r)
  ∧ chunks_of id (in_flight st) = 0.
Proof.
  intros Hreach Hin Hr.
  destruct (accounting_inv_reachable cfg st Hreach) as (Hsum & _ & Hsink).
  destruct (Hsink id r Hin Hr) as [Hdone Htotal].
  assert (Hb : begun st id) by (unfold begun; tauto).
  pose proof (Hsum id r Hb Hr). split_and!; lia.
Qed.

(** [forwarded_read_is_final] at the end of [two_hit_schedule]. *)
Lemma forwarded_read_is_final_witness :
  ∃ st r,
    exec_all (small_node 4) two_hit_schedule (initial (small_node 4))
    = Some st
    ∧ sink_messages st = [0]
    ∧ reads st !! 0 = Some r
    ∧ total_chunks (small_node 4) (seq r) = 2
    ∧ num_modbase_chunks_called r = total_chunks (small_node 4) (seq r).
Proof.
  destruct (exec_all (small_node 4) two_hit_schedule (initial (small_node 4)))
    as [st|] eqn:Hrun; [|by vm_compute in Hrun].
  assert (Hreach : reachable (small_node 4) st)
    by (eapply exec_all_reachable; [apply reach_initial | exact Hrun]).
  destruct (reads st !! 0) as [r|] eqn:Hr;
    [|vm_compute in Hrun; injection Hrun as <-; by vm_compute in Hr].
  assert (Hin : 0 ∈ sink_messages st).
  { vm_compute in Hrun. injection Hrun as <-. by left. }
  destruct (forwarded_read_is_final (small_node 4) st 0 r Hreach Hin Hr)
    as (Hdone & _).
  exists st, r. split_and!; [done | | done | | done].
  - vm_compute in Hrun. by injection Hrun as <-.
  - vm_compute in Hrun. injection Hrun as <-.
    vm_compute in Hr. by injection Hr as <-.
Defined.


(** ** A read through the node *)

(** A read of eight bases with CG sites at positions 2 and 5, in a node
    with one model and batches of four: two chunks are issued and scored
    in one batch; the rows of positions 2 and 5 hold the quantised
    scores, every other row is as initialised; the read is handed to the
    sink once and nothing of it stays in the node. *)
Example two_hit_read_through_the_node :
  ∃ st r,
    exec_all (small_node 4) two_hit_schedule (initial (small_node 4))
    = Some st
    ∧ reachable (small_node 4) st
    ∧ sink_messages st = [0]
    ∧ m_working_reads st = []
    ∧ in_flight st = []
    ∧ reads st !! 0 = Some r
    ∧ num_modbase_chunks r = 2
    ∧ num_modbase_chunks_called r = 2
    ∧ base_mod_probs r
      = [ 1; 0; 0; 0; 0;
          1; 0; 0; 0; 0;
          0; 64; 192; 0; 0;
          0; 0; 0; 1; 0;
          1; 0; 0; 0; 0;
          0; 128; 128; 0; 0;
          0; 0; 0; 1; 0;
          1; 0; 0; 0; 0 ]%Z.
Proof.
  destruct (exec_all (small_node 4) two_hit_schedule (initial (small_node 4)))
    as [st|] eqn:Hrun; [|by vm_compute in Hrun].
  assert (Hreach : reachable (small_node 4) st)
    by (eapply exec_all_reachable; [apply reach_initial | exact Hrun]).
  vm_compute in Hrun. injection Hrun as Hst.
  eexists st, _. split_and!; [done | done | ..]; subst st; reflexivity.
Qed.


(** ** Reads without chunks, chunks without reads, reads left behind *)

Lemma issued_upto_mono (cfg : Config) (s : list ascii) (k n : nat) :
  k <= n -> issued_upto cfg k s <= issued_upto cfg n s.
Proof. induction 1; simpl; lia. Qed.

Lemma chunks_of_elem (l : list RemoraChunk) (c : RemoraChunk) :
  c ∈ l -> 0 < chunks_of (source_read c) l.
Proof.
  unfold chunks_of. induction l as [|c' l IH]; intros Hin.
  - by apply elem_of_nil in Hin.
  - apply elem_of_cons in Hin as [<-|Hin]; simpl.
    + rewrite bool_decide_eq_true_2 by done. lia.
    + specialize (IH Hin). lia.
Qed.

Lemma begun_dec (st : Node) (id : nat) : begun st id ∨ ¬ begun st id.
Proof.
  unfold begun.
  destruct (decide (id ∈ m_working_reads st)); [tauto|].
  destruct (decide (id ∈ sink_messages st)); [tauto|].
  assert (Hrs : (∃ i k, runners st !! i = Some (RGen id k))
                ∨ ¬ (∃ i k, runners st !! i = Some (RGen id k))).
  { induction (runners st) as [|pc rs IH].
    - right. intros (i & k & Hi). by rewrite lookup_nil in Hi.
    - destruct IH as [(i & k & Hi)|Hno]; [left; by exists (S i), k|].
      assert (Hpc : (∃ k, pc = RGen id k) ∨ ¬ (∃ k, pc = RGen id k)).
      { destruct pc as [| |id' k'|]; try by (right; intros [? [=]]).
        destruct (decide (id' = id)) as [->|Hne]; [left; by exists k'|].
        right. intros [? [=]]. done. }
      destruct Hpc as [[k ->]|Hpc]; [left; by exists 0, k|].
      right. intros ([|i] & k & Hi); simpl in Hi.
      + apply Hpc. exists k. congruence.
      + apply Hno. by exists i, k. }
  tauto.
Qed.

Lemma concat_all_nil {A} (ll : list (list A)) :
  Forall (fun l => l = []) ll -> concat ll = [].
Proof. induction 1 as [|l ll -> _ IH]; simpl; done. Qed.

(** Zero-chunk bypass: a read whose sequence no model matches never has
    a chunk on a request queue, in a batch or awaiting the aggregator and
    is never on the working list; the runner that holds it hands it to
    the sink itself when its model loop is over. *)
Theorem zero_chunk_bypass (cfg : Config) (st : Node) (i id k : nat)
    (r : Read) :
  reachable cfg st ->
  runners st !! i = Some (RGen id k) -> reads st !! id = Some r ->
  total_chunks cfg (seq r) = 0 ->
  chunks_of id (in_flight st) = 0
  ∧ (id ∉ m_working_reads st)
  ∧ (¬ k < num_models cfg ->
       ∃ st', step cfg st st'
              ∧ sink_messages st' = sink_messages st ++ [id]
              ∧ m_working_reads st' = m_working_reads st
              ∧ in_flight st' = in_flight st).
Proof.
  intros Hreach Hi Hr Hzero.
  destruct (ownership_inv_reachable cfg st Hreach) as (Hnd & _ & Hgen & _).
  destruct (owned_parts st Hnd) as (_ & Hhw & _).
  destruct (accounting_inv_reachable cfg st Hreach) as (Hsum & _).
  destruct (Hgen i id k r Hi Hr) as [Hk Hnum].
  pose proof (issued_upto_mono cfg (seq r) k (num_models cfg) Hk) as Hle.
  unfold total_chunks in Hzero.
  assert (Hb : begun st id) by (left; by exists i, k).
  pose proof (Hsum id r Hb Hr) as Hacc.
  split_and!.
  - lia.
  - apply Hhw. by eapply (held_elem _ i (RGen id k)).
  - intros Hend.
    exists (set_runners (<[i := RPop]> (runners st))
              (set_sink_messages (sink_messages st ++ [id]) st)).
    split; [|done].
    apply (r_finish cfg st i id k); [done | done |].
    unfold runner_finish. rewrite Hr. simpl.
    case_decide; [exfalso; lia | done].
Qed.

(** [zero_chunk_bypass] for the read "AT" on [small_node 1], after the
    runner's pass over the only model. *)
Lemma zero_chunk_bypass_witness :
  ∃ st st',
    exec_all (small_node 1)
      [EnvPush 0 (fresh_read ["A"; "T"]%char); RPopL 0; RBegin 0; REnqueue 0]
      (initial (small_node 1)) = Some st
    ∧ in_flight st = []
    ∧ step (small_node 1) st st'
    ∧ sink_messages st' = [0]
    ∧ m_working_reads st' = [].
Proof.
  destruct (exec_all (small_node 1)
              [EnvPush 0 (fresh_read ["A"; "T"]%char); RPopL 0; RBegin 0;
               REnqueue 0]
              (initial (small_node 1))) as [st|] eqn:Hrun;
    [|by vm_compute in Hrun].
  assert (Hreach : reachable (small_node 1) st)
    by (eapply exec_all_reachable; [apply reach_initial | exact Hrun]).
  destruct (reads st !! 0) as [r|] eqn:Hr;
    [|vm_compute in Hrun; injection Hrun as <-; by vm_compute in Hr].
  assert (Hi : runners st !! 0 = Some (RGen 0 1)).
  { vm_compute in Hrun. by injection Hrun as <-. }
  assert (Hzero : total_chunks (small_node 1) (seq r) = 0).
  { vm_compute in Hrun. injection Hrun as <-.
    vm_compute in Hr. by injection Hr as <-. }
  destruct (zero_chunk_bypass (small_node 1) st 0 0 1 r Hreach Hi Hr Hzero)
    as (_ & _ & Hstep).
  destruct Hstep as (st' & Hstep & Hsink & Hwork & _).
  { vm_compute. lia. }
  exists st, st'. rewrite Hsink, Hwork.
  vm_compute in Hrun. injection Hrun as <-.
  split_and!; done.
Defined.

(** The read of a chunk in flight is still with the node: it is known,
    it has not been handed to the sink, and a runner or the working list
    holds it, so the chunk's weak pointer to it can be locked. *)
Theorem chunk_source_alive (cfg : Config) (st : Node) (c : RemoraChunk) :
  reachable cfg st -> c ∈ in_flight st ->
  is_Some (reads st !! source_read c)
  ∧ (source_read c ∉ sink_messages st)
  ∧ ((∃ i k, runners st !! i = Some (RGen (source_read c) k))
     ∨ source_read c ∈ m_working_reads st).
Proof.
  intros Hreach Hin%chunks_of_elem.
  destruct (ownership_inv_reachable cfg st Hreach) as (_ & Hdom & _).
  destruct (accounting_inv_reachable cfg st Hreach) as (Hsum & Hnone & Hsink).
  destruct (begun_dec st (source_read c)) as [Hb|Hnb];
    [|specialize (Hnone _ Hnb); lia].
  destruct (Hdom _ (begun_owned _ _ Hb)) as [r Hr].
  assert (Hns : source_read c ∉ sink_messages st).
  { intros Hs. destruct (Hsink _ r Hs Hr) as [Hdone _].
    specialize (Hsum _ r Hb Hr). lia. }
  split_and!; [by exists r | done |].
  destruct Hb as [?|[?|?]]; [by left | by right | done].
Qed.

(** [chunk_source_alive] after [overfull_schedule], for the first chunk
    on the request queue. *)
Lemma chunk_source_alive_witness :
  ∃ st,
    exec_all (small_node 1) overfull_schedule (initial (small_node 1))
    = Some st
    ∧ mkChunk 0 0 [] ∈ in_flight st
    ∧ is_Some (reads st !! 0)
    ∧ (0 ∉ sink_messages st).
Proof.
  destruct (exec_all (small_node 1) overfull_schedule (initial (small_node 1)))
    as [st|] eqn:Hrun; [|by vm_compute in Hrun].
  assert (Hreach : reachable (small_node 1) st)
    by (eapply exec_all_reachable; [apply reach_initial | exact Hrun]).
  assert (Hin : mkChunk 0 0 [] ∈ in_flight st).
  { vm_compute in Hrun. injection Hrun as <-. by left. }
  destruct (chunk_source_alive (small_node 1) st _ Hreach Hin)
    as (Hsome & Hns & _).
  exists st. split_and!; done.
Defined.

(** What the race on the working list can cost: once the sink has been
    terminated nothing is in flight, so a read still on the working list
    has every one of its chunks applied; it is complete and was never
    handed over. *)
Theorem left_behind_reads_are_complete (cfg : Config) (st : Node) (id : nat)
    (r : Read) :
  reachable cfg st -> sink_terminated st = true ->
  id ∈ m_working_reads st -> reads st !! id = Some r ->
  num_modbase_chunks r ≠ 0
  ∧ num_modbase_chunks_called r = num_modbase_chunks r
  ∧ num_modbase_chunks r = total_chunks cfg (seq r)
  ∧ (id ∉ sink_messages st).
Proof.
  intros Hreach Hterm Hin Hr.
  destruct (ownership_inv_reachable cfg st Hreach) as (Hnd & _ & _ & Hwork).
  destruct (owned_parts st Hnd) as (_ & _ & _ & Hws & _).
  destruct (accounting_inv_reachable cfg st Hreach) as (Hsum & _).
  destruct (shutdown_inv_terminated cfg st (shutdown_inv_reachable cfg st Hreach)
              Hterm) as (_ & _ & Hp & Hb & Hq).
  destruct (Hwork id r Hin Hr) as [Hne Htot].
  assert (Hbegun : begun st id) by (unfold begun; tauto).
  specialize (Hsum id r Hbegun Hr).
  assert (Hnil : in_flight st = []).
  { unfold in_flight. by rewrite (concat_all_nil _ Hq), (concat_all_nil _ Hb), Hp. }
  rewrite Hnil in Hsum. change (chunks_of id []) with 0 in Hsum.
  split_and!; [done | lia | done | by apply Hws].
Qed.

(** [left_behind_reads_are_complete] at the end of [lost_read_schedule]. *)
Lemma left_behind_reads_are_complete_witness :
  ∃ st r,
    exec_all (small_node 1) lost_read_schedule (initial (small_node 1))
    = Some st
    ∧ sink_terminated st = true
    ∧ m_working_reads st = [0]
    ∧ reads st !! 0 = Some r
    ∧ num_modbase_chunks_called r = num_modbase_chunks r.
Proof.
  destruct (exec_all (small_node 1) lost_read_schedule (initial (small_node 1)))
    as [st|] eqn:Hrun; [|by vm_compute in Hrun].
  assert (Hreach : reachable (small_node 1) st)
    by (eapply exec_all_reachable; [apply reach_initial | exact Hrun]).
  destruct (reads st !! 0) as [r|] eqn:Hr;
    [|vm_compute in Hrun; injection Hrun as <-; by vm_compute in Hr].
  assert (Hterm : sink_terminated st = true).
  { vm_compute in Hrun. by injection Hrun as <-. }
  assert (Hin : 0 ∈ m_working_reads st).
  { vm_compute in Hrun. injection Hrun as <-. by left. }
  destruct (left_behind_reads_are_complete (small_node 1) st 0 r
              Hreach Hterm Hin Hr) as (_ & Hdone & _).
  exists st, r. split_and!; [done | done | | done | done].
  vm_compute in Hrun. by injection Hrun as <-.
Defined.


(** ** The scaler: [normalisation] and [trim] *)

Section Scaler.
Local Open Scope Z_scope.

Lemma flt_fle (a b : float32) : flt a b = true -> fle a b = true.
Proof.
  destruct a as [x| | |], b as [y| | |]; simpl; try done.
  intros H%negb_true_iff. apply Qle_bool_iff.
  destruct (Qlt_le_dec x y) as [Hlt|Hle]; [by apply Qlt_le_weak|].
  apply Qle_bool_iff in Hle. congruence.
Qed.

Lemma fmax_lower (q : Q) (b : float32) : fle (FFinite q) (fmax (FFinite q) b) = true.
Proof.
  unfold fmax. destruct (flt (FFinite q) b) eqn:E.
  - by apply flt_fle.
  - simpl. apply Qle_bool_iff, Qle_refl.
Qed.

(** Whatever the quantiles are, NaN and the infinities included, the
    shift is at least 10 and the scale at least 1; neither is a NaN, so
    the division by the scale is a division by a number not below 1. *)
Theorem normalisation_floor (q20 q90 : float32) :
  fle (FFinite 10) (normalisation q20 q90).1 = true
  ∧ fle (FFinite 1) (normalisation q20 q90).2 = true
  ∧ (normalisation q20 q90).1 ≠ FNaN
  ∧ (normalisation q20 q90).2 ≠ FNaN.
Proof.
  pose proof (fmax_lower 10 (fmul (round32 (51 # 100)) (fadd q20 q90))) as H1.
  pose proof (fmax_lower 1 (fmul (round32 (53 # 100)) (fsub q90 q20))) as H2.
  unfold normalisation. cbn [fst snd].
  split_and!; [done | done | |].
  - intros E. rewrite E in H1. done.
  - intros E. rewrite E in H2. done.
Qed.

(** *** Slices *)

Lemma tensor_slice_sublist {A} (x : list A) (s e : Z) :
  tensor_slice x s e `sublist_of` x.
Proof.
  unfold tensor_slice. etrans; [apply sublist_take | apply sublist_drop].
Qed.

Lemma tensor_slice_length {A} (x : list A) (s e : Z) :
  0 <= s -> s <= e ->
  Z.of_nat (length (tensor_slice x s e))
  = Z.min e (Z.of_nat (length x)) - Z.min s (Z.of_nat (length x)).
Proof.
  intros Hs He. unfold tensor_slice.
  rewrite length_take, length_drop.
  repeat case_decide; lia.
Qed.

Lemma filter_sublist_length {A} (P : A -> Prop) `{!∀ a, Decision (P a)}
    (l1 l2 : list A) :
  l1 `sublist_of` l2 -> (length (filter P l1) <= length (filter P l2))%nat.
Proof.
  induction 1 as [|a l1 l2 _ IH|a l1 l2 _ IH]; [done| |].
  - rewrite !filter_cons. case_decide; simpl; lia.
  - rewrite filter_cons. case_decide; simpl; lia.
Qed.

Lemma count_above_slice (threshold : float32) (x : list float32) (s e : Z) :
  0 <= count_above threshold (tensor_slice x s e)
       <= count_above threshold x.
Proof.
  unfold count_above.
  pose proof (filter_sublist_length (fun v => flt threshold v = true) _ _
                (tensor_slice_sublist x s e)).
  lia.
Qed.

Lemma count_above_length (threshold : float32) (x : list float32) :
  0 <= count_above threshold x <= Z.of_nat (length x).
Proof. unfold count_above. pose proof (length_filter (fun v => flt threshold v = true) x). lia. Qed.

Lemma count_above_all (threshold : float32) (x : list float32) :
  Forall (fun v => flt threshold v = true) x ->
  count_above threshold x = Z.of_nat (length x).
Proof.
  unfold count_above. induction 1 as [|v x Hv _ IH]; [done|].
  rewrite filter_cons. rewrite decide_True by done. simpl. lia.
Qed.

Lemma int_arith_Ok (r v : Z) :
  int_arith r = Ok v -> v = r ∧ INT_MIN <= r <= INT_MAX.
Proof. unfold int_arith. case_decide; [|done]. by intros [= <-]. Qed.

Lemma int_arith_in (r : Z) : INT_MIN <= r <= INT_MAX -> int_arith r = Ok r.
Proof. intros H. unfold int_arith. by rewrite decide_True. Qed.

Lemma item_int_in (c : Z) : INT_MIN <= c <= INT_MAX -> item_int c = Ok c.
Proof. intros H. unfold item_int. by rewrite decide_True. Qed.

Lemma item_int_Ok (c v : Z) : item_int c = Ok v -> v = c.
Proof. unfold item_int. case_decide; [|done]. by intros [= <-]. Qed.

Lemma tensor_last_Ok (x : list float32) (v : float32) :
  tensor_last x = Ok v -> last x = Some v.
Proof. unfold tensor_last. destruct (last x); [|done]. by intros [= <-]. Qed.

(** *** The loop of [trim] *)

Lemma trim_windows_step (signal : list float32) (window_size : Z)
    (threshold : float32) (min_elements : Z) (max_trim : float32)
    (num_samples : Z) (n : nat) (pos : Z) (seen_peak : bool) (r : Z) :
  trim_windows signal window_size threshold min_elements max_trim
    num_samples (S n) pos seen_peak = Ok r ->
  let window := trim_window signal window_size pos in
  let end_ := pos * window_size + 10 + window_size in
  if bool_decide (count_above threshold window > min_elements) || seen_peak
  then ∃ v, last window = Some v
            ∧ if flt threshold v
              then trim_windows signal window_size threshold min_elements
                     max_trim num_samples n (pos + 1) true = Ok r
              else if bool_decide (end_ >= num_samples)
                      || fle (fmul max_trim
                                (float_of_Z (Z.of_nat (length signal))))
                             (float_of_Z end_)
                   then r = 10 else r = end_
  else trim_windows signal window_size threshold min_elements max_trim
         num_samples n (pos + 1) seen_peak = Ok r.
Proof.
  cbn [trim_windows]. intros H. outcome_inv H.
  apply int_arith_Ok in E as [-> _]. apply int_arith_Ok in E0 as [-> _].
  apply int_arith_Ok in E1 as [-> _]. apply item_int_Ok in E2 as ->.
  cbv zeta. unfold trim_window.
  destruct (bool_decide _ || seen_peak); [|done].
  outcome_inv H. apply tensor_last_Ok in E. exists a. split; [done|].
  destruct (flt threshold a); [done|].
  destruct (bool_decide _ || fle _ _); by injection H as <-.
Qed.

Lemma trim_windows_cut (signal : list float32) (window_size : Z)
    (threshold : float32) (min_elements : Z) (max_trim : float32)
    (num_samples : Z) :
  ∀ (n : nat) (pos : Z) (seen_peak : bool) (r : Z),
    trim_windows signal window_size threshold min_elements max_trim
      num_samples n pos seen_peak = Ok r ->
    r = 10
    ∨ ∃ p p0,
        pos <= p0 <= p ∧ p < pos + Z.of_nat n
        ∧ (seen_peak = true -> p0 = pos)
        ∧ r = p * window_size + 10 + window_size
        ∧ r < num_samples
        ∧ fle (fmul max_trim (float_of_Z (Z.of_nat (length signal))))
              (float_of_Z r) = false
        ∧ (∀ p', pos <= p' < p0 ->
             count_above threshold (trim_window signal window_size p')
             <= min_elements)
        ∧ (seen_peak = false ->
             count_above threshold (trim_window signal window_size p0)
             > min_elements)
        ∧ (∀ p', p0 <= p' < p ->
             ∃ v, last (trim_window signal window_size p') = Some v
                  ∧ flt threshold v = true)
        ∧ (∃ v, last (trim_window signal window_size p) = Some v
                ∧ flt threshold v = false).
Proof.
  induction n as [|n IH]; intros pos seen_peak r H.
  { left. by injection H as <-. }
  apply trim_windows_step in H. cbv zeta in H.
  destruct (bool_decide (count_above threshold
                           (trim_window signal window_size pos)
                         > min_elements)) eqn:Hpeak;
    [apply bool_decide_eq_true in Hpeak
    |apply bool_decide_eq_false in Hpeak]; simpl in H.
  - destruct H as (v & Hlast & H). destruct (flt threshold v) eqn:Hv.
    + apply IH in H as [->|(p & p0 & Hp0 & Hp & Hseen & -> & Hns & Hmax
                             & _ & _ & Habove & Hend)]; [by left|].
      right. rewrite (Hseen eq_refl) in *. exists p, pos.
      split_and!; try done; try lia.
      * intros p' Hp'. destruct (decide (p' = pos)) as [->|]; [by exists v|].
        apply Habove. lia.
    + destruct (bool_decide _ || fle _ _) eqn:Hstop; [by left|]. subst r.
      apply orb_false_iff in Hstop as [Hns%bool_decide_eq_false Hmax].
      right. exists pos, pos.
      split_and!; try done; try lia. by exists v.
  - destruct seen_peak; simpl in H.
    + destruct H as (v & Hlast & H). destruct (flt threshold v) eqn:Hv.
      * apply IH in H as [->|(p & p0 & Hp0 & Hp & Hseen & -> & Hns & Hmax
                               & _ & _ & Habove & Hend)]; [by left|].
        right. rewrite (Hseen eq_refl) in *. exists p, pos.
        split_and!; try done; try lia.
        intros p' Hp'. destruct (decide (p' = pos)) as [->|]; [by exists v|].
        apply Habove. lia.
      * destruct (bool_decide _ || fle _ _) eqn:Hstop; [by left|]. subst r.
        apply orb_false_iff in Hstop as [Hns%bool_decide_eq_false Hmax].
        right. exists pos, pos.
        split_and!; try done; try lia. by exists v.
    + apply IH in H as [->|(p & p0 & Hp0 & Hp & _ & -> & Hns & Hmax
                             & Hquiet & Hpk & Habove & Hend)]; [by left|].
      right. exists p, p0.
      split_and!; try done; try lia.
      intros p' Hp'. destruct (decide (p' = pos)) as [->|]; [lia|].
      apply Hquiet. lia.
Qed.

(** Where [trim] cuts.  A result other than 10 is the end of a window
    [p]: it lies below [max_samples] and below the length of the signal,
    the test against [max_trim] did not stop it, some window [p0] at or
    before [p] is the first with more than [min_elements] samples above
    the threshold, every window from [p0] up to [p] ends above the
    threshold, and window [p] does not. *)
Theorem trim_cuts_after_peak (signal : list float32) (window_size : Z)
    (threshold : float32) (min_elements max_samples : Z)
    (max_trim : float32) (r : Z) :
  trim signal window_size threshold min_elements max_samples max_trim = Ok r ->
  r ≠ 10 ->
  ∃ p p0,
    0 <= p0 <= p
    ∧ r = (p + 1) * window_size + 10
    ∧ r < max_samples ∧ r < to_int (Z.of_nat (length signal))
    ∧ fle (fmul max_trim (float_of_Z (Z.of_nat (length signal))))
          (float_of_Z r) = false
    ∧ (∀ p', 0 <= p' < p0 ->
         count_above threshold (trim_window signal window_size p')
         <= min_elements)
    ∧ count_above threshold (trim_window signal window_size p0) > min_elements
    ∧ (∀ p', p0 <= p' < p ->
         ∃ v, last (trim_window signal window_size p') = Some v
              ∧ flt threshold v = true)
    ∧ (∃ v, last (trim_window signal window_size p) = Some v
            ∧ flt threshold v = false).
Proof.
  unfold trim. intros H Hr. outcome_inv H.
  apply trim_windows_cut in H
    as [->|(p & p0 & Hp0 & _ & _ & -> & Hns & Hmax & Hquiet & Hpk & Habove
            & Hend)]; [done|].
  exists p, p0. split_and!; try done; try lia.
Qed.

Lemma to_int_small (x : Z) : 0 <= x <= INT_MAX -> to_int x = x.
Proof.
  unfold to_int, INT_MAX. intros H. rewrite Z.mod_small by lia. lia.
Qed.

Lemma to_int_le (x : Z) : 0 <= x -> to_int x <= x.
Proof.
  unfold to_int. intros H.
  pose proof (Z.mod_le (x + 2 ^ 31) (2 ^ 32) ltac:(lia) ltac:(lia)). lia.
Qed.

Lemma quot_window_bounds (a b : Z) :
  0 < b ->
  (0 <= a -> 0 <= a `quot` b ∧ (a `quot` b) * b <= a)
  ∧ (a < 0 -> a <= a `quot` b <= 0).
Proof.
  intros Hb. split; intros Ha.
  - pose proof (Z.mul_quot_le a b ltac:(lia) ltac:(lia)).
    pose proof (Z.quot_pos a b ltac:(lia) Hb). lia.
  - pose proof (Z.mul_quot_ge a b ltac:(lia) ltac:(lia)). nia.
Qed.

Lemma tensor_slice_nonempty {A} (x : list A) (s e : Z) :
  0 <= s < Z.of_nat (length x) -> s < e -> tensor_slice x s e ≠ [].
Proof.
  intros Hs He Hnil.
  pose proof (tensor_slice_length x s e ltac:(lia) ltac:(lia)) as Hlen.
  rewrite Hnil in Hlen. simpl in Hlen. lia.
Qed.

Lemma tensor_slice_Forall {A} (P : A -> Prop) (x : list A) (s e : Z) :
  Forall P x -> Forall P (tensor_slice x s e).
Proof. intros H. unfold tensor_slice. by apply Forall_take, Forall_drop. Qed.

Lemma tensor_slice_past {A} (x : list A) (s e : Z) :
  Z.of_nat (length x) <= s -> s <= e -> tensor_slice x s e = [].
Proof.
  intros Hs He. apply length_zero_iff_nil.
  pose proof (tensor_slice_length x s e ltac:(lia) ltac:(lia)). lia.
Qed.

(** The index [trim] returns is at least 10 for a positive window size.
    It is either exactly 10 or lies inside the signal and below
    [max_samples]; a signal of ten samples or fewer, the empty one
    included, gets 10, an index past its end. *)
Theorem trim_result_bounds (signal : list float32) (window_size : Z)
    (threshold : float32) (min_elements max_samples : Z)
    (max_trim : float32) (r : Z) :
  0 < window_size ->
  trim signal window_size threshold min_elements max_samples max_trim = Ok r ->
  10 <= r
  ∧ (r = 10 ∨ (r < Z.of_nat (length signal) ∧ r < max_samples))
  ∧ (Z.of_nat (length signal) <= 10 -> r = 10).
Proof.
  intros Hw H.
  pose proof (to_int_le (Z.of_nat (length signal)) ltac:(lia)) as Hsize.
  destruct (decide (r = 10)) as [->|Hr]; [split_and!; [lia | by left | done]|].
  destruct (trim_cuts_after_peak _ _ _ _ _ _ _ H Hr)
    as (p & p0 & Hp & -> & Hmax & Hlen & _).
  split_and!; [nia | right; lia | nia].
Qed.

Lemma trim_windows_returns (signal : list float32) (window_size : Z)
    (threshold : float32) (min_elements : Z) (max_trim : float32)
    (num_samples : Z) :
  10 < window_size ->
  Z.of_nat (length signal) + window_size + 10 <= INT_MAX ->
  ∀ (n : nat) (pos : Z) (seen_peak : bool),
    0 <= pos ->
    (pos + Z.of_nat n) * window_size <= Z.of_nat (length signal) ->
    ∃ r, trim_windows signal window_size threshold min_elements max_trim
           num_samples n pos seen_peak = Ok r.
Proof.
  intros Hw Hmax. unfold INT_MAX in Hmax.
  induction n as [|n IH]; intros pos seen_peak Hpos Hfit; [by exists 10|].
  cbn [trim_windows].
  rewrite (int_arith_in (pos * window_size)) by (unfold INT_MIN, INT_MAX; nia).
  cbn [mbind outcome_bind].
  rewrite (int_arith_in (pos * window_size + 10))
    by (unfold INT_MIN, INT_MAX; nia).
  cbn [mbind outcome_bind].
  rewrite (int_arith_in (pos * window_size + 10 + window_size))
    by (unfold INT_MIN, INT_MAX; nia).
  cbn [mbind outcome_bind].
  set (window := tensor_slice signal (pos * window_size + 10)
                   (pos * window_size + 10 + window_size)).
  pose proof (count_above_length threshold window) as Hc.
  pose proof (sublist_length _ _ (tensor_slice_sublist signal
                (pos * window_size + 10)
                (pos * window_size + 10 + window_size))) as Hsub.
  fold window in Hsub.
  rewrite item_int_in by (unfold INT_MIN, INT_MAX; lia).
  cbn [mbind outcome_bind].
  assert (Hne : window ≠ []) by (apply tensor_slice_nonempty; nia).
  apply last_is_Some in Hne as [v Hv].
  destruct (bool_decide _ || seen_peak).
  - unfold tensor_last. rewrite Hv. cbn [mbind outcome_bind].
    destruct (flt threshold v); [apply IH; nia|].
    destruct (bool_decide _ || fle _ _); by eexists.
  - apply IH; nia.
Qed.

(** With windows of more than ten samples [trim] returns: on a signal
    that is not too long for [int] arithmetic, no index is out of range
    and nothing is thrown, whatever the samples are. *)
Theorem trim_returns (signal : list float32) (window_size : Z)
    (threshold : float32) (min_elements max_samples : Z)
    (max_trim : float32) :
  10 < window_size ->
  Z.of_nat (length signal) + window_size + 10 <= INT_MAX ->
  INT_MIN <= max_samples ->
  ∃ r, trim signal window_size threshold min_elements max_samples max_trim
       = Ok r.
Proof.
  intros Hw Hmax Hms. unfold trim.
  rewrite to_int_small by (unfold INT_MAX in *; lia).
  set (num_samples := Z.min max_samples (Z.of_nat (length signal))).
  destruct (quot_window_bounds num_samples window_size ltac:(lia))
    as [Hnonneg Hneg].
  unfold int_div. rewrite decide_False by lia.
  rewrite int_arith_in
    by (unfold INT_MIN, INT_MAX in *;
        destruct (decide (0 <= num_samples)); [nia | lia]).
  cbn [mbind outcome_bind].
  apply trim_windows_returns; [done | done | lia |].
  destruct (decide (0 <= num_samples)) as [Hn|Hn].
  - rewrite Z2Nat.id by lia. lia.
  - lia.
Qed.

Lemma trim_windows_quiet (signal : list float32) (window_size : Z)
    (threshold : float32) (min_elements : Z) (max_trim : float32)
    (num_samples : Z) :
  0 < window_size ->
  Z.of_nat (length signal) + window_size + 10 <= INT_MAX ->
  count_above threshold signal <= min_elements ->
  ∀ (n : nat) (pos : Z),
    0 <= pos ->
    (pos + Z.of_nat n) * window_size <= Z.of_nat (length signal) ->
    trim_windows signal window_size threshold min_elements max_trim
      num_samples n pos false = Ok 10.
Proof.
  intros Hw Hmax Hquiet. unfold INT_MAX in Hmax.
  induction n as [|n IH]; intros pos Hpos Hfit; [done|].
  cbn [trim_windows].
  rewrite (int_arith_in (pos * window_size)) by (unfold INT_MIN, INT_MAX; nia).
  cbn [mbind outcome_bind].
  rewrite (int_arith_in (pos * window_size + 10))
    by (unfold INT_MIN, INT_MAX; nia).
  cbn [mbind outcome_bind].
  rewrite (int_arith_in (pos * window_size + 10 + window_size))
    by (unfold INT_MIN, INT_MAX; nia).
  cbn [mbind outcome_bind].
  pose proof (count_above_slice threshold signal (pos * window_size + 10)
                (pos * window_size + 10 + window_size)) as Hc.
  pose proof (count_above_length threshold signal) as Hl.
  rewrite item_int_in by (unfold INT_MIN, INT_MAX; lia).
  cbn [mbind outcome_bind].
  rewrite bool_decide_eq_false_2 by lia. simpl.
  apply IH; nia.
Qed.

(** A signal with no more than [min_elements] samples above the
    threshold is not trimmed beyond the first ten samples. *)
Theorem trim_quiet_signal (signal : list float32) (window_size : Z)
    (threshold : float32) (min_elements max_samples : Z)
    (max_trim : float32) :
  0 < window_size ->
  Z.of_nat (length signal) + window_size + 10 <= INT_MAX ->
  INT_MIN <= max_samples ->
  count_above threshold signal <= min_elements ->
  trim signal window_size threshold min_elements max_samples max_trim = Ok 10.
Proof.
  intros Hw Hmax Hms Hquiet. unfold trim.
  rewrite to_int_small by (unfold INT_MAX in *; lia).
  set (num_samples := Z.min max_samples (Z.of_nat (length signal))).
  destruct (quot_window_bounds num_samples window_size ltac:(lia))
    as [Hnonneg Hneg].
  unfold int_div. rewrite decide_False by lia.
  rewrite int_arith_in
    by (unfold INT_MIN, INT_MAX in *;
        destruct (decide (0 <= num_samples)); [nia | lia]).
  cbn [mbind outcome_bind].
  apply trim_windows_quiet; [done | done | done | lia |].
  destruct (decide (0 <= num_samples)) as [Hn|Hn].
  - rewrite Z2Nat.id by lia. lia.
  - lia.
Qed.

Lemma trim_windows_all_above (signal : list float32) (window_size : Z)
    (threshold : float32) (min_elements : Z) (max_trim : float32)
    (num_samples num_windows : Z) :
  0 < window_size ->
  Z.of_nat (length signal) + window_size + 10 <= INT_MAX ->
  10 + window_size <= Z.of_nat (length signal) ->
  min_elements < window_size ->
  Forall (fun v => flt threshold v = true) signal ->
  num_windows * window_size <= Z.of_nat (length signal) ->
  Z.of_nat (length signal) <= (num_windows - 1) * window_size + 10 ->
  ∀ (n : nat) (pos : Z) (seen_peak : bool),
    0 <= pos -> pos + Z.of_nat (S n) = num_windows ->
    seen_peak = true ∨ pos = 0 ->
    trim_windows signal window_size threshold min_elements max_trim
      num_samples (S n) pos seen_peak
    = Throw index_error.
Proof.
  intros Hw Hmax Hlong Hmin Hall Hfit Hlast. unfold INT_MAX in Hmax.
  induction n as [|n IH]; intros pos seen_peak Hpos Hn Hseen;
    cbn [trim_windows];
    rewrite (int_arith_in (pos * window_size))
      by (unfold INT_MIN, INT_MAX; nia);
    cbn [mbind outcome_bind];
    rewrite (int_arith_in (pos * window_size + 10))
      by (unfold INT_MIN, INT_MAX; nia);
    cbn [mbind outcome_bind];
    rewrite (int_arith_in (pos * window_size + 10 + window_size))
      by (unfold INT_MIN, INT_MAX; nia);
    cbn [mbind outcome_bind];
    set (window := tensor_slice signal (pos * window_size + 10)
                     (pos * window_size + 10 + window_size));
    pose proof (count_above_length threshold window) as Hc;
    pose proof (sublist_length _ _ (tensor_slice_sublist signal
                  (pos * window_size + 10)
                  (pos * window_size + 10 + window_size))) as Hsub;
    fold window in Hsub;
    rewrite item_int_in by (unfold INT_MIN, INT_MAX; lia);
    cbn [mbind outcome_bind].
  - (* the last window lies past the signal *)
    assert (Hpos' : pos = num_windows - 1) by lia.
    assert (Hnil : window = [])
      by (apply tensor_slice_past; subst pos; [exact Hlast | clear -Hw; lia]).
    destruct Hseen as [-> | Hz];
      [|exfalso; clear -Hz Hpos' Hlast Hlong Hw;
        replace num_windows with 1 in Hlast by lia; lia].
    rewrite Hnil, orb_true_r. done.
  - destruct (decide (window = [])) as [Hnil|Hne].
    { destruct Hseen as [-> | Hz]; [by rewrite Hnil, orb_true_r|].
      exfalso. revert Hnil. apply tensor_slice_nonempty; subst pos; lia. }
    assert (Hcount : count_above threshold window > min_elements
                     ∨ seen_peak = true).
    { destruct Hseen as [-> | ->]; [by right|left].
      rewrite count_above_all by (by apply tensor_slice_Forall).
      unfold window. rewrite tensor_slice_length by lia. lia. }
    replace (bool_decide (count_above threshold window > min_elements)
             || seen_peak) with true
      by (destruct Hcount as [?| ->];
          [by rewrite bool_decide_eq_true_2 | by rewrite orb_true_r]).
    apply last_is_Some in Hne as [v Hv].
    unfold tensor_last. rewrite Hv. cbn [mbind outcome_bind].
    assert (Hin : v ∈ window).
    { apply last_Some in Hv as [l' ->]. apply elem_of_app. right. by left. }
    assert (Hv' : flt threshold v = true).
    { pose proof (tensor_slice_Forall _ signal (pos * window_size + 10)
                    (pos * window_size + 10 + window_size) Hall) as Hw'.
      rewrite Forall_forall in Hw'. by apply Hw'. }
    rewrite Hv'. apply IH; [lia | lia | by left].
Qed.

(** With windows of ten samples or fewer [trim] can fail: on a signal
    whose samples all lie above the threshold, whose first window is
    inside the signal and whose last window starts past its end, the
    scan runs into an empty window and libtorch throws an index error. *)
Theorem trim_small_window_throws (signal : list float32) (window_size : Z)
    (threshold : float32) (min_elements max_samples : Z)
    (max_trim : float32) :
  0 < window_size ->
  Z.of_nat (length signal) `mod` window_size + window_size <= 10 ->
  10 + window_size <= Z.of_nat (length signal) ->
  Z.of_nat (length signal) + window_size + 10 <= INT_MAX ->
  Z.of_nat (length signal) <= max_samples ->
  min_elements < window_size ->
  Forall (fun v => flt threshold v = true) signal ->
  trim signal window_size threshold min_elements max_samples max_trim
  = Throw index_error.
Proof.
  intros Hw Hmod Hlong Hmax Hms Hmin Hall. unfold trim.
  rewrite to_int_small by (unfold INT_MAX in *; lia).
  rewrite Z.min_r by lia.
  set (size := Z.of_nat (length signal)) in *.
  unfold int_div. rewrite decide_False by lia.
  rewrite Z.quot_div_nonneg by lia.
  pose proof (Z.div_mod size window_size ltac:(lia)) as Hdm.
  pose proof (Z.mod_pos_bound size window_size Hw) as Hmb.
  assert (Hnw : 2 <= size `div` window_size).
  { apply Z.div_le_lower_bound; lia. }
  rewrite int_arith_in by (unfold INT_MIN, INT_MAX in *; nia).
  cbn [mbind outcome_bind].
  destruct (Z.to_nat (size `div` window_size)) as [|n] eqn:Hn; [lia|].
  apply (trim_windows_all_above signal window_size threshold min_elements
           max_trim size (size `div` window_size));
    try done; try lia; try nia.
Qed.

(** [trim_cuts_after_peak] on [peak_signal] with windows of 12 samples:
    the cut is at 34, the end of the second window. *)
Lemma trim_cuts_after_peak_witness :
  trim peak_signal 12 (FFinite 5) 3 8000 (FFinite (9 # 10)) = Ok 34
  ∧ ∃ p p0, 0 <= p0 <= p ∧ 34 = (p + 1) * 12 + 10
            ∧ count_above (FFinite 5) (trim_window peak_signal 12 p0) > 3.
Proof.
  assert (H : trim peak_signal 12 (FFinite 5) 3 8000 (FFinite (9 # 10))
              = Ok 34) by (vm_compute; reflexivity).
  split; [exact H|].
  destruct (trim_cuts_after_peak _ _ _ _ _ _ _ H ltac:(lia))
    as (p & p0 & Hp & Hr & _ & _ & _ & _ & Hpk & _).
  exists p, p0. exact (conj Hp (conj Hr Hpk)).
Defined.

(** [trim_result_bounds] on [peak_signal]. *)
Lemma trim_result_bounds_witness :
  trim peak_signal 12 (FFinite 5) 3 8000 (FFinite (9 # 10)) = Ok 34
  ∧ 10 <= 34
  ∧ (34 = 10 ∨ (34 < Z.of_nat (length peak_signal) ∧ 34 < 8000)).
Proof.
  assert (H : trim peak_signal 12 (FFinite 5) 3 8000 (FFinite (9 # 10))
              = Ok 34) by (vm_compute; reflexivity).
  split; [exact H|].
  destruct (trim_result_bounds peak_signal 12 (FFinite 5) 3 8000
              (FFinite (9 # 10)) 34 ltac:(lia) H) as (H1 & H2 & _).
  exact (conj H1 H2).
Defined.

(** [trim_returns] on [peak_signal], whatever the other arguments. *)
Lemma trim_returns_witness :
  ∃ r, trim peak_signal 12 (FFinite 5) 3 8000 FNaN = Ok r.
Proof.
  apply trim_returns; [lia | vm_compute; discriminate | vm_compute; discriminate].
Defined.

(** [trim_quiet_signal]: [peak_signal] has 14 samples above 5. *)
Lemma trim_quiet_signal_witness :
  trim peak_signal 12 (FFinite 5) 14 8000 (FFinite (9 # 10)) = Ok 10.
Proof.
  apply trim_quiet_signal;
    [lia | vm_compute; discriminate | vm_compute; discriminate
    | vm_compute; discriminate].
Defined.

(** [trim_small_window_throws] on forty samples at 9 with windows of
    ten. *)
Lemma trim_small_window_throws_witness :
  trim (replicate 40 (FFinite 9)) 10 (FFinite 5) 3 8000 (FFinite (9 # 10))
  = Throw index_error.
Proof.
  apply trim_small_window_throws;
    [lia | vm_compute; discriminate | vm_compute; discriminate
    | vm_compute; discriminate | vm_compute; discriminate | lia |].
  apply Forall_replicate. reflexivity.
Defined.

End Scaler.


(** ** The base-space consensus *)

Section Duplex.
Local Open Scope Z_scope.

Lemma checked_at_Ok {A} (v : list A) (cursor : Z) (a : A) :
  checked_at v cursor = Ok a -> v !! Z.to_nat (to_size_t cursor) = Some a.
Proof. unfold checked_at. destruct (v !! _); [|done]. by intros [= <-]. Qed.

Lemma consensus_loop_shape (alignment_end_position : Z)
    (target_quality_scores query_quality_scores : list Z)
    (target_sequence query_sequence : list ascii) (alignment : list Z) :
  ∀ (n : nat) (i target_cursor query_cursor : Z) consensus quality
    consensus' quality',
    consensus_loop n i alignment_end_position
      target_quality_scores target_cursor query_quality_scores query_cursor
      target_sequence query_sequence alignment consensus quality
    = Ok (consensus', quality') ->
    ∃ bases scores,
      consensus' = consensus ++ bases ∧ quality' = quality ++ scores
      ∧ length bases = length scores
      ∧ (length bases <= n)%nat
      ∧ Forall (fun '(b, s) =>
                  (∃ j, target_sequence !! j = Some b
                        ∧ target_quality_scores !! j = Some s)
                  ∨ (∃ j, query_sequence !! j = Some b
                          ∧ query_quality_scores !! j = Some s))
               (zip bases scores).
Proof.
  induction n as [|n IH];
    intros i tc qc consensus quality consensus' quality' H;
    cbn [consensus_loop] in H.
  { injection H as <- <-. exists [], []. by rewrite !app_nil_r. }
  destruct (_ && _ && _); [|injection H as <- <-; exists [], [];
                             rewrite !app_nil_r; split_and!; simpl; try done; lia].
  destruct (checked_at target_quality_scores tc) as [tq| |] eqn:Htq;
    cbn [mbind outcome_bind] in H; try done.
  destruct (checked_at query_quality_scores qc) as [qq| |] eqn:Hqq;
    cbn [mbind outcome_bind] in H; try done.
  destruct (alignment_at alignment i) as [a| |] eqn:Ha;
    cbn [mbind outcome_bind] in H; try done.
  apply checked_at_Ok in Htq, Hqq.
  match type of H with
  | mbind _ ?m = _ => destruct m as [[c1 q1]| |] eqn:Hpush
  end; cbn [mbind outcome_bind] in H; try done.
  match type of H with
  | mbind _ ?m = _ => destruct m as [tc'| |] eqn:Htc
  end; cbn [mbind outcome_bind] in H; try done.
  match type of H with
  | mbind _ ?m = _ => destruct m as [qc'| |] eqn:Hqc
  end; cbn [mbind outcome_bind] in H; try done.
  destruct (int_arith (i + 1)) as [i'| |]; cbn [mbind outcome_bind] in H;
    try done.
  apply IH in H as (bases & scores & -> & -> & Hlen & Hn & Hfrom).
  assert (Hhead : ∃ b0 s0,
            c1 = consensus ++ b0 ∧ q1 = quality ++ s0
            ∧ length b0 = length s0 ∧ (length b0 <= 1)%nat
            ∧ Forall (fun '(b, s) =>
                  (∃ j, target_sequence !! j = Some b
                        ∧ target_quality_scores !! j = Some s)
                  ∨ (∃ j, query_sequence !! j = Some b
                          ∧ query_quality_scores !! j = Some s))
               (zip b0 s0)).
  { destruct (bool_decide (tq >= qq)).
    - destruct (bool_decide (a ≠ 2)).
      + destruct (checked_at target_sequence tc) as [b| |] eqn:Hb;
          cbn [mbind outcome_bind] in Hpush; try done.
        injection Hpush as <- <-. apply checked_at_Ok in Hb.
        exists [b], [tq]. split_and!; try done.
        constructor; [|done]. left. by eexists.
      + injection Hpush as <- <-. exists [], [].
        rewrite !app_nil_r. split_and!; simpl; try done; lia.
    - destruct (bool_decide (a ≠ 1)).
      + destruct (checked_at query_sequence qc) as [b| |] eqn:Hb;
          cbn [mbind outcome_bind] in Hpush; try done.
        injection Hpush as <- <-. apply checked_at_Ok in Hb.
        exists [b], [qq]. split_and!; try done.
        constructor; [|done]. right. by eexists.
      + injection Hpush as <- <-. exists [], [].
        rewrite !app_nil_r. split_and!; simpl; try done; lia. }
  destruct Hhead as (b0 & s0 & -> & -> & Hlen0 & Hn0 & Hfrom0).
  exists (b0 ++ bases), (s0 ++ scores).
  rewrite !app_assoc. split_and!; try done.
  - rewrite !length_app. lia.
  - rewrite length_app. lia.
  - rewrite zip_with_app by done. by apply Forall_app.
Qed.

(** The consensus and its quality scores have the same length, at most
    one entry per column of the alignment between the two positions, and
    every entry is a base of the target with the target's score at that
    base, or a base of the query with the query's score. *)
Theorem consensus_shape
    (alignment_start_position alignment_end_position : Z)
    (target_quality_scores : list Z) (target_cursor : Z)
    (query_quality_scores : list Z) (query_cursor : Z)
    (target_sequence query_sequence : list ascii) (alignment : list Z)
    (consensus : list ascii) (quality : list Z) :
  compute_basespace_consensus alignment_start_position alignment_end_position
    target_quality_scores target_cursor query_quality_scores query_cursor
    target_sequence query_sequence alignment = Ok (consensus, quality) ->
  length consensus = length quality
  ∧ Z.of_nat (length consensus)
    <= Z.max 0 (alignment_end_position - alignment_start_position)
  ∧ Forall (fun '(b, s) =>
              (∃ j, target_sequence !! j = Some b
                    ∧ target_quality_scores !! j = Some s)
              ∨ (∃ j, query_sequence !! j = Some b
                      ∧ query_quality_scores !! j = Some s))
           (zip consensus quality).
Proof.
  unfold compute_basespace_consensus.
  intros (bases & scores & -> & -> & Hlen & Hn & Hfrom)%consensus_loop_shape.
  simpl. split_and!; [done | lia | done].
Qed.

Lemma to_size_t_int (x : Z) :
  INT_MIN <= x <= INT_MAX ->
  to_size_t x = if decide (0 <= x) then x else x + 2 ^ 64.
Proof.
  unfold INT_MIN, INT_MAX, to_size_t. intros H. case_decide.
  - apply Z.mod_small. lia.
  - symmetry. apply (Z.mod_unique _ _ (-1)); lia.
Qed.

Lemma cursor_inside_true {A} (cursor : Z) (scores : list A) :
  INT_MIN <= cursor <= INT_MAX ->
  Z.of_nat (length scores) < 2 ^ 63 ->
  cursor_inside cursor scores = true ->
  0 <= cursor < Z.of_nat (length scores) ∧ to_size_t cursor = cursor.
Proof.
  intros Hc Hl H%bool_decide_eq_true. rewrite to_size_t_int in * by done.
  unfold INT_MIN in Hc. case_decide; lia.
Qed.

Lemma cursor_inside_false {A} (cursor : Z) (scores : list A) :
  INT_MIN <= cursor <= INT_MAX ->
  Z.of_nat (length scores) < 2 ^ 63 ->
  cursor_inside cursor scores = false ->
  cursor < 0 ∨ Z.of_nat (length scores) <= cursor.
Proof.
  intros Hc Hl H%bool_decide_eq_false. rewrite to_size_t_int in * by done.
  case_decide; lia.
Qed.

Lemma checked_at_inside {A} (v : list A) (cursor : Z) :
  0 <= cursor < Z.of_nat (length v) -> to_size_t cursor = cursor ->
  ∃ a, checked_at v cursor = Ok a ∧ v !! Z.to_nat cursor = Some a.
Proof.
  intros Hc Hs. unfold checked_at. rewrite Hs.
  destruct (lookup_lt_is_Some_2 v (Z.to_nat cursor) ltac:(lia)) as [a Ha].
  rewrite Ha. by exists a.
Qed.

Lemma alignment_at_inside (alignment : list Z) (i : Z) :
  0 <= i < Z.of_nat (length alignment) ->
  ∃ a, alignment_at alignment i = Ok a ∧ alignment !! Z.to_nat i = Some a.
Proof.
  intros Hi. unfold alignment_at. rewrite decide_True by lia.
  destruct (lookup_lt_is_Some_2 alignment (Z.to_nat i) ltac:(lia)) as [a Ha].
  rewrite Ha. by exists a.
Qed.

Lemma consensus_loop_returns (alignment_end_position : Z)
    (target_quality_scores query_quality_scores : list Z)
    (target_sequence query_sequence : list ascii) (alignment : list Z) :
  alignment_end_position <= Z.of_nat (length alignment) ->
  alignment_end_position <= INT_MAX ->
  (length target_quality_scores <= length target_sequence)%nat ->
  (length query_quality_scores <= length query_sequence)%nat ->
  Z.of_nat (length target_quality_scores) <= INT_MAX ->
  Z.of_nat (length query_quality_scores) <= INT_MAX ->
  ∀ (n : nat) (i target_cursor query_cursor : Z) consensus quality,
    0 <= i ->
    INT_MIN <= target_cursor <= INT_MAX ->
    INT_MIN <= query_cursor <= INT_MAX ->
    ∃ result,
      consensus_loop n i alignment_end_position
        target_quality_scores target_cursor query_quality_scores query_cursor
        target_sequence query_sequence alignment consensus quality
      = Ok result.
Proof.
  intros Hal Hend Hts Hqs Htq Hqq.
  induction n as [|n IH]; intros i tc qc consensus quality Hi Htc Hqc;
    cbn [consensus_loop]; [by eexists|].
  destruct (bool_decide (i < alignment_end_position)) eqn:Hlt;
    [apply bool_decide_eq_true in Hlt|by eexists].
  destruct (cursor_inside tc target_quality_scores) eqn:Hin1; [|by eexists].
  destruct (cursor_inside qc query_quality_scores) eqn:Hin2; [|by eexists].
  cbn [andb].
  apply cursor_inside_true in Hin1 as [Hin1 Hs1];
    [|done|unfold INT_MAX in *; lia].
  apply cursor_inside_true in Hin2 as [Hin2 Hs2];
    [|done|unfold INT_MAX in *; lia].
  destruct (checked_at_inside target_quality_scores tc Hin1 Hs1)
    as (tq & -> & _).
  destruct (checked_at_inside query_quality_scores qc Hin2 Hs2)
    as (qq & -> & _).
  destruct (alignment_at_inside alignment i ltac:(lia)) as (a & -> & _).
  destruct (checked_at_inside target_sequence tc ltac:(lia) Hs1)
    as (tb & Htb & _).
  destruct (checked_at_inside query_sequence qc ltac:(lia) Hs2)
    as (qb & Hqb & _).
  cbn [mbind outcome_bind]. rewrite Htb, Hqb.
  rewrite (int_arith_in (tc + 1)) by (unfold INT_MIN, INT_MAX in *; lia).
  rewrite (int_arith_in (qc + 1)) by (unfold INT_MIN, INT_MAX in *; lia).
  rewrite (int_arith_in (i + 1)) by (unfold INT_MIN, INT_MAX in *; lia).
  destruct (bool_decide (tq >= qq)), (bool_decide (a ≠ 2)),
    (bool_decide (a ≠ 1));
    cbn [mbind outcome_bind]; apply IH;
    unfold INT_MIN, INT_MAX in *; lia.
Qed.

(** The consensus is computed without an exception and without a read
    out of range when the alignment has a column for every position up
    to the end position, the start position is not negative, and each
    sequence is at least as long as its quality scores. *)
Theorem consensus_returns
    (alignment_start_position alignment_end_position : Z)
    (target_quality_scores : list Z) (target_cursor : Z)
    (query_quality_scores : list Z) (query_cursor : Z)
    (target_sequence query_sequence : list ascii) (alignment : list Z) :
  0 <= alignment_start_position ->
  alignment_end_position <= Z.of_nat (length alignment) ->
  alignment_end_position <= INT_MAX ->
  (length target_quality_scores <= length target_sequence)%nat ->
  (length query_quality_scores <= length query_sequence)%nat ->
  Z.of_nat (length target_quality_scores) <= INT_MAX ->
  Z.of_nat (length query_quality_scores) <= INT_MAX ->
  INT_MIN <= target_cursor <= INT_MAX ->
  INT_MIN <= query_cursor <= INT_MAX ->
  ∃ result,
    compute_basespace_consensus alignment_start_position
      alignment_end_position target_quality_scores target_cursor
      query_quality_scores query_cursor target_sequence query_sequence
      alignment = Ok result.
Proof.
  intros. unfold compute_basespace_consensus.
  by apply consensus_loop_returns.
Qed.

(** A negative cursor ends the loop before its first round: the cursor
    is compared with the number of scores as a [size_t], so it counts as
    past the end; the consensus is empty and nothing is read, not even
    the alignment. *)
Theorem consensus_negative_cursor
    (alignment_start_position alignment_end_position : Z)
    (target_quality_scores : list Z) (target_cursor : Z)
    (query_quality_scores : list Z) (query_cursor : Z)
    (target_sequence query_sequence : list ascii) (alignment : list Z) :
  INT_MIN <= target_cursor <= INT_MAX ->
  INT_MIN <= query_cursor <= INT_MAX ->
  Z.of_nat (length target_quality_scores) < 2 ^ 63 ->
  Z.of_nat (length query_quality_scores) < 2 ^ 63 ->
  target_cursor < 0 ∨ query_cursor < 0 ->
  compute_basespace_consensus alignment_start_position
    alignment_end_position target_quality_scores target_cursor
    query_quality_scores query_cursor target_sequence query_sequence
    alignment = Ok ([], []).
Proof.
  intros Htc Hqc Htq Hqq Hneg. unfold compute_basespace_consensus.
  destruct (Z.to_nat _) as [|n]; cbn [consensus_loop]; [done|].
  assert (Hout : cursor_inside target_cursor target_quality_scores
                 && cursor_inside query_cursor query_quality_scores = false).
  { apply andb_false_iff. unfold cursor_inside.
    rewrite !bool_decide_eq_false, !to_size_t_int by done.
    unfold INT_MIN, INT_MAX in *.
    destruct Hneg; [left | right]; rewrite decide_False by lia; lia. }
  rewrite <- andb_assoc, Hout, andb_false_r. done.
Qed.

Lemma consensus_loop_matches (alignment_end_position : Z)
    (target_quality_scores query_quality_scores : list Z)
    (target_sequence query_sequence : list ascii) (alignment : list Z) :
  alignment_end_position <= Z.of_nat (length alignment) ->
  alignment_end_position <= INT_MAX ->
  (length target_quality_scores <= length target_sequence)%nat ->
  (length query_quality_scores <= length query_sequence)%nat ->
  Z.of_nat (length target_quality_scores) <= INT_MAX ->
  Z.of_nat (length query_quality_scores) <= INT_MAX ->
  ∀ (n : nat) (i target_cursor query_cursor : Z) consensus quality,
    0 <= i -> 0 <= target_cursor <= INT_MAX -> 0 <= query_cursor <= INT_MAX ->
    alignment_end_position - i <= Z.of_nat n ->
    (∀ j a, i <= j < alignment_end_position ->
            alignment !! Z.to_nat j = Some a -> a ≠ 1 ∧ a ≠ 2) ->
    let m := Z.to_nat
               (Z.min (alignment_end_position - i)
                  (Z.min (Z.of_nat (length target_quality_scores)
                          - target_cursor)
                         (Z.of_nat (length query_quality_scores)
                          - query_cursor))) in
    ∃ bases scores,
      consensus_loop n i alignment_end_position
        target_quality_scores target_cursor query_quality_scores query_cursor
        target_sequence query_sequence alignment consensus quality
      = Ok (consensus ++ bases, quality ++ scores)
      ∧ length bases = m ∧ length scores = m
      ∧ ∀ (k : nat) tq qq tb qb,
          target_quality_scores !! (Z.to_nat target_cursor + k)%nat = Some tq ->
          query_quality_scores !! (Z.to_nat query_cursor + k)%nat = Some qq ->
          target_sequence !! (Z.to_nat target_cursor + k)%nat = Some tb ->
          query_sequence !! (Z.to_nat query_cursor + k)%nat = Some qb ->
          (k < m)%nat ->
          scores !! k = Some (Z.max tq qq)
          ∧ bases !! k = Some (if bool_decide (tq >= qq) then tb else qb).
Proof.
  intros Hal Hend Hts Hqs Htq Hqq.
  induction n as [|n IH];
    intros i tc qc consensus quality Hi Htc Hqc Hn Hcols m;
    cbn [consensus_loop].
  { exists [], []. rewrite !app_nil_r. subst m.
    split_and!; simpl; try done; try lia; intros; lia. }
  destruct (bool_decide (i < alignment_end_position)
            && cursor_inside tc target_quality_scores
            && cursor_inside qc query_quality_scores) eqn:Hcond.
  2:{ exists [], []. rewrite !app_nil_r.
      assert (Hm : m = 0%nat).
      { apply andb_false_iff in Hcond as [Hcond|Hcond];
          [apply andb_false_iff in Hcond as [Hcond|Hcond]|].
        - apply bool_decide_eq_false in Hcond. subst m. lia.
        - apply cursor_inside_false in Hcond;
            [|unfold INT_MIN; lia|unfold INT_MAX in *; lia]. subst m. lia.
        - apply cursor_inside_false in Hcond;
            [|unfold INT_MIN; lia|unfold INT_MAX in *; lia]. subst m. lia. }
      rewrite Hm. split_and!; simpl; try done; intros; lia. }
  apply andb_true_iff in Hcond as [Hcond Hin2].
  apply andb_true_iff in Hcond as [Hlt%bool_decide_eq_true Hin1].
  apply cursor_inside_true in Hin1 as [Hin1 Hs1];
    [|unfold INT_MIN; lia|unfold INT_MAX in *; lia].
  apply cursor_inside_true in Hin2 as [Hin2 Hs2];
    [|unfold INT_MIN; lia|unfold INT_MAX in *; lia].
  destruct (checked_at_inside target_quality_scores tc Hin1 Hs1)
    as (tq0 & -> & Htq0).
  destruct (checked_at_inside query_quality_scores qc Hin2 Hs2)
    as (qq0 & -> & Hqq0).
  destruct (alignment_at_inside alignment i ltac:(lia)) as (a & -> & Ha).
  destruct (checked_at_inside target_sequence tc ltac:(lia) Hs1)
    as (tb0 & Htb & Htb0).
  destruct (checked_at_inside query_sequence qc ltac:(lia) Hs2)
    as (qb0 & Hqb & Hqb0).
  destruct (Hcols i a ltac:(lia) Ha) as [Ha1 Ha2].
  cbn [mbind outcome_bind].
  rewrite (bool_decide_eq_true_2 (a ≠ 2)), (bool_decide_eq_true_2 (a ≠ 1))
    by done.
  rewrite Htb, Hqb.
  rewrite (int_arith_in (tc + 1)) by (unfold INT_MIN, INT_MAX in *; lia).
  rewrite (int_arith_in (qc + 1)) by (unfold INT_MIN, INT_MAX in *; lia).
  rewrite (int_arith_in (i + 1)) by (unfold INT_MIN, INT_MAX in *; lia).
  set (b0 := if bool_decide (tq0 >= qq0) then tb0 else qb0).
  assert (Hpush : (if bool_decide (tq0 >= qq0)
                   then mbind (M := outcome)
                          (fun base => Ok (consensus ++ [base], quality ++ [tq0]))
                          (Ok tb0)
                   else mbind (M := outcome)
                          (fun base => Ok (consensus ++ [base], quality ++ [qq0]))
                          (Ok qb0))
                  = Ok (consensus ++ [b0], quality ++ [Z.max tq0 qq0])).
  { subst b0. case_bool_decide; cbn [mbind outcome_bind];
      [rewrite Z.max_l by lia | rewrite Z.max_r by lia]; done. }
  rewrite Hpush. cbn [mbind outcome_bind].
  destruct (IH (i + 1) (tc + 1) (qc + 1) (consensus ++ [b0])
              (quality ++ [Z.max tq0 qq0]))
    as (bases & scores & Hrun & Hlb & Hls & Hk);
    [lia | unfold INT_MAX in *; lia | unfold INT_MAX in *; lia | lia
    | intros j a' Hj; apply Hcols; lia |].
  rewrite Hrun. exists (b0 :: bases), (Z.max tq0 qq0 :: scores).
  rewrite <- !app_assoc. simpl.
  split_and!; [done | subst m; rewrite Hlb; lia | subst m; rewrite Hls; lia|].
  intros [|k] tq qq tb qb Htqk Hqqk Htbk Hqbk Hkm.
  - rewrite Nat.add_0_r in *. simpl.
    assert (tq = tq0) as -> by congruence.
    assert (qq = qq0) as -> by congruence.
    assert (tb = tb0) as -> by congruence.
    assert (qb = qb0) as -> by congruence. done.
  - simpl. apply Hk.
    + by replace (Z.to_nat (tc + 1) + k)%nat with (Z.to_nat tc + S k)%nat by lia.
    + by replace (Z.to_nat (qc + 1) + k)%nat with (Z.to_nat qc + S k)%nat by lia.
    + by replace (Z.to_nat (tc + 1) + k)%nat with (Z.to_nat tc + S k)%nat by lia.
    + by replace (Z.to_nat (qc + 1) + k)%nat with (Z.to_nat qc + S k)%nat by lia.
    + subst m. lia.
Qed.

(** Over columns that are matches or mismatches the consensus is made
    position by position: as many entries as there are columns, target
    scores and query scores left; at each one the higher of the two
    scores, with the base of the target when its score is at least the
    query's and the base of the query otherwise. *)
Theorem consensus_of_matches
    (alignment_start_position alignment_end_position : Z)
    (target_quality_scores : list Z) (target_cursor : Z)
    (query_quality_scores : list Z) (query_cursor : Z)
    (target_sequence query_sequence : list ascii) (alignment : list Z) :
  0 <= alignment_start_position ->
  alignment_end_position <= Z.of_nat (length alignment) ->
  alignment_end_position <= INT_MAX ->
  (length target_quality_scores <= length target_sequence)%nat ->
  (length query_quality_scores <= length query_sequence)%nat ->
  Z.of_nat (length target_quality_scores) <= INT_MAX ->
  Z.of_nat (length query_quality_scores) <= INT_MAX ->
  0 <= target_cursor <= INT_MAX -> 0 <= query_cursor <= INT_MAX ->
  (∀ j a, alignment_start_position <= j < alignment_end_position ->
          alignment !! Z.to_nat j = Some a -> a ≠ 1 ∧ a ≠ 2) ->
  let m := Z.to_nat
             (Z.min (alignment_end_position - alignment_start_position)
                (Z.min (Z.of_nat (length target_quality_scores)
                        - target_cursor)
                       (Z.of_nat (length query_quality_scores)
                        - query_cursor))) in
  ∃ consensus quality,
    compute_basespace_consensus alignment_start_position
      alignment_end_position target_quality_scores target_cursor
      query_quality_scores query_cursor target_sequence query_sequence
      alignment = Ok (consensus, quality)
    ∧ length consensus = m ∧ length quality = m
    ∧ ∀ (k : nat) tq qq tb qb,
        target_quality_scores !! (Z.to_nat target_cursor + k)%nat = Some tq ->
        query_quality_scores !! (Z.to_nat query_cursor + k)%nat = Some qq ->
        target_sequence !! (Z.to_nat target_cursor + k)%nat = Some tb ->
        query_sequence !! (Z.to_nat query_cursor + k)%nat = Some qb ->
        (k < m)%nat ->
        quality !! k = Some (Z.max tq qq)
        ∧ consensus !! k = Some (if bool_decide (tq >= qq) then tb else qb).
Proof.
  intros Hs Hal Hend Hts Hqs Htq Hqq Htc Hqc Hcols m.
  unfold compute_basespace_consensus.
  destruct (consensus_loop_matches alignment_end_position
              target_quality_scores query_quality_scores
              target_sequence query_sequence alignment
              Hal Hend Hts Hqs Htq Hqq
              (Z.to_nat (alignment_end_position - alignment_start_position))
              alignment_start_position target_cursor query_cursor [] []
              Hs Htc Hqc ltac:(lia) Hcols)
    as (bases & scores & Hrun & Hlb & Hls & Hk).
  exists bases, scores. simpl in Hrun. done.
Qed.

(** [consensus_shape] on two reads of four bases whose alignment has an
    insertion on either side: three entries for four columns. *)
Lemma consensus_shape_witness :
  compute_basespace_consensus 0 4 [40; 10; 40; 40] 0 [30; 30; 30; 50] 0
    ["A"; "C"; "G"; "T"]%char ["A"; "G"; "G"; "A"]%char [0; 2; 1; 3]
  = Ok (["A"; "G"; "G"]%char, [40; 30; 40])
  ∧ Z.of_nat (length ["A"; "G"; "G"]%char) <= Z.max 0 (4 - 0).
Proof.
  assert (H : compute_basespace_consensus 0 4 [40; 10; 40; 40] 0
                [30; 30; 30; 50] 0 ["A"; "C"; "G"; "T"]%char
                ["A"; "G"; "G"; "A"]%char [0; 2; 1; 3]
              = Ok (["A"; "G"; "G"]%char, [40; 30; 40]))
    by (vm_compute; reflexivity).
  split; [exact H|].
  destruct (consensus_shape _ _ _ _ _ _ _ _ _ _ _ H) as (_ & Hle & _).
  exact Hle.
Defined.

(** [consensus_returns] on the same reads with a cursor past the
    scores. *)
Lemma consensus_returns_witness :
  ∃ result,
    compute_basespace_consensus 0 4 [40; 10; 40; 40] 7 [30; 30; 30; 50] 0
      ["A"; "C"; "G"; "T"]%char ["A"; "G"; "G"; "A"]%char [0; 2; 1; 3]
    = Ok result.
Proof.
  apply consensus_returns; simpl; unfold INT_MIN, INT_MAX; lia.
Defined.

(** [consensus_negative_cursor] with no alignment at all. *)
Lemma consensus_negative_cursor_witness :
  compute_basespace_consensus 0 4 [40; 10; 40; 40] (-1) [30; 30; 30; 50] 0
    ["A"; "C"; "G"; "T"]%char ["A"; "G"; "G"; "A"]%char []
  = Ok ([], []).
Proof.
  apply consensus_negative_cursor; simpl; unfold INT_MIN, INT_MAX; lia.
Defined.

(** [consensus_of_matches] on four columns without insertions. *)
Lemma consensus_of_matches_witness :
  ∃ consensus quality,
    compute_basespace_consensus 0 4 [40; 10; 40; 40] 0 [30; 30; 30; 50] 0
      ["A"; "C"; "G"; "T"]%char ["A"; "G"; "G"; "A"]%char [0; 3; 0; 3]
    = Ok (consensus, quality)
    ∧ length consensus = 4%nat
    ∧ quality !! 1%nat = Some (Z.max 10 30).
Proof.
  destruct (consensus_of_matches 0 4 [40; 10; 40; 40] 0 [30; 30; 30; 50] 0
              ["A"; "C"; "G"; "T"]%char ["A"; "G"; "G"; "A"]%char
              [0; 3; 0; 3])
    as (consensus & quality & Hrun & Hlc & _ & Hk);
    try (simpl; unfold INT_MIN, INT_MAX; lia).
  { intros j a Hj Ha.
    assert (Hcases : j = 0 ∨ j = 1 ∨ j = 2 ∨ j = 3) by lia.
    destruct Hcases as [-> | [-> | [-> | ->]]];
      simpl in Ha; injection Ha as <-; lia. }
  exists consensus, quality.
  destruct (Hk 1%nat 10 30 "C"%char "G"%char eq_refl eq_refl eq_refl eq_refl
              ltac:(simpl; lia)) as [Hq _].
  exact (conj Hrun (conj Hlc Hq)).
Defined.

Lemma consensus_loop_insertions (alignment_end_position : Z)
    (target_quality_scores query_quality_scores : list Z)
    (target_sequence query_sequence : list ascii) (alignment : list Z)
    (target_cursor tq : Z) :
  alignment_end_position <= Z.of_nat (length alignment) ->
  alignment_end_position <= INT_MAX ->
  (length query_quality_scores <= length query_sequence)%nat ->
  Z.of_nat (length target_quality_scores) <= INT_MAX ->
  Z.of_nat (length query_quality_scores) <= INT_MAX ->
  0 <= target_cursor ->
  target_quality_scores !! Z.to_nat target_cursor = Some tq ->
  ∀ (n : nat) (i query_cursor : Z) consensus quality,
    0 <= i -> 0 <= query_cursor <= INT_MAX ->
    alignment_end_position - i <= Z.of_nat n ->
    (∀ j a, i <= j < alignment_end_position ->
            alignment !! Z.to_nat j = Some a -> a = 2) ->
    ∃ bases scores,
      consensus_loop n i alignment_end_position
        target_quality_scores target_cursor query_quality_scores query_cursor
        target_sequence query_sequence alignment consensus quality
      = Ok (consensus ++ bases, quality ++ scores)
      ∧ length bases = length scores
      ∧ zip bases scores
        = filter (fun bs => tq < bs.2)
            (take (Z.to_nat (alignment_end_position - i))
               (drop (Z.to_nat query_cursor)
                  (zip query_sequence query_quality_scores))).
Proof.
  intros Hal Hend Hqs Htq Hqq Htc Htv.
  assert (Htc' : (Z.to_nat target_cursor < length target_quality_scores)%nat)
    by (by eapply lookup_lt_Some).
  assert (Hts1 : to_size_t target_cursor = target_cursor).
  { rewrite to_size_t_int by (unfold INT_MIN, INT_MAX in *; lia).
    by rewrite decide_True. }
  induction n as [|n IH];
    intros i qc consensus quality Hi Hqc Hn Hcols; cbn [consensus_loop].
  { exists [], []. rewrite !app_nil_r.
    replace (Z.to_nat (alignment_end_position - i)) with 0%nat by lia.
    done. }
  destruct (bool_decide (i < alignment_end_position)) eqn:Hlt;
    [apply bool_decide_eq_true in Hlt|].
  2:{ apply bool_decide_eq_false in Hlt. exists [], []. rewrite !app_nil_r.
      replace (Z.to_nat (alignment_end_position - i)) with 0%nat by lia.
      done. }
  assert (Hin1 : cursor_inside target_cursor target_quality_scores = true).
  { unfold cursor_inside. rewrite Hts1. apply bool_decide_eq_true. lia. }
  rewrite Hin1. cbn [andb].
  destruct (cursor_inside qc query_quality_scores) eqn:Hin2.
  2:{ apply cursor_inside_false in Hin2;
        [|unfold INT_MIN; lia|unfold INT_MAX in *; lia].
      exists [], []. rewrite !app_nil_r.
      rewrite drop_ge by (rewrite length_zip_with; lia).
      rewrite take_nil. done. }
  apply cursor_inside_true in Hin2 as [Hin2 Hs2];
    [|unfold INT_MIN; lia|unfold INT_MAX in *; lia].
  destruct (checked_at_inside target_quality_scores target_cursor
              ltac:(lia) Hts1) as (tq0 & -> & Htq0).
  assert (tq0 = tq) as -> by congruence.
  destruct (checked_at_inside query_quality_scores qc Hin2 Hs2)
    as (qq & -> & Hqq0).
  destruct (alignment_at_inside alignment i ltac:(lia)) as (a & -> & Ha).
  destruct (checked_at_inside query_sequence qc ltac:(lia) Hs2)
    as (qb & Hqb & Hqb0).
  rewrite (Hcols i a ltac:(lia) Ha).
  cbn [mbind outcome_bind].
  rewrite (bool_decide_eq_false_2 (2 ≠ 2))
    by (intros Hc; apply Hc; reflexivity).
  rewrite (bool_decide_eq_true_2 (2 ≠ 1)) by done.
  rewrite Hqb.
  rewrite (int_arith_in (qc + 1)) by (unfold INT_MIN, INT_MAX in *; lia).
  rewrite (int_arith_in (i + 1)) by (unfold INT_MIN, INT_MAX in *; lia).
  assert (Hzip : zip query_sequence query_quality_scores !! Z.to_nat qc
                 = Some (qb, qq)).
  { apply lookup_zip_with_Some. by exists qb, qq. }
  replace (Z.to_nat (alignment_end_position - i))
    with (S (Z.to_nat (alignment_end_position - (i + 1)))) by lia.
  rewrite (drop_S _ _ _ Hzip). cbn [take].
  replace (S (Z.to_nat qc)) with (Z.to_nat (qc + 1)) by lia.
  rewrite filter_cons. cbn [snd].
  destruct (bool_decide (tq >= qq)) eqn:Hge;
    [apply bool_decide_eq_true in Hge|apply bool_decide_eq_false in Hge];
    cbn [mbind outcome_bind].
  - rewrite decide_False by lia.
    apply IH; [lia | unfold INT_MAX in *; lia | lia |].
    intros j a' Hj. apply Hcols. lia.
  - rewrite decide_True by lia.
    destruct (IH (i + 1) (qc + 1) (consensus ++ [qb]) (quality ++ [qq]))
      as (bases & scores & Hrun & Hlen & Hzip');
      [lia | unfold INT_MAX in *; lia | lia
      | intros j a' Hj; apply Hcols; lia |].
    rewrite Hrun. exists (qb :: bases), (qq :: scores).
    rewrite <- !app_assoc. simpl. rewrite Hlen, Hzip'. done.
Qed.

(** Over columns that are all insertions to the query the target cursor
    stands still, and every base of the query is measured against the
    score of the one target base the cursor stands on: the consensus
    keeps, in order, the query bases whose score is higher than that
    score, and drops the others; the target sequence is never read. *)
Theorem consensus_of_query_insertions
    (alignment_start_position alignment_end_position : Z)
    (target_quality_scores : list Z) (target_cursor : Z)
    (query_quality_scores : list Z) (query_cursor : Z)
    (target_sequence query_sequence : list ascii) (alignment : list Z)
    (tq : Z) :
  0 <= alignment_start_position ->
  alignment_end_position <= Z.of_nat (length alignment) ->
  alignment_end_position <= INT_MAX ->
  (length query_quality_scores <= length query_sequence)%nat ->
  Z.of_nat (length target_quality_scores) <= INT_MAX ->
  Z.of_nat (length query_quality_scores) <= INT_MAX ->
  0 <= target_cursor -> 0 <= query_cursor <= INT_MAX ->
  target_quality_scores !! Z.to_nat target_cursor = Some tq ->
  (∀ j a, alignment_start_position <= j < alignment_end_position ->
          alignment !! Z.to_nat j = Some a -> a = 2) ->
  ∃ consensus quality,
    compute_basespace_consensus alignment_start_position
      alignment_end_position target_quality_scores target_cursor
      query_quality_scores query_cursor target_sequence query_sequence
      alignment = Ok (consensus, quality)
    ∧ length consensus = length quality
    ∧ zip consensus quality
      = filter (fun bs => tq < bs.2)
          (take (Z.to_nat (alignment_end_position
                           - alignment_start_position))
             (drop (Z.to_nat query_cursor)
                (zip query_sequence query_quality_scores))).
Proof.
  intros Hs Hal Hend Hqs Htq Hqq Htc Hqc Htv Hcols.
  unfold compute_basespace_consensus.
  destruct (consensus_loop_insertions alignment_end_position
              target_quality_scores query_quality_scores
              target_sequence query_sequence alignment target_cursor tq
              Hal Hend Hqs Htq Hqq Htc Htv
              (Z.to_nat (alignment_end_position - alignment_start_position))
              alignment_start_position query_cursor [] []
              Hs Hqc ltac:(lia) Hcols)
    as (bases & scores & Hrun & Hlen & Hzip).
  exists bases, scores. simpl in Hrun. done.
Qed.

(** [consensus_of_query_insertions]: against a target score of 35 the
    query keeps the one base whose score is higher; the target has no
    sequence at all. *)
Lemma consensus_of_query_insertions_witness :
  ∃ consensus quality,
    compute_basespace_consensus 0 3 [35] 0 [30; 50; 35] 0
      [] ["A"; "G"; "T"]%char [2; 2; 2]
    = Ok (consensus, quality)
    ∧ zip consensus quality = [("G"%char, 50)].
Proof.
  destruct (consensus_of_query_insertions 0 3 [35] 0 [30; 50; 35] 0
              [] ["A"; "G"; "T"]%char [2; 2; 2] 35)
    as (consensus & quality & Hrun & _ & Hzip);
    try (simpl; unfold INT_MIN, INT_MAX; lia); try reflexivity.
  { intros j a Hj Ha.
    assert (Hcases : j = 0 ∨ j = 1 ∨ j = 2) by lia.
    destruct Hcases as [-> | [-> | ->]];
      simpl in Ha; by injection Ha as <-. }
  exists consensus, quality. exact (conj Hrun Hzip).
Defined.

End Duplex.


(** ** Model metadata: what [get_modbase_info_and_maybe_init] returns *)

Lemma collect_info_snoc (model_info : list ModelInfo) (e : ModelInfo)
    (with_node : bool) :
  collect_info (model_info ++ [e]) with_node
  = let '(result, ctx) := collect_info model_info with_node in
    (mkInfo (join_names (mi_long_names e) (info_long_names result))
            (info_alphabet result ++ mi_alphabet e),
     if with_node && negb (bool_decide (mi_motif e = []))
     then ctx ++ [(mi_motif e, Z.to_nat (mi_motif_offset e))]
     else ctx).
Proof. unfold collect_info. rewrite foldl_app. simpl. by destruct (foldl _ _ _). Qed.

Lemma collect_info_names (mi1 mi2 : list ModelInfo) (w1 w2 : bool) :
  Forall2 (fun e1 e2 => mi_long_names e1 = mi_long_names e2
                        ∧ mi_alphabet e1 = mi_alphabet e2) mi1 mi2 ->
  (collect_info mi1 w1).1 = (collect_info mi2 w2).1.
Proof.
  revert mi2. induction mi1 as [|e1 mi1 IH] using rev_ind; intros mi2 H.
  - by apply Forall2_nil_inv_l in H as ->.
  - apply Forall2_app_inv_l in H as (k1 & k2 & H1 & H2 & ->).
    apply Forall2_cons_inv_l in H2 as (e2 & k3 & [Hn Ha] & Hnil & ->).
    apply Forall2_nil_inv_l in Hnil as ->.
    rewrite !collect_info_snoc. specialize (IH k1 H1).
    destruct (collect_info mi1 w1) as [r1 c1], (collect_info k1 w2) as [r2 c2].
    simpl in *. subst r2. by rewrite Hn, Ha.
Qed.

Lemma load_params_names (p : BaseModParams) (mi1 mi2 : list ModelInfo)
    (n : NodeInfo) :
  Forall2 (fun e1 e2 => mi_long_names e1 = mi_long_names e2
                        ∧ mi_alphabet e1 = mi_alphabet e2) mi1 mi2 ->
  match load_params p (mi1, Some n), load_params p (mi2, None) with
  | Ok (mi1', Some _), Ok (mi2', None) =>
      Forall2 (fun e1 e2 => mi_long_names e1 = mi_long_names e2
                            ∧ mi_alphabet e1 = mi_alphabet e2) mi1' mi2'
  | Throw m1, Throw m2 => m1 = m2
  | Undefined, Undefined => True
  | _, _ => False
  end.
Proof.
  intros H. unfold load_params.
  destruct (string_at (motif p) (motif_offset p)) as [base| |];
    cbn [mbind outcome_bind]; try done.
  case_decide; [|done].
  destruct (mi1 !! Z.to_nat (BASE_IDS base)) as [e1|] eqn:E1.
  - destruct (Forall2_lookup_l _ _ _ _ _ H E1) as (e2 & E2 & Hn & Ha).
    rewrite E2. cbn [of_option mbind outcome_bind].
    apply Forall2_insert; [done|]. simpl. by rewrite Ha.
  - assert (E2 : mi2 !! Z.to_nat (BASE_IDS base) = None).
    { apply lookup_ge_None. apply lookup_ge_None in E1.
      by rewrite <- (Forall2_length _ _ _ H). }
    rewrite E2. done.
Qed.

Lemma load_all_params_names (ps : list BaseModParams) :
  ∀ (mi1 mi2 : list ModelInfo) (n : NodeInfo),
    Forall2 (fun e1 e2 => mi_long_names e1 = mi_long_names e2
                          ∧ mi_alphabet e1 = mi_alphabet e2) mi1 mi2 ->
    match load_all_params ps (mi1, Some n), load_all_params ps (mi2, None) with
    | Ok (mi1', Some _), Ok (mi2', None) =>
        Forall2 (fun e1 e2 => mi_long_names e1 = mi_long_names e2
                              ∧ mi_alphabet e1 = mi_alphabet e2) mi1' mi2'
    | Throw m1, Throw m2 => m1 = m2
    | Undefined, Undefined => True
    | _, _ => False
    end.
Proof.
  induction ps as [|p ps IH]; intros mi1 mi2 n H; [done|].
  cbn [load_all_params].
  pose proof (load_params_names p mi1 mi2 n H) as Hp.
  destruct (load_params p (mi1, Some n)) as [[mi1' [n'|]]| |],
    (load_params p (mi2, None)) as [[mi2' [?|]]| |];
    cbn [mbind outcome_bind]; try done.
  by apply IH.
Qed.

(** The [Info] returned does not depend on whether a node is passed:
    called with a null node the function returns the alphabet and the
    long names it returns when it initialises a node, and it throws, or
    indexes a motif out of range, on the same parameters. *)
Theorem info_independent_of_node (base_mod_params : list BaseModParams)
    (node : NodeInfo) :
  match get_modbase_info_and_maybe_init base_mod_params (Some node),
        get_modbase_info_and_maybe_init base_mod_params None with
  | Ok (info1, Some _, _), Ok (info2, None, _) => info1 = info2
  | Throw m1, Throw m2 => m1 = m2
  | Undefined, Undefined => True
  | _, _ => False
  end.
Proof.
  unfold get_modbase_info_and_maybe_init.
  assert (H0 : Forall2 (fun e1 e2 => mi_long_names e1 = mi_long_names e2
                                     ∧ mi_alphabet e1 = mi_alphabet e2)
                 initial_model_info initial_model_info).
  { apply Forall_Forall2_diag, Forall_forall. done. }
  pose proof (load_all_params_names base_mod_params _ _ node H0) as H.
  destruct (load_all_params base_mod_params (initial_model_info, Some node))
    as [[mi1 [n1|]]| |],
    (load_all_params base_mod_params (initial_model_info, None))
    as [[mi2 [?|]]| |];
    cbn [mbind outcome_bind]; try done.
  pose proof (collect_info_names mi1 mi2 (bool_decide (is_Some (Some n1)))
                (bool_decide (is_Some (@None NodeInfo))) H) as Hc.
  destruct (collect_info mi1 _) as [r1 c1], (collect_info mi2 _) as [r2 c2].
  simpl in *. done.
Qed.

Lemma BASE_IDS_inj (c1 c2 : ascii) :
  c1 ∈ allowed_bases -> c2 ∈ allowed_bases ->
  BASE_IDS c1 = BASE_IDS c2 -> c1 = c2.
Proof.
  unfold allowed_bases, BASE_IDS. rewrite !elem_of_cons, !elem_of_nil.
  intros [->|[->|[->|[->|[]]]]] [->|[->|[->|[->|[]]]]]; simpl; done.
Qed.

Lemma load_params_commute (p1 p2 : BaseModParams)
    (acc acc1 acc12 : list ModelInfo * option NodeInfo) :
  context_base p1 ≠ context_base p2 ->
  load_params p1 acc = Ok acc1 -> load_params p2 acc1 = Ok acc12 ->
  ∃ acc2, load_params p2 acc = Ok acc2 ∧ load_params p1 acc2 = Ok acc12.
Proof.
  unfold context_base. destruct acc as [mi node]. intros Hne H1 H2.
  unfold load_params in *.
  destruct (string_at (motif p1) (motif_offset p1)) as [base1| |];
    cbn [mbind outcome_bind] in *; try done.
  destruct (string_at (motif p2) (motif_offset p2)) as [base2| |];
    [|destruct acc1; cbn [mbind outcome_bind] in *; done..].
  case_decide as Hin1; [|done].
  destruct (mi !! Z.to_nat (BASE_IDS base1)) as [e1|] eqn:E1;
    cbn [of_option mbind outcome_bind] in H1; [|done].
  assert (Hb : Z.to_nat (BASE_IDS base1) ≠ Z.to_nat (BASE_IDS base2)
               ∨ base2 ∉ allowed_bases).
  { destruct (decide (base2 ∈ allowed_bases)) as [Hin2|]; [left|by right].
    intros Heq. apply Hne. f_equal.
    apply BASE_IDS_inj; [done | done |].
    apply BASE_IDS_allowed in Hin1, Hin2. lia. }
  destruct node as [n|]; injection H1 as <-;
    cbn [mbind outcome_bind] in H2 |- *;
    (case_decide as Hin2; [|done]);
    (destruct Hb as [Hb|]; [|done]);
    rewrite list_lookup_insert_ne in H2 by done;
    (destruct (mi !! Z.to_nat (BASE_IDS base2)) as [e2|] eqn:E2;
       cbn [of_option mbind outcome_bind] in H2 |- *; [|done]);
    injection H2 as <-; eexists; (split; [done|]);
    simpl; rewrite list_lookup_insert_ne by done; rewrite E1; simpl;
    rewrite (list_insert_insert_ne _ (Z.to_nat (BASE_IDS base1))) by done;
    [|done].
  do 3 f_equal. f_equal. lia.
Qed.

Lemma load_all_params_perm (ps ps' : list BaseModParams) :
  ps ≡ₚ ps' -> NoDup (context_base <$> ps) ->
  ∀ acc result,
    load_all_params ps acc = Ok result -> load_all_params ps' acc = Ok result.
Proof.
  induction 1 as [|p ps ps' Hperm IH|p1 p2 ps|ps ps' ps'' H1 IH1 H2 IH2];
    intros Hnd acc result H.
  - done.
  - cbn [load_all_params] in *.
    destruct (load_params p acc) as [acc1| |]; cbn [mbind outcome_bind] in *;
      try done.
    rewrite fmap_cons in Hnd. apply NoDup_cons in Hnd as [_ Hnd]. by apply IH.
  - cbn [load_all_params] in *.
    destruct (load_params p2 acc) as [acc1| |] eqn:E1;
      cbn [mbind outcome_bind] in H; try done.
    destruct (load_params p1 acc1) as [acc12| |] eqn:E2;
      cbn [mbind outcome_bind] in H; try done.
    rewrite !fmap_cons in Hnd. apply NoDup_cons in Hnd as [Hne _].
    destruct (load_params_commute p2 p1 acc acc1 acc12) as (acc2 & -> & E3);
      [intros Heq; apply Hne; rewrite Heq; by left | done | done |].
    cbn [mbind outcome_bind]. rewrite E3. done.
  - apply IH2; [|by apply IH1]. by rewrite <- H1.
Qed.

(** The order in which the models are listed does not matter: when no
    two of them look at the same base, every listing of the same models
    leaves the node, the returned [Info] and the table of classes the
    same. *)
Theorem order_of_models_irrelevant (ps ps' : list BaseModParams)
    (node : option NodeInfo) result :
  ps ≡ₚ ps' -> NoDup (context_base <$> ps) ->
  get_modbase_info_and_maybe_init ps node = Ok result ->
  get_modbase_info_and_maybe_init ps' node = Ok result.
Proof.
  intros Hperm Hnd. unfold get_modbase_info_and_maybe_init.
  destruct (load_all_params ps (initial_model_info, node)) as [acc| |] eqn:E;
    cbn [mbind outcome_bind]; try done.
  by rewrite (load_all_params_perm ps ps' Hperm Hnd _ _ E).
Qed.

(** [order_of_models_irrelevant] for a 5mC and a 6mA model. *)
Lemma order_of_models_irrelevant_witness :
  get_modbase_info_and_maybe_init [params_6mA; params_5mC] (Some plain_info)
  = Ok (mkInfo "6mA 5mC" ["A"; "a"; "C"; "m"; "G"; "T"]%char,
        Some (mkNodeInfo 6 [0; 2; 4; 5]
                [(["A"]%char, 0); (["C"; "G"]%char, 0)]),
        [mkModelInfo ["6mA"%string] ["A"; "a"]%char ["A"]%char 0 2;
         mkModelInfo ["5mC"%string] ["C"; "m"]%char ["C"; "G"]%char 0 2;
         mkModelInfo [] ["G"]%char [] 0 1;
         mkModelInfo [] ["T"]%char [] 0 1]).
Proof.
  apply (order_of_models_irrelevant [params_5mC; params_6mA]).
  - apply perm_swap.
  - vm_compute. repeat constructor; rewrite ?elem_of_cons, ?elem_of_nil;
      intros H; intuition discriminate.
  - vm_compute. reflexivity.
Defined.

Lemma load_params_Ok (p : BaseModParams) (mi : list ModelInfo)
    (n : NodeInfo) acc' :
  load_params p (mi, Some n) = Ok acc' ->
  ∃ c e,
    context_base p = Ok c ∧ c ∈ allowed_bases
    ∧ mi !! Z.to_nat (BASE_IDS c) = Some e
    ∧ acc' = (<[Z.to_nat (BASE_IDS c) :=
                 mkModelInfo (mod_long_names p)
                   (mi_alphabet e ++ mod_bases p) (motif p)
                   (motif_offset p) (base_mod_count p + 1)]> mi,
              Some (mkNodeInfo (m_num_states n + base_mod_count p)
                      (m_base_prob_offsets n) (m_contexts n))).
Proof.
  unfold load_params, context_base. intros H.
  destruct (string_at (motif p) (motif_offset p)) as [c| |];
    cbn [mbind outcome_bind] in H; try done.
  case_decide; [|done].
  destruct (mi !! Z.to_nat (BASE_IDS c)) as [e|] eqn:E;
    cbn [of_option mbind outcome_bind] in H; [|done].
  injection H as <-. by exists c, e.
Qed.

Lemma load_all_params_allowed (ps : list BaseModParams) :
  ∀ acc acc', load_all_params ps acc = Ok acc' ->
    ∀ p c, p ∈ ps -> context_base p = Ok c -> c ∈ allowed_bases.
Proof.
  induction ps as [|p ps IH]; intros acc acc' H p' c Hp' Hc.
  { by apply elem_of_nil in Hp'. }
  cbn [load_all_params] in H.
  destruct (load_params p acc) as [acc1| |] eqn:E;
    cbn [mbind outcome_bind] in H; try done.
  apply elem_of_cons in Hp' as [->|Hp']; [|by eapply IH].
  destruct acc as [mi node]. unfold load_params, context_base in *.
  rewrite Hc in E. cbn [mbind outcome_bind] in E. by case_decide.
Qed.

Lemma load_all_params_table (ps : list BaseModParams) :
  NoDup (context_base <$> ps) ->
  ∀ (mi mi' : list ModelInfo) (n : NodeInfo) (node' : option NodeInfo),
    load_all_params ps (mi, Some n) = Ok (mi', node') ->
    (∀ p c e, p ∈ ps -> context_base p = Ok c ->
              mi !! Z.to_nat (BASE_IDS c) = Some e ->
              mi' !! Z.to_nat (BASE_IDS c)
              = Some (mkModelInfo (mod_long_names p)
                        (mi_alphabet e ++ mod_bases p) (motif p)
                        (motif_offset p) (base_mod_count p + 1)))
    ∧ (∀ b, (∀ p c, p ∈ ps -> context_base p = Ok c ->
                    Z.to_nat (BASE_IDS c) ≠ b) ->
            mi' !! b = mi !! b)
    ∧ ∃ n', node' = Some n'
            ∧ m_num_states n'
              = m_num_states n + sum_list (base_mod_count <$> ps)
            ∧ m_base_prob_offsets n' = m_base_prob_offsets n
            ∧ m_contexts n' = m_contexts n.
Proof.
  induction ps as [|p ps IH]; intros Hnd mi mi' n node' H.
  { injection H as <- <-. split_and!.
    - intros p c e Hp. by apply elem_of_nil in Hp.
    - done.
    - exists n. simpl. split_and!; [done | lia | done | done]. }
  cbn [load_all_params] in H.
  destruct (load_params p (mi, Some n)) as [acc1| |] eqn:E;
    cbn [mbind outcome_bind] in H; try done.
  apply load_params_Ok in E as (c & e & Hc & Hin & He & ->).
  rewrite fmap_cons in Hnd. apply NoDup_cons in Hnd as [Hfresh Hnd].
  destruct (IH Hnd _ _ _ _ H) as (Hhit & Hmiss & n' & -> & Hstates & Hoff & Hctx).
  assert (Hother : ∀ p' c', p' ∈ ps -> context_base p' = Ok c' ->
                     Z.to_nat (BASE_IDS c') ≠ Z.to_nat (BASE_IDS c)).
  { intros p' c' Hp' Hc' Heq. apply Hfresh. rewrite Hc.
    apply list_elem_of_fmap. exists p'. split; [|done]. rewrite Hc'. f_equal.
    assert (Hin' : c' ∈ allowed_bases)
      by (by eapply (load_all_params_allowed ps)).
    symmetry. apply BASE_IDS_inj; [done | done |].
    apply BASE_IDS_allowed in Hin, Hin'. lia. }
  split_and!.
  - intros p' c' e' [->|Hp']%elem_of_cons Hc' He'.
    + assert (c' = c) as -> by congruence.
      assert (e' = e) as -> by congruence.
      rewrite Hmiss by (intros; by eapply Hother).
      apply list_lookup_insert_eq. by eapply lookup_lt_Some.
    + apply Hhit; [done | done |].
      rewrite list_lookup_insert_ne; [done|].
      intros Heq. by eapply Hother.
  - intros b Hb. rewrite Hmiss.
    + apply list_lookup_insert_ne. eapply Hb; [by left | done].
    + intros p' c' Hp'. apply Hb. by right.
  - exists n'. split_and!; [done | | done | done].
    rewrite Hstates, fmap_cons. simpl. lia.
Qed.

Lemma context_base_cases (ps : list BaseModParams) (c : ascii) :
  (∃ p, p ∈ ps ∧ context_base p = Ok c)
  ∨ (∀ p, p ∈ ps -> context_base p ≠ Ok c).
Proof.
  induction ps as [|p ps [(p' & Hp' & Hc)|IH]].
  - right. intros p Hp. by apply elem_of_nil in Hp.
  - left. exists p'. split; [by right | done].
  - destruct (context_base p) as [c'| |] eqn:E.
    + destruct (decide (c' = c)) as [->|Hne].
      * left. exists p. split; [by left | done].
      * right. intros p' [->|Hp']%elem_of_cons; [congruence | by apply IH].
    + right. intros p' [->|Hp']%elem_of_cons; [congruence | by apply IH].
    + right. intros p' [->|Hp']%elem_of_cons; [congruence | by apply IH].
Qed.

Lemma load_all_params_tight (ps : list BaseModParams) :
  NoDup (context_base <$> ps) ->
  ∀ (mi mi' : list ModelInfo) (n : NodeInfo) (node' : option NodeInfo),
    length mi = 4 ->
    (∀ p c, p ∈ ps -> context_base p = Ok c ->
            count_of mi (Z.to_nat (BASE_IDS c)) = 1) ->
    load_all_params ps (mi, Some n) = Ok (mi', node') ->
    ∃ n', node' = Some n'
          ∧ count_of mi' 0 + count_of mi' 1 + count_of mi' 2 + count_of mi' 3
            + m_num_states n
            = count_of mi 0 + count_of mi 1 + count_of mi 2 + count_of mi 3
              + m_num_states n'.
Proof.
  induction ps as [|p ps IH]; intros Hnd mi mi' n node' Hlen Hone H.
  { injection H as <- <-. by exists n. }
  pose proof (load_all_params_allowed _ _ _ H) as Hallowed.
  cbn [load_all_params] in H.
  destruct (load_params p (mi, Some n)) as [acc1| |] eqn:E;
    cbn [mbind outcome_bind] in H; try done.
  apply load_params_Ok in E as (c & e & Hc & Hin & He & ->).
  rewrite fmap_cons in Hnd. apply NoDup_cons in Hnd as [Hfresh Hnd].
  pose proof (Hone p c ltac:(by left) Hc) as Hcount.
  assert (Hone' : ∀ p' c', p' ∈ ps -> context_base p' = Ok c' ->
            count_of (<[Z.to_nat (BASE_IDS c) :=
                         mkModelInfo (mod_long_names p)
                           (mi_alphabet e ++ mod_bases p) (motif p)
                           (motif_offset p) (base_mod_count p + 1)]> mi)
              (Z.to_nat (BASE_IDS c')) = 1).
  { intros p' c' Hp' Hc'.
    assert (Hin' : c' ∈ allowed_bases)
      by (eapply Hallowed; [by right | done]).
    assert (Hne : Z.to_nat (BASE_IDS c) ≠ Z.to_nat (BASE_IDS c')).
    { intros Heq. apply Hfresh. rewrite Hc.
      apply list_elem_of_fmap. exists p'. split; [|done]. rewrite Hc'. f_equal.
      apply BASE_IDS_inj; [done | done |].
      apply BASE_IDS_allowed in Hin, Hin'. lia. }
    unfold count_of. rewrite list_lookup_insert_ne by done.
    apply (Hone p' c'); [by right | done]. }
  destruct (IH Hnd _ _ _ _ ltac:(by rewrite length_insert) Hone' H)
    as (n' & -> & Hsum).
  exists n'. split; [done|].
  apply BASE_IDS_allowed in Hin.
  destruct mi as [|e0 [|e1 [|e2 [|e3 [|]]]]]; try discriminate Hlen.
  unfold count_of in *.
  assert (Hb : Z.to_nat (BASE_IDS c) < 4) by lia.
  destruct (Z.to_nat (BASE_IDS c)) as [|[|[|[|]]]]; try lia;
    simpl in *; lia.
Qed.

Lemma lookup_app_add {A} (l1 l2 : list A) (k : nat) :
  (l1 ++ l2) !! (length l1 + k) = l2 !! k.
Proof. rewrite lookup_app_r by lia. f_equal. lia. Qed.

Lemma lookup_block {A} (c : A) (mods rest : list A) (k : nat) :
  ((c :: mods) ++ rest) !! 0 = Some c
  ∧ ∀ m, mods !! k = Some m -> ((c :: mods) ++ rest) !! (1 + k) = Some m.
Proof.
  split; [done|]. intros m Hm. simpl. by apply lookup_app_l_Some.
Qed.

(** What the table holds for one canonical base once the models are
    loaded: the base followed by the modified bases of its model, and as
    many classes as that. *)
Lemma loaded_entry (ps : list BaseModParams) (n0 : NodeInfo)
    (mi : list ModelInfo) (node1 : option NodeInfo) (b : nat) (c : ascii) :
  load_all_params ps (initial_model_info, Some n0) = Ok (mi, node1) ->
  NoDup (context_base <$> ps) ->
  Forall (fun p => length (mod_bases p) = base_mod_count p) ps ->
  allowed_bases !! b = Some c ->
  ∃ e mods,
    mi !! b = Some e
    ∧ mi_alphabet e = c :: mods
    ∧ base_counts e = 1 + length mods
    ∧ ∀ p, p ∈ ps -> context_base p = Ok c -> mod_bases p = mods.
Proof.
  intros Hload Hnd Hmods Hb.
  destruct (load_all_params_table ps Hnd _ _ _ _ Hload) as (Hhit & Hmiss & _).
  assert (Hid : Z.to_nat (BASE_IDS c) = b
                ∧ initial_model_info !! b = Some (mkModelInfo [] [c] [] 0 1)).
  { destruct b as [|[|[|[|]]]]; try done; injection Hb as <-; done. }
  destruct Hid as [Hid Hinit].
  destruct (context_base_cases ps c) as [(p & Hp & Hc)|Hnone].
  - pose proof (Hhit p c _ Hp Hc ltac:(by rewrite Hid)) as He.
    rewrite Hid in He. eexists _, (mod_bases p).
    split_and!; [done | done | |].
    + simpl. rewrite Forall_forall in Hmods. rewrite (Hmods p Hp). lia.
    + intros p' Hp' Hc'.
      pose proof (Hhit p' c _ Hp' Hc' ltac:(by rewrite Hid)) as He'.
      rewrite Hid in He'. rewrite He in He'. by injection He' as _ -> _ _ _.
  - rewrite Hmiss in *.
    + eexists _, []. split_and!; [done | done | done |].
      intros p Hp Hc. by destruct (Hnone p Hp).
    + intros p c' Hp Hc' Heq.
      assert (Hin' : c' ∈ allowed_bases)
        by (by eapply (load_all_params_allowed ps)).
      assert (Hin : c ∈ allowed_bases)
        by (by eapply list_elem_of_lookup_2).
      apply (Hnone p Hp). rewrite Hc'. f_equal.
      apply BASE_IDS_inj; [done | done |].
      apply BASE_IDS_allowed in Hin, Hin'. lia.
Qed.

Lemma four_blocks {A} (a0 a1 a2 a3 : list A) (k : nat) (x : A) :
  (a0 !! k = Some x -> (((a0 ++ a1) ++ a2) ++ a3) !! k = Some x)
  ∧ (a1 !! k = Some x ->
       (((a0 ++ a1) ++ a2) ++ a3) !! (length a0 + k) = Some x)
  ∧ (a2 !! k = Some x ->
       (((a0 ++ a1) ++ a2) ++ a3) !! (length a0 + length a1 + k) = Some x)
  ∧ (a3 !! k = Some x ->
       (((a0 ++ a1) ++ a2) ++ a3) !! (length a0 + length a1 + length a2 + k)
       = Some x).
Proof.
  rewrite <- !app_assoc. split_and!; intros H.
  - by apply lookup_app_l_Some.
  - rewrite lookup_app_add. by apply lookup_app_l_Some.
  - rewrite <- Nat.add_assoc, !lookup_app_add. by apply lookup_app_l_Some.
  - rewrite <- !Nat.add_assoc, !lookup_app_add. done.
Qed.

(** The returned alphabet is the legend of a block of [base_mod_probs].
    When no two models look at the same base, every model names as many
    modified bases as it has classes, and the node starts with four
    states: the alphabet has one letter per state; the letter at the
    offset of a canonical base is that base; the letters after it are the
    modified bases of the model for that base, in the model's order; and
    the node has four states plus one per modification. *)
Theorem alphabet_matches_layout (ps : list BaseModParams) (n0 ni : NodeInfo)
    (result : Info) (model_info : list ModelInfo) :
  get_modbase_info_and_maybe_init ps (Some n0)
  = Ok (result, Some ni, model_info) ->
  m_num_states n0 = 4 ->
  NoDup (context_base <$> ps) ->
  Forall (fun p => length (mod_bases p) = base_mod_count p) ps ->
  length (info_alphabet result) = m_num_states ni
  ∧ m_num_states ni = 4 + sum_list (base_mod_count <$> ps)
  ∧ ∀ b c, allowed_bases !! b = Some c ->
      ∃ off, m_base_prob_offsets ni !! b = Some off
             ∧ info_alphabet result !! off = Some c
             ∧ ∀ p j m, p ∈ ps -> context_base p = Ok c ->
                        mod_bases p !! j = Some m ->
                        info_alphabet result !! (off + 1 + j) = Some m.
Proof.
  unfold get_modbase_info_and_maybe_init. intros H Hn0 Hnd Hmods.
  destruct (load_all_params ps (initial_model_info, Some n0))
    as [[mi node1]| |] eqn:Hload; cbn [mbind outcome_bind] in H; try done.
  destruct (load_all_params_table ps Hnd _ _ _ _ Hload)
    as (_ & _ & n1 & -> & Hstates & _).
  assert (Hone : ∀ p c, p ∈ ps -> context_base p = Ok c ->
            count_of initial_model_info (Z.to_nat (BASE_IDS c)) = 1).
  { intros p c Hp Hc.
    pose proof (load_all_params_allowed _ _ _ Hload p c Hp Hc) as Ha.
    unfold allowed_bases in Ha. rewrite !elem_of_cons, elem_of_nil in Ha.
    destruct Ha as [->|[->|[->|[->|[]]]]]; done. }
  destruct (load_all_params_tight ps Hnd initial_model_info mi n0 (Some n1)
              eq_refl Hone Hload) as (n1' & [= <-] & Hsum).
  destruct (loaded_entry ps n0 mi _ 0 "A" Hload Hnd Hmods eq_refl)
    as (e0 & m0 & E0 & A0 & C0 & M0).
  destruct (loaded_entry ps n0 mi _ 1 "C" Hload Hnd Hmods eq_refl)
    as (e1 & m1 & E1 & A1 & C1 & M1).
  destruct (loaded_entry ps n0 mi _ 2 "G" Hload Hnd Hmods eq_refl)
    as (e2 & m2 & E2 & A2 & C2 & M2).
  destruct (loaded_entry ps n0 mi _ 3 "T" Hload Hnd Hmods eq_refl)
    as (e3 & m3 & E3 & A3 & C3 & M3).
  pose proof (load_all_params_inv ps _ _
                (load_inv_initial (Some n0)
                   ltac:(intros n [= <-]; lia)) Hload) as (Hlen & _).
  simpl in Hlen.
  destruct mi as [|e0' [|e1' [|e2' [|e3' [|]]]]]; try discriminate Hlen.
  simpl in E0, E1, E2, E3.
  injection E0 as ->. injection E1 as ->. injection E2 as ->.
  injection E3 as ->.
  unfold collect_info, count_of in *. simpl in H, Hsum.
  injection H as <- <- <-. cbn [info_alphabet m_num_states m_base_prob_offsets].
  assert (L0 : base_counts e0 = length (mi_alphabet e0))
    by (rewrite A0, C0; simpl; lia).
  assert (L1 : base_counts e1 = length (mi_alphabet e1))
    by (rewrite A1, C1; simpl; lia).
  assert (L2 : base_counts e2 = length (mi_alphabet e2))
    by (rewrite A2, C2; simpl; lia).
  assert (L3 : base_counts e3 = length (mi_alphabet e3))
    by (rewrite A3, C3; simpl; lia).
  rewrite L0, L1, L2 in *.
  split_and!; [rewrite !length_app; lia | lia |].
  intros b c Hb.
  destruct b as [|[|[|[|]]]]; try done; injection Hb as <-; eexists;
    (split; [reflexivity|]).
  - split.
    + apply four_blocks. by rewrite A0.
    + intros p j m Hp Hc Hj. rewrite (M0 p Hp Hc) in Hj.
      apply four_blocks. by rewrite A0.
  - split.
    + rewrite <- (Nat.add_0_r (length (mi_alphabet e0))).
      apply four_blocks. by rewrite A1.
    + intros p j m Hp Hc Hj. rewrite (M1 p Hp Hc) in Hj.
      rewrite <- Nat.add_assoc. apply four_blocks. by rewrite A1.
  - split.
    + rewrite <- (Nat.add_0_r (_ + _)).
      apply four_blocks. by rewrite A2.
    + intros p j m Hp Hc Hj. rewrite (M2 p Hp Hc) in Hj.
      rewrite <- (Nat.add_assoc _ 1 j). apply four_blocks. by rewrite A2.
  - split.
    + rewrite <- (Nat.add_0_r (_ + _ + _)).
      apply four_blocks. by rewrite A3.
    + intros p j m Hp Hc Hj. rewrite (M3 p Hp Hc) in Hj.
      rewrite <- (Nat.add_assoc _ 1 j). apply four_blocks. by rewrite A3.
Qed.

(** [alphabet_matches_layout] for a 5mC and a 6mA model. *)
Lemma alphabet_matches_layout_witness :
  ∃ result ni model_info,
    get_modbase_info_and_maybe_init [params_5mC; params_6mA] (Some plain_info)
    = Ok (result, Some ni, model_info)
    ∧ length (info_alphabet result) = m_num_states ni
    ∧ m_num_states ni = 6.
Proof.
  eexists _, _, _. split; [vm_compute; reflexivity|].
  destruct (alphabet_matches_layout [params_5mC; params_6mA] plain_info
              _ _ _ eq_refl eq_refl) as (Hlen & Hn & _).
  - vm_compute. repeat constructor; rewrite ?elem_of_cons, ?elem_of_nil;
      intros H; intuition discriminate.
  - repeat constructor.
  - exact (conj Hlen Hn).
Defined.

(** A second model for a base that already has one does not add to the
    first: it replaces the long names, the motif and the class count of
    the first, while the classes of both are counted in [m_num_states]
    and the letters of both stay in the alphabet.  The offsets then
    address only the classes of the second model, and every block of
    [m_num_states] entries has as many entries no offset leads to as the
    first model has classes. *)
Theorem second_model_on_a_base (p1 p2 : BaseModParams) (c : ascii)
    (n0 ni : NodeInfo) (result : Info) (model_info : list ModelInfo) :
  context_base p1 = Ok c -> context_base p2 = Ok c ->
  get_modbase_info_and_maybe_init [p1; p2] (Some n0)
  = Ok (result, Some ni, model_info) ->
  m_num_states n0 = 4 ->
  m_num_states ni = 4 + base_mod_count p1 + base_mod_count p2
  ∧ count_of model_info 0 + count_of model_info 1 + count_of model_info 2
    + count_of model_info 3 = 4 + base_mod_count p2
  ∧ model_info !! Z.to_nat (BASE_IDS c)
    = Some (mkModelInfo (mod_long_names p2)
              (([c] ++ mod_bases p1) ++ mod_bases p2) (motif p2)
              (motif_offset p2) (base_mod_count p2 + 1))
  ∧ length (info_alphabet result)
    = 4 + length (mod_bases p1) + length (mod_bases p2).
Proof.
  unfold context_base, get_modbase_info_and_maybe_init. intros H1 H2 H Hn0.
  cbn [load_all_params] in H. unfold load_params in H.
  rewrite H1 in H. cbn [mbind outcome_bind] in H.
  case_decide as Hin; [|done].
  unfold allowed_bases in Hin. rewrite !elem_of_cons, elem_of_nil in Hin.
  destruct Hin as [->|[->|[->|[->|[]]]]];
    simpl in H; rewrite H2 in H; simpl in H;
    injection H as <- <- <-; unfold count_of; simpl;
    rewrite ?length_app; simpl; rewrite ?length_app; simpl;
    split_and!; try done; lia.
Qed.

(** [second_model_on_a_base] for two models on C, one with one
    modification and one with two. *)
Lemma second_model_on_a_base_witness :
  ∃ result ni model_info,
    get_modbase_info_and_maybe_init [params_5mC; params_5mC_5hmC]
      (Some plain_info) = Ok (result, Some ni, model_info)
    ∧ m_num_states ni = 7
    ∧ m_base_prob_offsets ni = [0; 1; 4; 5]
    ∧ info_alphabet result = ["A"; "C"; "m"; "h"; "m"; "G"; "T"]%char.
Proof.
  eexists _, _, _. split; [vm_compute; reflexivity|].
  destruct (second_model_on_a_base params_5mC params_5mC_5hmC "C" plain_info
              _ _ _ eq_refl eq_refl eq_refl eq_refl) as (Hn & _).
  split_and!; [exact Hn | reflexivity | reflexivity].
Defined.


(** ** The node's start-up and the batches of a caller *)

Lemma concat_replicate_length {A} (d : nat) (l : list A) :
  length (concat (replicate d l)) = d * length l.
Proof. induction d as [|d IH]; simpl; [done|]. rewrite length_app, IH. lia. Qed.

(** The node's metadata do not depend on the number of devices: with
    the callers laid out device by device, each device with the same
    models in the same order, [init_modbase_info] reads the models of the
    first device only and so counts every model once. *)
Theorem init_counts_each_model_once (models : list BaseModParams)
    (m_num_devices : nat) (node : NodeInfo) :
  0 < m_num_devices ->
  init_modbase_info (concat (replicate m_num_devices models)) m_num_devices
    node
  = init_modbase_info models 1 node.
Proof.
  intros Hd. unfold init_modbase_info.
  rewrite !decide_False by lia.
  rewrite concat_replicate_length, Nat.div_1_r, firstn_all.
  rewrite Nat.mul_comm, Nat.div_mul by lia.
  destruct m_num_devices as [|d]; [lia|]. simpl.
  by rewrite take_app_length.
Qed.

(** [init_counts_each_model_once] for two devices with a 5mC and a 6mA
    model each. *)
Lemma init_counts_each_model_once_witness :
  init_modbase_info
    (concat (replicate 2 [params_5mC; params_6mA])) 2 plain_info
  = Ok (mkNodeInfo 6 [0; 2; 4; 5] [(["A"]%char, 0); (["C"; "G"]%char, 0)]).
Proof.
  rewrite (init_counts_each_model_once [params_5mC; params_6mA] 2 plain_info)
    by lia.
  vm_compute. reflexivity.
Defined.

Lemma push_chunks_prefix (batch_size : nat) (queue : list RemoraChunk) :
  ∀ batched batched' queue',
    push_chunks batch_size batched queue = (batched', queue') ->
    ∃ taken, batched' = batched ++ taken ∧ queue = taken ++ queue'
             ∧ (length batched <= batch_size ->
                length batched' <= batch_size).
Proof.
  induction queue as [|chunk queue IH]; intros batched batched' queue' H;
    simpl in H.
  - injection H as <- <-. exists []. by rewrite app_nil_r.
  - case_decide as Hfull.
    + injection H as <- <-. exists []. by rewrite app_nil_r.
    + apply IH in H as (taken & -> & -> & Hle). exists (chunk :: taken).
      split_and!; [by rewrite <- app_assoc | done |].
      intros Hb.
      assert (Hl1 : length (batched ++ [chunk]) = S (length batched))
        by (rewrite length_app; simpl; lia).
      apply Hle. lia.
Qed.

Lemma caller_pass_inv (batch_size : nat) (queue : list RemoraChunk)
    (batched : list RemoraChunk) (accepted : list (nat * RemoraChunk)) :
  accepted = imap (fun i chunk => (i, chunk)) batched ->
  length batched <= batch_size ->
  (caller_pass batch_size (batched, accepted) queue).1.2
  = imap (fun i chunk => (i, chunk))
         (caller_pass batch_size (batched, accepted) queue).1.1
  ∧ length (caller_pass batch_size (batched, accepted) queue).1.1
    <= batch_size.
Proof.
  intros Hacc Hlen. unfold caller_pass.
  destruct (push_chunks batch_size batched queue) as [batched' queue'] eqn:E.
  cbn [fst snd]. apply push_chunks_prefix in E as (taken & -> & _ & Hle).
  split; [|by apply Hle].
  unfold accept_calls. rewrite drop_app_length, imap_app, Hacc. done.
Qed.

Lemma caller_passes_inv (batch_size : nat) (queues : list (list RemoraChunk)) :
  ∀ batched accepted,
    accepted = imap (fun i chunk => (i, chunk)) batched ->
    length batched <= batch_size ->
    (caller_passes batch_size (batched, accepted) queues).2
    = imap (fun i chunk => (i, chunk))
           (caller_passes batch_size (batched, accepted) queues).1
    ∧ length (caller_passes batch_size (batched, accepted) queues).1
      <= batch_size.
Proof.
  induction queues as [|queue queues IH]; intros batched accepted Hacc Hlen;
    [done|].
  unfold caller_passes. cbn [foldl].
  destruct (caller_pass_inv batch_size queue batched accepted Hacc Hlen)
    as [Hacc' Hlen'].
  destruct (caller_pass batch_size (batched, accepted) queue).1
    as [batched' accepted'].
  by apply IH.
Qed.

(** A caller hands its chunks to the model slot by slot.  Over any
    succession of passes that take chunks into a batch without scoring
    it, [accept_chunk] has been called once for each chunk of the batch,
    in order, with the chunk's index in the batch as its slot; and the
    batch never holds more than [batch_size] chunks. *)
Theorem accepted_slots_match_batch (batch_size : nat)
    (queues : list (list RemoraChunk)) :
  (caller_passes batch_size ([], []) queues).2
  = imap (fun i chunk => (i, chunk))
         (caller_passes batch_size ([], []) queues).1
  ∧ length (caller_passes batch_size ([], []) queues).1 <= batch_size.
Proof. apply caller_passes_inv; [done | simpl; lia]. Qed.

Lemma filter_seq_none (P : nat -> Prop) `{!∀ i, Decision (P i)}
    (len base : nat) :
  (∀ j, j < len -> ¬ P (base + j)) ->
  length (filter P (List.seq base len)) = 0.
Proof.
  revert base. induction len as [|len IH]; intros base Hno; [done|].
  cbn [List.seq]. rewrite filter_cons.
  rewrite decide_False
    by (specialize (Hno 0 ltac:(lia)); by rewrite Nat.add_0_r in Hno).
  apply IH. intros j Hj. replace (S base + j) with (base + S j) by lia.
  apply Hno. lia.
Qed.

Lemma filter_seq_one (P : nat -> Prop) `{!∀ i, Decision (P i)}
    (len base k : nat) :
  k < len -> (∀ j, j < len -> (P (base + j) <-> j = k)) ->
  length (filter P (List.seq base len)) = 1.
Proof.
  revert base k. induction len as [|len IH]; intros base k Hk Hone; [lia|].
  cbn [List.seq]. rewrite filter_cons.
  pose proof (Hone 0 ltac:(lia)) as H0. rewrite Nat.add_0_r in H0.
  destruct k as [|k].
  - rewrite decide_True by (by apply H0). simpl. f_equal.
    apply filter_seq_none. intros j Hj.
    replace (S base + j) with (base + S j) by lia. rewrite Hone by lia. lia.
  - rewrite decide_False by (rewrite H0; lia).
    apply (IH (S base) k); [lia|]. intros j Hj.
    replace (S base + j) with (base + S j) by lia. rewrite Hone by lia. lia.
Qed.

Lemma callers_of_queue (m d k : nat) :
  k < m ->
  length (filter (fun i => i `mod` m = k) (List.seq 0 (m * d))) = d.
Proof.
  intros Hk. induction d as [|d IH].
  - by rewrite Nat.mul_0_r.
  - replace (m * S d) with (m * d + m) by lia.
    rewrite seq_app, filter_app, length_app, IH. simpl.
    rewrite (filter_seq_one _ m (m * d) k); [lia | done |].
    intros j Hj. rewrite (Nat.mul_comm m d), Nat.add_comm.
    rewrite Nat.Div0.mod_add, Nat.mod_small by lia. done.
Qed.

(** Every request queue has its callers: when the callers are a whole
    number of devices' worth, each of the [num_models] queues is the
    queue of exactly [m_num_devices] of the caller threads the
    constructor starts. *)
Theorem every_queue_has_its_callers (cfg : Config) (k : nat) :
  0 < m_num_devices cfg ->
  num_callers cfg `mod` m_num_devices cfg = 0 ->
  k < num_models cfg ->
  length (filter (fun caller_id => queue_of cfg caller_id = k)
            (List.seq 0 (num_callers cfg)))
  = m_num_devices cfg.
Proof.
  intros Hd Hmod Hk. unfold queue_of, num_models in *.
  pose proof (Nat.div_mod_eq (num_callers cfg) (m_num_devices cfg)) as Hdiv.
  rewrite Hmod, Nat.add_0_r in Hdiv.
  rewrite Hdiv at 1. rewrite Nat.mul_comm.
  by apply callers_of_queue.
Qed.

(** [every_queue_has_its_callers] for two models on three devices. *)
Lemma every_queue_has_its_callers_witness :
  length (filter (fun caller_id =>
                    queue_of (mkConfig 4 6 3 3 10 plain_info (fun _ _ => []))
                      caller_id = 1)
            (List.seq 0 6)) = 3.
Proof.
  apply (every_queue_has_its_callers
           (mkConfig 4 6 3 3 10 plain_info (fun _ _ => [])) 1);
    [simpl; lia | reflexivity | vm_compute; lia].
Defined.


(** ** The GPU core count *)

(** The core count is found once.  After a call that returns a count
    other than -1, every later call returns that count and leaves the
    static variable alone, whatever the registry and the device say by
    then; a count estimated from the device name is 8, 16, 32 or 64. *)
Theorem core_count_is_cached (gpu_core_count : Z)
    (num_cores num_cores' : option Z) (name name' : string) :
  (get_mtl_device_core_count gpu_core_count num_cores name).2 ≠ (-1)%Z ->
  get_mtl_device_core_count
    (get_mtl_device_core_count gpu_core_count num_cores name).1
    num_cores' name'
  = get_mtl_device_core_count gpu_core_count num_cores name
  ∧ (gpu_core_count = (-1)%Z -> num_cores = None ->
     (get_mtl_device_core_count gpu_core_count num_cores name).2
     ∈ [8; 16; 32; 64]%Z).
Proof.
  unfold get_mtl_device_core_count. intros H. split.
  - destruct (decide (gpu_core_count ≠ (-1)%Z)); simpl in *.
    + by rewrite decide_True.
    + destruct num_cores; simpl in *; by rewrite decide_True.
  - intros -> ->. simpl. unfold estimate_core_count.
    repeat case_decide; rewrite !elem_of_cons; tauto.
Qed.

(** [core_count_is_cached]: twelve cores read from the registry stay
    twelve when the registry is gone. *)
Lemma core_count_is_cached_witness :
  get_mtl_device_core_count
    (get_mtl_device_core_count (-1) (Some 12%Z) "Apple M2").1
    None "Apple M1 Max"
  = (12%Z, 12%Z).
Proof.
  destruct (core_count_is_cached (-1) (Some 12%Z) None "Apple M2"
              "Apple M1 Max") as [H _]; [vm_compute; discriminate|].
  rewrite H. reflexivity.
Defined.
